(** * cross-file-obfuscator: a shallow embedding of the name generators,
      the string encryption and the binary symbol obfuscator.

    Go's [string] is modelled by [string], a [[]byte] by [list ascii]
    ([[]byte(s)] is [list_ascii_of_string s]), an [int] by [Z], a
    [map[string]T] by a [gmap string T], and [crypto/rand] by a stream of
    naturals that the code consumes from left to right. *)

From Stdlib Require Import ZArith Lia List Ascii String Bool.
From stdpp Require Import gmap strings list pretty.
Import ListNotations.
Local Open Scope Z_scope.

(** ** Bytes and byte slices *)

Abbreviation byte := ascii.
Abbreviation bytes := (list ascii).

(** The numeric value of a byte, [0 <= u8 b < 256]. *)
Definition u8 (b : byte) : Z := Z.of_N (N_of_ascii b).

Definition byte_of (z : Z) : byte := ascii_of_N (Z.to_N z).

(** [data[i:j]] for in-range bounds. *)
Definition slice (data : bytes) (i j : nat) : bytes := take (j - i) (drop i data).

(** [data[i]]; Go panics outside the slice, every use below is guarded. *)
Definition at_ (data : bytes) (i : nat) : byte := nth i data zero.

(** [bytes.Equal] *)
Definition bytes_Equal (a b : bytes) : bool := bool_decide (a = b).

(** [copy(data[j:j+len(src)], src)] when the destination is in range. *)
Definition copy_at (data : bytes) (j : nat) (src : bytes) : bytes :=
  take j data ++ src ++ drop (j + length src) data.

(** ** junk_code.go (linker part): the pclntab magic *)

Definition go12magic : Z := 0xfffffffb.
Definition go116magic : Z := 0xfffffffa.
Definition go118magic : Z := 0xfffffff0.
Definition go120magic : Z := 0xfffffff1.

(** [binary.LittleEndian.Uint32]:
    [uint32(b[0]) | uint32(b[1])<<8 | uint32(b[2])<<16 | uint32(b[3])<<24]. *)
Definition Uint32 (b : bytes) : Z :=
  Z.lor (Z.lor (Z.lor (u8 (at_ b 0)) (Z.shiftl (u8 (at_ b 1)) 8))
               (Z.shiftl (u8 (at_ b 2)) 16))
        (Z.shiftl (u8 (at_ b 3)) 24).

Definition magics : list Z := [go12magic; go116magic; go118magic; go120magic].

(** The inner [for _, magic := range magics] loop. *)
Definition isMagic (value : Z) : bool := existsb (Z.eqb value) magics.

(** [for i := 0; i <= len(data)-4; i++]: [n] counts the iterations left. *)
Fixpoint findPclntabMagic_loop (data : bytes) (i n : nat) : Z :=
  match n with
  | O => -1
  | S n' =>
      let value := Uint32 (slice data i (i + 4)) in
      if isMagic value then Z.of_nat i
      else findPclntabMagic_loop data (S i) n'
  end.

Definition findPclntabMagic (data : bytes) : Z :=
  findPclntabMagic_loop data 0 (length data - 3).

(** The property of the claim, written without the code: offset [i] holds
    four bytes whose little-endian value is a supported magic. *)
Definition le32 (b0 b1 b2 b3 : byte) : Z :=
  u8 b0 + 2 ^ 8 * u8 b1 + 2 ^ 16 * u8 b2 + 2 ^ 24 * u8 b3.

Definition magicAt (data : bytes) (i : nat) : Prop :=
  ∃ b0 b1 b2 b3,
    data !! i = Some b0 ∧ data !! (i + 1)%nat = Some b1 ∧
    data !! (i + 2)%nat = Some b2 ∧ data !! (i + 3)%nat = Some b3 ∧
    (le32 b0 b1 b2 b3 = 0xfffffffb ∨ le32 b0 b1 b2 b3 = 0xfffffffa ∨
     le32 b0 b1 b2 b3 = 0xfffffff0 ∨ le32 b0 b1 b2 b3 = 0xfffffff1).


(** ** Randomness

    [crypto/rand] is a source of naturals read from left to right;
    theorems quantify over every source.  Failures of the system's random
    device are outside the model. *)

Record Rand := { rnd_src : nat -> nat; rnd_pos : nat }.

(** A computation that draws from the random source. *)
Definition R (A : Type) : Type := Rand -> A * Rand.

#[global] Instance R_ret : MRet R := fun A a r => (a, r).
#[global] Instance R_bind : MBind R :=
  fun A B k m r => let (a, r') := m r in k a r'.

(** [rand.Int(rand.Reader, big.NewInt(max))] for [max > 0]: a number in
    [[0, max)]. *)
Definition rand_Int (max : Z) : R Z :=
  fun r => (Z.of_nat (rnd_src r (rnd_pos r)) mod max,
            {| rnd_src := rnd_src r; rnd_pos := S (rnd_pos r) |}).

(** ** Strings *)

(** [len(s)] *)
Definition len (s : string) : Z := Z.of_nat (String.length s).

(** [s[:n]] for [0 <= n <= len(s)]. *)
Definition prefix_to (s : string) (n : Z) : string := substring 0 (Z.to_nat n) s.

(** [strings.HasSuffix(s, ".")] *)
Fixpoint HasSuffix_dot (s : string) : bool :=
  match s with
  | EmptyString => false
  | String c EmptyString => bool_decide (c = "."%char)
  | String _ rest => HasSuffix_dot rest
  end.

(** [strings.TrimSuffix(s, ".")] *)
Fixpoint TrimSuffix_dot (s : string) : string :=
  match s with
  | EmptyString => EmptyString
  | String c EmptyString => if bool_decide (c = "."%char) then EmptyString else s
  | String c rest => String c (TrimSuffix_dot rest)
  end.

(** [strings.Contains(s, "/")] *)
Fixpoint Contains_slash (s : string) : bool :=
  match s with
  | EmptyString => false
  | String c rest => bool_decide (c = "/"%char) || Contains_slash rest
  end.

(** [m[k]] on a [map[string]bool]: [false] for an absent key. *)
Definition lookup_bool (m : gmap string bool) (k : string) : bool :=
  default false (m !! k).

(** ** The obfuscator (part_003: types; part_001: [New]) *)

Record Config := {
  ObfuscateExported : bool;
  ObfuscateFileNames : bool;
  EncryptStrings : bool;
  InjectJunkCode : bool;
  RemoveComments : bool;
  PreserveReflection : bool;
  SkipGeneratedCode : bool;
  ExcludePatterns : list string
}.

(** The fields of [Obfuscator] that the modelled functions read or write. *)
Record Obfuscator := {
  varMapping : gmap string string;
  funcMapping : gmap string string;
  importAliasMapping : gmap string string;
  protectedNames : gmap string bool;
  packageNames : gmap string bool;
  encryptionKey : string;
  namingCounter : Z;
  Config_ : Config
}.

(** ** part_004: [isExported] *)

Definition isExported (name : string) : bool :=
  match name with
  | EmptyString => false
  | String c _ => (u8 "A" <=? u8 c) && (u8 c <=? u8 "Z")
  end.

(** ** part_002: [shouldProtect] *)

Definition protectedIdentifiers : gmap string bool :=
  list_to_map
    [ ("error", true); ("string", true); ("int", true); ("bool", true);
      ("byte", true); ("rune", true); ("float32", true); ("float64", true);
      ("complex64", true); ("complex128", true); ("uint", true);
      ("int8", true); ("int16", true); ("int32", true); ("int64", true);
      ("uint8", true); ("uint16", true); ("uint32", true); ("uint64", true);
      ("uintptr", true);
      ("len", true); ("cap", true); ("make", true); ("new", true);
      ("append", true); ("copy", true); ("delete", true); ("panic", true);
      ("recover", true); ("print", true); ("println", true); ("close", true);
      ("min", true); ("max", true); ("clear", true);
      ("nil", true); ("true", true); ("false", true); ("iota", true) ]%string.

Definition shouldProtect (o : Obfuscator) (name : string) : bool :=
  if bool_decide (name = "_"%string) || bool_decide (name = "main"%string)
     || bool_decide (name = "init"%string) then true
  else if negb (ObfuscateExported (Config_ o)) && isExported name then true
  else if lookup_bool (protectedNames o) name then true
  else if lookup_bool (packageNames o) name then true
  else if lookup_bool protectedIdentifiers name then true
  else false.

(** The enumerated names of the claim: builtin types, functions and
    constants, as listed in the source. *)
Definition builtin_types : list string :=
  [ "error"; "string"; "int"; "bool"; "byte"; "rune"; "float32"; "float64";
    "complex64"; "complex128"; "uint"; "int8"; "int16"; "int32"; "int64";
    "uint8"; "uint16"; "uint32"; "uint64"; "uintptr" ]%string.
Definition builtin_functions : list string :=
  [ "len"; "cap"; "make"; "new"; "append"; "copy"; "delete"; "panic";
    "recover"; "print"; "println"; "close"; "min"; "max"; "clear" ]%string.
Definition builtin_constants : list string :=
  [ "nil"; "true"; "false"; "iota" ]%string.

(** ** encoding/base64, [StdEncoding]

    The Go standard library is not part of the repository; [Encode] and
    [DecodeString] follow RFC 4648 section 4 the way [encoding/base64]
    computes it: three bytes are packed into a 24-bit value that is cut into
    four 6-bit digits, the last group is padded with ['=']; the decoder
    skips CR and LF and rejects everything else outside the alphabet. *)

Module base64.

Definition encodeStd : bytes :=
  list_ascii_of_string
    "ABCDEFGHIJKLMNOPQRSTUVWXYZabcdefghijklmnopqrstuvwxyz0123456789+/".

Definition padChar : byte := "="%char.

(** [enc.encode[v]] *)
Definition enc (v : Z) : byte := nth (Z.to_nat v) encodeStd zero.

Fixpoint index_of (c : byte) (l : bytes) (i : Z) : option Z :=
  match l with
  | [] => None
  | x :: l' => if bool_decide (x = c) then Some i else index_of c l' (i + 1)
  end.

(** [enc.decodeMap[c]], [None] for the entries that hold [0xff]. *)
Definition dec (c : byte) : option Z := index_of c encodeStd 0.

Definition digit (val shift : Z) : byte :=
  enc (Z.land (Z.shiftr val shift) 0x3F).

Fixpoint Encode (src : bytes) : bytes :=
  match src with
  | [] => []
  | [b0] =>
      let val := Z.shiftl (u8 b0) 16 in
      [digit val 18; digit val 12; padChar; padChar]
  | [b0; b1] =>
      let val := Z.lor (Z.shiftl (u8 b0) 16) (Z.shiftl (u8 b1) 8) in
      [digit val 18; digit val 12; digit val 6; padChar]
  | b0 :: b1 :: b2 :: rest =>
      let val := Z.lor (Z.lor (Z.shiftl (u8 b0) 16) (Z.shiftl (u8 b1) 8))
                       (u8 b2) in
      digit val 18 :: digit val 12 :: digit val 6 :: digit val 0
        :: Encode rest
  end.

Definition EncodeToString (src : bytes) : string :=
  string_of_list_ascii (Encode src).

(** [byte(val >> shift)] *)
Definition out (val shift : Z) : byte := byte_of (Z.shiftr val shift mod 256).

(** One quantum of four characters at a time; [None] is a
    [CorruptInputError]. *)
Fixpoint decode_quanta (src : bytes) (n : nat) : option bytes :=
  match n with
  | O => match src with [] => Some [] | _ => None end
  | S n' =>
      match src with
      | [] => Some []
      | c0 :: c1 :: c2 :: c3 :: rest =>
          d0 ← dec c0; d1 ← dec c1;
          if bool_decide (c2 = padChar) then
            if bool_decide (c3 = padChar) && bool_decide (rest = []) then
              let val := Z.lor (Z.shiftl d0 18) (Z.shiftl d1 12) in
              Some [out val 16]
            else None
          else
            d2 ← dec c2;
            if bool_decide (c3 = padChar) then
              if bool_decide (rest = []) then
                let val := Z.lor (Z.lor (Z.shiftl d0 18) (Z.shiftl d1 12))
                                 (Z.shiftl d2 6) in
                Some [out val 16; out val 8]
              else None
            else
              d3 ← dec c3;
              let val := Z.lor (Z.lor (Z.lor (Z.shiftl d0 18) (Z.shiftl d1 12))
                                      (Z.shiftl d2 6)) d3 in
              tl ← decode_quanta rest n';
              Some (out val 16 :: out val 8 :: out val 0 :: tl)
      | _ => None
      end
  end.

Definition isNewline (c : byte) : bool :=
  bool_decide (c = "010"%char) || bool_decide (c = "013"%char).

Definition stripNewlines (src : bytes) : bytes :=
  filter (fun c => isNewline c = false) src.

Definition DecodeString (s : string) : option bytes :=
  let src := stripNewlines (list_ascii_of_string s) in
  decode_quanta src (length src).

End base64.

(** ** string_encryption.go *)

(** [a ^ b] on two bytes, bit by bit. *)
Definition xor_byte (a b : byte) : byte :=
  match a, b with
  | Ascii a0 a1 a2 a3 a4 a5 a6 a7, Ascii b0 b1 b2 b3 b4 b5 b6 b7 =>
      Ascii (xorb a0 b0) (xorb a1 b1) (xorb a2 b2) (xorb a3 b3)
            (xorb a4 b4) (xorb a5 b5) (xorb a6 b6) (xorb a7 b7)
  end.

(** [for i, b := range data { out[i] = b ^ key[i%len(key)] }], started at
    index [i]. *)
Fixpoint xor_loop (key : bytes) (i : nat) (data : bytes) : bytes :=
  match data with
  | [] => []
  | b :: rest =>
      xor_byte b (at_ key (i mod length key)) :: xor_loop key (S i) rest
  end.

(** [encryptString]; [None] is the run-time panic of [i%len(key)] with an
    empty key, which a non-empty text reaches. *)
Definition encryptString (o : Obfuscator) (text : string) : option string :=
  let key := list_ascii_of_string (encryptionKey o) in
  let textBytes := list_ascii_of_string text in
  match key, textBytes with
  | [], _ :: _ => None
  | _, _ => Some (base64.EncodeToString (xor_loop key 0 textBytes))
  end.

(** The function whose source text [generateDecryptFunction] emits: its
    [key] literal lists the bytes of [o.encryptionKey] in decimal. *)
Definition decryptFunction (o : Obfuscator) (encrypted : string) : option string :=
  match base64.DecodeString encrypted with
  | None => Some EmptyString
  | Some data =>
      let key := list_ascii_of_string (encryptionKey o) in
      match key, data with
      | [], _ :: _ => None
      | _, _ => Some (string_of_list_ascii (xor_loop key 0 data))
      end
  end.

(** ** name_generator.go *)

Record NaturalNameGenerator := {
  usedNames : gmap string bool;
  pkgPrefixes : list string;
  pkgSuffixes : list string;
  pkgMiddles : list string;
  words : list string
}.

Definition NewNaturalNameGenerator : NaturalNameGenerator := {|
  usedNames := ∅;
  pkgPrefixes :=
    [ "app"; "lib"; "pkg"; "sys"; "web"; "api"; "net"; "db";
      "svc"; "core"; "util"; "data"; "log"; "auth"; "cache" ]%string;
  pkgSuffixes :=
    [ "core"; "util"; "base"; "main"; "impl"; "svc"; "mgr";
      "handler"; "service"; "client"; "server"; "config" ]%string;
  pkgMiddles := [ ""; "http"; "grpc"; "rest"; "rpc"; "sql"; "store" ]%string;
  words :=
    [ "handle"; "process"; "execute"; "run"; "start"; "stop";
      "init"; "setup"; "config"; "load"; "save"; "update";
      "create"; "delete"; "remove"; "add"; "set"; "get";
      "fetch"; "send"; "receive"; "parse"; "format"; "convert" ]%string
|}.

Definition set_used (g : NaturalNameGenerator) (name : string) : NaturalNameGenerator :=
  {| usedNames := <[name := true]> (usedNames g);
     pkgPrefixes := pkgPrefixes g; pkgSuffixes := pkgSuffixes g;
     pkgMiddles := pkgMiddles g; words := words g |}.

(** [secureRandInt]: [0] without a draw for [max <= 0], otherwise a number
    in [[0, max)]. *)
Definition secureRandInt (max : Z) : R Z :=
  if max <=? 0 then mret 0
  else n ← rand_Int max; mret n.

(** [l[i]] on a slice of strings and [string(s[i])] on a string; the
    indices come from [secureRandInt(len(..))] and are in range when the
    slice is not empty (Go panics on an empty one). *)
Definition item (l : list string) (i : Z) : string := nth (Z.to_nat i) l EmptyString.

Definition char_at (s : string) (i : Z) : string :=
  match get (Z.to_nat i) s with
  | Some c => String c EmptyString
  | None => EmptyString
  end.

Definition llen (l : list string) : Z := Z.of_nat (length l).

Definition letters : string := "abcdefghijklmnopqrstuvwxyz".
Definition vowels : string := "aeiou".
Definition consonants : string := "bcdfghjklmnpqrstvwxyz".

(** [for len(base) < targetLength { base += string(letters[..]) }]; [n]
    bounds the iterations. *)
Fixpoint padWithLetters_loop (n : nat) (base : string) (targetLength : Z) : R string :=
  match n with
  | O => mret base
  | S n' =>
      if len base <? targetLength then
        i ← secureRandInt (len letters);
        padWithLetters_loop n' (base +:+ char_at letters i) targetLength
      else mret base
  end.

Definition padWithLetters (base : string) (targetLength : Z) : R string :=
  padWithLetters_loop (Z.to_nat (targetLength - len base)) base targetLength.

(** [for i := 0; i < length; i++ { result += string(letters[..]) }] *)
Fixpoint randomLetters_loop (n : nat) (result : string) : R string :=
  match n with
  | O => mret result
  | S n' =>
      i ← secureRandInt (len letters);
      randomLetters_loop n' (result +:+ char_at letters i)
  end.

Definition randomLetters (length : Z) : R string :=
  randomLetters_loop (Z.to_nat length) EmptyString.

Definition shortNames : list string :=
  [ "a"; "b"; "c"; "x"; "y"; "z";
    "ab"; "io"; "os"; "db"; "fs"; "ws";
    "app"; "api"; "sys"; "lib"; "net"; "log" ]%string.

Definition generateShortName (length : Z) : R string :=
  let candidates := filter (fun name => len name = length) shortNames in
  if 0 <? llen candidates then
    idx ← secureRandInt (llen candidates);
    mret (item candidates idx)
  else randomLetters length.

(** [for _, w := range l { if len(w) == length { return w } }] *)
Definition first_of_length (l : list string) (length : Z) : option string :=
  head (filter (fun w => len w = length) l).

Definition generateMediumName (g : NaturalNameGenerator) (length : Z) : R string :=
  match first_of_length (pkgPrefixes g) length with
  | Some prefix => mret prefix
  | None =>
  match first_of_length (pkgSuffixes g) length with
  | Some suffix => mret suffix
  | None =>
      if 4 <=? length then
        i ← secureRandInt (llen (pkgPrefixes g));
        let word := item (pkgPrefixes g) i in
        if length <? len word then mret (prefix_to word length)
        else if len word <? length then
          j ← secureRandInt (llen (pkgMiddles g));
          let suffix := item (pkgMiddles g) j in
          let combined := word +:+ suffix in
          if length <=? len combined then mret (prefix_to combined length)
          else padWithLetters combined length
        else mret word
      else randomLetters length
  end end.

Definition generateLongName (g : NaturalNameGenerator) (length : Z) : R string :=
  i ← secureRandInt (llen (pkgPrefixes g));
  let prefix := item (pkgPrefixes g) i in
  j ← secureRandInt (llen (pkgSuffixes g));
  let suffix := item (pkgSuffixes g) j in
  let combined := prefix +:+ suffix in
  if length <? len combined then mret (prefix_to combined length)
  else if len combined <? length then
    k ← secureRandInt (llen (pkgMiddles g));
    let middle := item (pkgMiddles g) k in
    let combined := prefix +:+ middle +:+ suffix in
    if length <=? len combined then mret (prefix_to combined length)
    else padWithLetters combined length
  else mret combined.

Definition generateName (g : NaturalNameGenerator) (length : Z) : R string :=
  if length <=? 3 then generateShortName length
  else if length <=? 8 then generateMediumName g length
  else generateLongName g length.

(** [for len(result) < length { .. ; useVowel = !useVowel }] *)
Fixpoint generateRandomReadable_loop
    (n : nat) (result : string) (useVowel : bool) (length : Z) : R string :=
  match n with
  | O => mret result
  | S n' =>
      if len result <? length then
        c ← (if useVowel then i ← secureRandInt (len vowels); mret (char_at vowels i)
             else i ← secureRandInt (len consonants); mret (char_at consonants i));
        generateRandomReadable_loop n' (result +:+ c) (negb useVowel) length
      else mret result
  end.

Definition generateRandomReadable (original : string) (length : Z) (hasDot : bool)
  : R string :=
  result ← match original with
           | String c _ =>
               if (u8 "a" <=? u8 c) && (u8 c <=? u8 "z")
               then mret (String c EmptyString)
               else i ← secureRandInt 26;
                    mret (String (byte_of (u8 "a" + i)) EmptyString)
           | EmptyString =>
               i ← secureRandInt 26;
               mret (String (byte_of (u8 "a" + i)) EmptyString)
           end;
  result ← generateRandomReadable_loop (Z.to_nat (length - len result))
             result false length;
  mret (if hasDot then result +:+ "." else result).

(** [for attempt < 1000 { .. attempt++ }]; [n] is [1000 - attempt]. *)
Fixpoint GeneratePackageName_loop
    (n : nat) (g : NaturalNameGenerator) (originalName : string)
    (targetLength : Z) (hasDot : bool) : R (string * NaturalNameGenerator) :=
  match n with
  | O =>
      name ← generateRandomReadable originalName targetLength hasDot;
      mret (name, g)
  | S n' =>
      name ← generateName g targetLength;
      let name := if hasDot then name +:+ "." else name in
      if negb (lookup_bool (usedNames g) name) then mret (name, set_used g name)
      else GeneratePackageName_loop n' g originalName targetLength hasDot
  end.

Definition GeneratePackageName
    (g : NaturalNameGenerator) (originalName : string) (targetLength : Z)
  : R (string * NaturalNameGenerator) :=
  let hasDot := HasSuffix_dot originalName in
  let targetLength := if hasDot then targetLength - 1 else targetLength in
  GeneratePackageName_loop 1000 g originalName targetLength hasDot.

(** A random source that always yields [0], and the start of a run. *)
Definition zeros : Rand := {| rnd_src := fun _ => O; rnd_pos := O |}.

(** ** junk_code.go (linker part): configuration *)

(** [LinkConfig], with the fields that junk_code.go reads.  The map
    [PackageReplacements] is given by its entries in the order in which
    [range] visits them; Go leaves that order unspecified, so the theorems
    hold for every list. *)
Record LinkConfig := {
  RemoveFuncNames : bool;
  EntryPackage : string;
  PackageReplacements : list (string * string);
  AutoDiscoverPackages : bool;
  ObfuscateThirdParty : bool;
  OnlyObfuscateProject : bool;
  DisablePclntab : bool
}.

Definition isLower (c : byte) : bool := (u8 "a" <=? u8 c) && (u8 c <=? u8 "z").
Definition isUpper (c : byte) : bool := (u8 "A" <=? u8 c) && (u8 c <=? u8 "Z").
Definition isDigit (c : byte) : bool := (u8 "0" <=? u8 c) && (u8 c <=? u8 "9").
Definition eqb_byte (c : byte) (d : byte) : bool := bool_decide (c = d).

(** [bytes.IndexByte(b, c) >= 0] *)
Definition has_byte (b : bytes) (c : byte) : bool := existsb (fun x => eqb_byte x c) b.

(** ** [isSafeFunctionNamePrefix] *)

Definition isSafeFunctionNamePrefix (data : bytes) (pos : nat) (pattern : bytes) : bool :=
  let next_check :=
    if has_byte pattern "." && (pos + length pattern <? length data)%nat then
      let nextChar := at_ data (pos + length pattern) in
      if eqb_byte nextChar zero then true
      else if isLower nextChar || isUpper nextChar then true
      else false
    else true in
  if (0 <? pos)%nat then
    let prevChar := at_ data (pos - 1) in
    if eqb_byte prevChar zero then true
    else if (u8 prevChar <? 0x20) && negb (eqb_byte prevChar " ") then true
    else if isLower prevChar || isUpper prevChar || isDigit prevChar
            || eqb_byte prevChar "." || eqb_byte prevChar "/" || eqb_byte prevChar "_"
            || eqb_byte prevChar "-" then false
    else next_check
  else next_check.

(** ** [obfuscateFunctionNames]: the patterns *)

Definition standardLibs : gmap string bool :=
  list_to_map
    [ ("main", false); ("runtime", true); ("sync", true); ("fmt", true);
      ("os", true); ("io", true); ("net", true); ("http", true);
      ("bufio", true); ("bytes", true); ("strings", true); ("strconv", true);
      ("time", true); ("math", true); ("errors", true); ("context", true);
      ("encoding", true); ("json", true); ("xml", true); ("base64", true);
      ("hex", true); ("unicode", true); ("regexp", true); ("log", true);
      ("sort", true); ("path", true); ("filepath", true); ("syscall", true)
    ]%string.

Definition with_dot (s : string) : string :=
  if HasSuffix_dot s then s else s +:+ ".".

(** The [range lo.config.PackageReplacements] loop that fills [patterns]
    and [replacements]. *)
Fixpoint customPatterns
    (only : bool) (entries : list (string * string)) (nameGen : NaturalNameGenerator)
    (patterns replacements : list string)
  : R (list string * list string * NaturalNameGenerator) :=
  match entries with
  | [] => mret (patterns, replacements, nameGen)
  | (original, replacement) :: rest =>
      let pkgName := TrimSuffix_dot original in
      let isStdLib := lookup_bool standardLibs pkgName in
      if only && isStdLib then
        customPatterns only rest nameGen patterns replacements
      else
        let originalPattern := with_dot original in
        let replacementPattern := with_dot replacement in
        '(replacementPattern, nameGen) ←
          (if bool_decide (len replacementPattern ≠ len originalPattern)
           then GeneratePackageName nameGen originalPattern (len originalPattern)
           else mret (replacementPattern, nameGen));
        customPatterns only rest nameGen
          (patterns ++ [originalPattern]) (replacements ++ [replacementPattern])
  end.

(** The [range defaultPatterns] loops. *)
Fixpoint defaultPatterns
    (defaults : list string) (nameGen : NaturalNameGenerator)
    (patterns replacements : list string)
  : R (list string * list string * NaturalNameGenerator) :=
  match defaults with
  | [] => mret (patterns, replacements, nameGen)
  | pattern :: rest =>
      '(replacement, nameGen) ← GeneratePackageName nameGen pattern (len pattern);
      defaultPatterns rest nameGen (patterns ++ [pattern]) (replacements ++ [replacement])
  end.

Definition functionNamePatterns (cfg : LinkConfig) : R (list string * list string) :=
  let nameGen := NewNaturalNameGenerator in
  '(patterns, replacements, _) ←
    (if (0 <? length (PackageReplacements cfg))%nat then
       customPatterns (OnlyObfuscateProject cfg) (PackageReplacements cfg)
                      nameGen [] []
     else if OnlyObfuscateProject cfg then
       defaultPatterns [ "main." ]%string nameGen [] []
     else
       defaultPatterns
         [ "main."; "runtime."; "sync."; "fmt."; "os."; "io."; "net."; "http." ]%string
         nameGen [] []);
  mret (patterns, replacements).

(** ** [obfuscateFunctionNames]: the prefix pass over the pclntab window *)

(** One [copy] into the buffer: where, over which matched pattern, and the
    bytes written.  The code's [count] is the number of these. *)
Record Write := { w_pos : nat; w_pattern : bytes; w_bytes : bytes }.

(** [for j := int(pclntabOffset); j < pclntabSearchEnd-len(patternBytes); j++];
    [n] counts the iterations left. *)
Fixpoint replacePrefix_loop
    (n j : nat) (data patternBytes replacement : bytes) (log : list Write)
  : bytes * list Write :=
  match n with
  | O => (data, log)
  | S n' =>
      if bytes_Equal (slice data j (j + length patternBytes)) patternBytes then
        if negb (isSafeFunctionNamePrefix data j patternBytes) then
          replacePrefix_loop n' (S j) data patternBytes replacement log
        else if (length replacement =? length patternBytes)%nat then
          replacePrefix_loop n' (S j) (copy_at data j replacement)
            patternBytes replacement
            (log ++ [{| w_pos := j; w_pattern := patternBytes; w_bytes := replacement |}])
        else if (length replacement <? length patternBytes)%nat then
          replacePrefix_loop n' (S j) (copy_at data j replacement)
            patternBytes replacement
            (log ++ [{| w_pos := j; w_pattern := patternBytes; w_bytes := replacement |}])
        else replacePrefix_loop n' (S j) data patternBytes replacement log
      else replacePrefix_loop n' (S j) data patternBytes replacement log
  end.

Definition pclntabSearchEnd (data : bytes) (pclntabOffset : Z) : Z :=
  let e := pclntabOffset + 10 * 1024 * 1024 in
  if Z.of_nat (length data) <? e then Z.of_nat (length data) else e.

Definition replacePrefix
    (data : bytes) (pclntabOffset : Z) (pattern replacement : string)
    (log : list Write) : bytes * list Write :=
  let patternBytes := list_ascii_of_string pattern in
  let replacement := list_ascii_of_string replacement in
  replacePrefix_loop
    (Z.to_nat (pclntabSearchEnd data pclntabOffset
               - Z.of_nat (length patternBytes) - pclntabOffset))
    (Z.to_nat pclntabOffset) data patternBytes replacement log.

(** [for i, pattern := range patterns { if i >= len(replacements) { break } .. }] *)
Fixpoint replacePrefixes
    (data : bytes) (pclntabOffset : Z) (patterns replacements : list string)
    (log : list Write) : bytes * list Write :=
  match patterns, replacements with
  | pattern :: patterns', replacement :: replacements' =>
      let '(data, log) := replacePrefix data pclntabOffset pattern replacement log in
      replacePrefixes data pclntabOffset patterns' replacements' log
  | _, _ => (data, log)
  end.

(** ** [replaceProjectPackagePathsGlobal] *)

Definition isSafePackagePathReplacement (data : bytes) (pos length_ : nat) : bool :=
  if (0 <? pos)%nat
     && (let prevChar := at_ data (pos - 1) in
         isLower prevChar || isUpper prevChar || eqb_byte prevChar "_")
  then false
  else if (pos + length_ <? length data)%nat
     && (let nextChar := at_ data (pos + length_) in
         isLower nextChar || isUpper nextChar || isDigit nextChar || eqb_byte nextChar "_")
  then false
  else true.

Definition standardLibs_paths : gmap string bool :=
  <["main" := true]> standardLibs.

(** One replaced path occurrence: where, the buffer before it, the path and
    its replacement. *)
Record PathWrite := {
  pw_pos : nat; pw_before : bytes; pw_pattern : bytes; pw_replacement : bytes
}.

(** [copy(data[j:j+len(r)], r)] followed by zeroes up to [j+len(p)]. *)
Definition patch_padded (data : bytes) (j : nat) (p r : bytes) : bytes :=
  take j data ++ r ++ replicate (length p - length r) zero
    ++ drop (j + length p) data.

(** [for j := 0; j < len(data)-len(patternBytes); j++], where a replacement
    also advances [j] by [len(patternBytes) - 1]; [fuel] bounds the
    iterations. *)
Fixpoint replacePath_loop
    (fuel j : nat) (data patternBytes replacementBytes : bytes)
    (log : list PathWrite) : bytes * list PathWrite :=
  match fuel with
  | O => (data, log)
  | S fuel' =>
      if Z.of_nat j <? Z.of_nat (length data) - Z.of_nat (length patternBytes) then
        if bytes_Equal (slice data j (j + length patternBytes)) patternBytes then
          if negb (isSafePackagePathReplacement data j (length patternBytes)) then
            replacePath_loop fuel' (S j) data patternBytes replacementBytes log
          else if (length replacementBytes <=? length patternBytes)%nat then
            replacePath_loop fuel' (S (j + (length patternBytes - 1)))
              (patch_padded data j patternBytes replacementBytes)
              patternBytes replacementBytes
              (log ++ [{| pw_pos := j; pw_before := data;
                          pw_pattern := patternBytes;
                          pw_replacement := replacementBytes |}])
          else replacePath_loop fuel' (S j) data patternBytes replacementBytes log
        else replacePath_loop fuel' (S j) data patternBytes replacementBytes log
      else (data, log)
  end.

Fixpoint replacePaths
    (entries : list (string * string)) (data : bytes) (log : list PathWrite)
  : bytes * list PathWrite :=
  match entries with
  | [] => (data, log)
  | (original, replacement) :: rest =>
      let originalPath := TrimSuffix_dot original in
      if lookup_bool standardLibs_paths originalPath then replacePaths rest data log
      else if negb (Contains_slash originalPath) then replacePaths rest data log
      else
        let replacementPath := TrimSuffix_dot replacement in
        let '(data, log) :=
          replacePath_loop (length data) 0 data
            (list_ascii_of_string originalPath)
            (list_ascii_of_string replacementPath) log in
        replacePaths rest data log
  end.

(** The buffer after the pass and the replacements made; the returned
    [count] is the length of the log. *)
Definition replaceProjectPackagePathsGlobal (cfg : LinkConfig) (data : bytes)
  : bytes * list PathWrite :=
  if (length (PackageReplacements cfg) =? 0)%nat then (data, [])
  else replacePaths (PackageReplacements cfg) data [].

(** ** [isSafeToReplace]: the denylist of system paths *)

Fixpoint bytes_HasPrefix (s prefix : bytes) : bool :=
  match prefix, s with
  | [], _ => true
  | p :: prefix', c :: s' => eqb_byte c p && bytes_HasPrefix s' prefix'
  | _ :: _, [] => false
  end.

Fixpoint bytes_Contains (s sub : bytes) : bool :=
  bytes_HasPrefix s sub ||
  match s with
  | [] => false
  | _ :: s' => bytes_Contains s' sub
  end.

Definition dangerousPatterns : list bytes :=
  map list_ascii_of_string
    [ "/System/Library/"; "/usr/lib/"; "/usr/local/"; "Library/Frameworks/";
      ".framework/"; ".dylib"; "/Cryptexes/" ]%string.

Definition afterDangerousPatterns : list bytes :=
  map list_ascii_of_string [ ".framework"; ".dylib" ]%string.

Definition isSafeToReplace (data : bytes) (pos length_ : nat) : bool :=
  let contextStart := (pos - 100)%nat in
  let contextBefore := slice data contextStart pos in
  if existsb (bytes_Contains contextBefore) dangerousPatterns then false
  else
    let contextEnd := Nat.min (pos + length_ + 50) (length data) in
    let contextAfter := slice data (pos + length_) contextEnd in
    if existsb (bytes_HasPrefix contextAfter) afterDangerousPatterns then false
    else true.

(** ** [obfuscateFunctionNames] and [modifyPclntab] *)

(** The buffer after both passes with the log of each; the Go function
    mutates [data] and always returns a nil error. *)
Definition obfuscateFunctionNames (cfg : LinkConfig) (data : bytes) (pclntabOffset : Z)
  : R (bytes * list Write * list PathWrite) :=
  '(patterns, replacements) ← functionNamePatterns cfg;
  let '(data, log) := replacePrefixes data pclntabOffset patterns replacements [] in
  let '(data, paths) := replaceProjectPackagePathsGlobal cfg data in
  mret (data, log, paths).

Inductive error :=
| ErrReadFile
| ErrUnsupportedFormat (format : string)
| ErrParse (format : string)
| ErrInvalidOffset
| ErrBackup
| ErrWrite.

(** [(newData, modified, err)] *)
Definition modifyPclntab (cfg : LinkConfig) (data : bytes) (offset : Z)
  : R (bytes * bool * option error) :=
  if (offset <? 0) || (Z.of_nat (length data) <? offset + 4) then
    mret (data, false, Some ErrInvalidOffset)
  else if DisablePclntab cfg then mret (data, false, None)
  else if RemoveFuncNames cfg then
    '(newData, _, _) ← obfuscateFunctionNames cfg data offset;
    mret (newData, true, None)
  else mret (data, false, None).

(** ** The container readers

    [debug/elf], [debug/pe] and [debug/macho] belong to the Go standard
    library; the model takes them as parameters.  A reader returns the
    section table of a file, or [None] for the error of [NewFile]; a section
    carries its name, its file offset and the result of [section.Data()]
    ([None] for its error). *)

Record BinSection := {
  sec_Name : string;
  sec_Offset : Z;
  sec_Data : option bytes
}.

Record Containers := {
  elf_NewFile : bytes -> option (list BinSection);
  pe_NewFile : bytes -> option (list BinSection);
  macho_NewFile : bytes -> option (list BinSection)
}.

(** ** [detectBinaryFormat] *)

Definition detectBinaryFormat (data : bytes) : string :=
  if (length data <? 4)%nat then "Unknown"
  else if eqb_byte (at_ data 0) "127" && eqb_byte (at_ data 1) "E"
          && eqb_byte (at_ data 2) "L" && eqb_byte (at_ data 3) "F" then "ELF"
  else if eqb_byte (at_ data 0) "M" && eqb_byte (at_ data 1) "Z" then "PE"
  else
    let magic := Uint32 (slice data 0 4) in
    if (magic =? 0xfeedface) || (magic =? 0xcefaedfe)
       || (magic =? 0xfeedfacf) || (magic =? 0xcffaedfe) then "Mach-O"
    else "Unknown".

(** ** [processELF], [processPE], [processMachO] *)

(** The [range Sections] loop: the file offset of the magic in the first
    candidate section that holds one. *)
Fixpoint searchSections (candidate : string -> bool) (sections : list BinSection)
  : option Z :=
  match sections with
  | [] => None
  | section :: rest =>
      if candidate (sec_Name section) then
        match sec_Data section with
        | None => searchSections candidate rest
        | Some sectionData =>
            let offset := findPclntabMagic sectionData in
            if 0 <=? offset then Some (sec_Offset section + offset)
            else searchSections candidate rest
        end
      else searchSections candidate rest
  end.

Definition name_in (a b : string) (name : string) : bool :=
  bool_decide (name = a) || bool_decide (name = b).

Definition processELF (P : Containers) (cfg : LinkConfig) (data : bytes)
  : R (bytes * bool * option error) :=
  match elf_NewFile P data with
  | None => mret (data, false, Some (ErrParse "ELF"))
  | Some sections =>
      (* [pclntabData] is non-nil exactly when the loop found a magic *)
      match searchSections (name_in ".gopclntab" ".data.rel.ro") sections with
      | Some pclntabOffset => modifyPclntab cfg data pclntabOffset
      | None =>
          let offset := findPclntabMagic data in
          if offset <? 0 then mret (data, false, None)
          else modifyPclntab cfg data offset
      end
  end.

(** [processPE] and [processMachO] start from [pclntabOffset = -1] and test
    [pclntabOffset < 0] after the loop. *)
Definition process_by_offset
    (sections : list BinSection) (candidate : string -> bool)
    (cfg : LinkConfig) (data : bytes) : R (bytes * bool * option error) :=
  let pclntabOffset := default (-1) (searchSections candidate sections) in
  if pclntabOffset <? 0 then
    let offset := findPclntabMagic data in
    if offset <? 0 then mret (data, false, None)
    else modifyPclntab cfg data offset
  else modifyPclntab cfg data pclntabOffset.

Definition processPE (P : Containers) (cfg : LinkConfig) (data : bytes)
  : R (bytes * bool * option error) :=
  match pe_NewFile P data with
  | None => mret (data, false, Some (ErrParse "PE"))
  | Some sections => process_by_offset sections (name_in ".rdata" ".data") cfg data
  end.

Definition processMachO (P : Containers) (cfg : LinkConfig) (data : bytes)
  : R (bytes * bool * option error) :=
  match macho_NewFile P data with
  | None => mret (data, false, Some (ErrParse "Mach-O"))
  | Some sections =>
      process_by_offset sections (name_in "__gopclntab" "__data") cfg data
  end.

(** ** The file system and [postProcessBinary] *)

(** How a call of [os.WriteFile] fails: [OpenFile] fails and the file stays
    as it is, or the file is opened, which truncates it, and the write or
    the close fails when [n] bytes have been written. *)
Inductive WriteFault := OpenFails | WriteFails (n : nat).

(** The files by path, and the paths on which [os.WriteFile] fails, each
    with the way it fails. *)
Record FS := {
  files : gmap string bytes;
  faults : gmap string WriteFault
}.

(** The paths on which [os.WriteFile] returns an error. *)
Definition unwritable (fs : FS) : gset string := dom (faults fs).

Definition ReadFile (fs : FS) (path : string) : option bytes := files fs !! path.

(** [os.WriteFile]: the file system afterwards, and whether the error is
    nil. *)
Definition WriteFile (fs : FS) (path : string) (data : bytes) : FS * bool :=
  match faults fs !! path with
  | None => ({| files := <[path := data]> (files fs); faults := faults fs |}, true)
  | Some OpenFails => (fs, false)
  | Some (WriteFails n) =>
      ({| files := <[path := take n data]> (files fs); faults := faults fs |}, false)
  end.

(** The per-format function that the [switch format] selects. *)
Definition process (P : Containers) (format : string)
  : option (LinkConfig -> bytes -> R (bytes * bool * option error)) :=
  if bool_decide (format = "ELF"%string) then Some (processELF P)
  else if bool_decide (format = "PE"%string) then Some (processPE P)
  else if bool_decide (format = "Mach-O"%string) then Some (processMachO P)
  else None.

(** [postProcessBinary], for [lo.config = cfg] and [lo.outputBin = outputBin]:
    the returned error ([None] for nil) and the file system afterwards. *)
Definition postProcessBinary
    (P : Containers) (cfg : LinkConfig) (outputBin : string) (fs : FS)
  : R (option error * FS) :=
  match ReadFile fs outputBin with
  | None => mret (Some ErrReadFile, fs)
  | Some data =>
      let format := detectBinaryFormat data in
      match process P format with
      | None => mret (Some (ErrUnsupportedFormat format), fs)
      | Some processFormat =>
          res ← processFormat cfg data;
          let '(newData, modified, err) := (res : bytes * bool * option error) in
          match err return R (option error * FS) with
          | Some e => mret (Some e, fs)
          | None =>
              if modified then
                let backupPath := outputBin +:+ ".backup" in
                let '(fs1, ok) := WriteFile fs backupPath data in
                if negb ok then mret (Some ErrBackup, fs1)
                else
                  let '(fs2, ok) := WriteFile fs1 outputBin newData in
                  if negb ok then mret (Some ErrWrite, fs2)
                  else mret (None, fs2)
              else mret (None, fs)
          end
      end
  end.

(** ** Inputs of the examples *)

Definition bytes_of (l : list Z) : bytes := map byte_of l.

(** A stand-in for the three readers on the files of the examples: a file
    shorter than the 64 bytes of an ELF64 header is rejected, as [NewFile]
    rejects it when it cannot read the header; any other file is read as a
    container without sections, which is how [debug/elf] reads a header
    with [e_shoff = 0] and [e_shnum = 0]. *)
Definition header_only : Containers :=
  let reader := fun data : bytes =>
    if (length data <? 64)%nat then None else Some ([] : list BinSection) in
  {| elf_NewFile := reader; pe_NewFile := reader; macho_NewFile := reader |}.

(** An ELF64 little-endian header without program or section headers. *)
Definition elf_header : bytes :=
  bytes_of
    [ 0x7f; 0x45; 0x4c; 0x46; 2; 1; 1; 0; 0; 0; 0; 0; 0; 0; 0; 0;
      2; 0; 0x3e; 0; 1; 0; 0; 0;
      0; 0; 0; 0; 0; 0; 0; 0;
      0; 0; 0; 0; 0; 0; 0; 0;
      0; 0; 0; 0; 0; 0; 0; 0;
      0; 0; 0; 0; 0x40; 0; 0x38; 0; 0; 0; 0x40; 0; 0; 0; 0; 0 ].

(** The header, the Go 1.2 pclntab magic, and the name [main.Run] between
    null bytes. *)
Definition elf_with_main : bytes :=
  elf_header ++ bytes_of [0xfb; 0xff; 0xff; 0xff; 0]
    ++ list_ascii_of_string "main.Run" ++ bytes_of [0; 0; 0; 0; 0].

(** The same file after the prefix pass renamed [main.] to [core.]. *)
Definition elf_with_core : bytes :=
  elf_header ++ bytes_of [0xfb; 0xff; 0xff; 0xff; 0]
    ++ list_ascii_of_string "core.Run" ++ bytes_of [0; 0; 0; 0; 0].

(** The configuration [NewLinkerObfuscator] builds for a nil [config]. *)
Definition default_LinkConfig : LinkConfig := {|
  RemoveFuncNames := true;
  EntryPackage := ".";
  PackageReplacements := [];
  AutoDiscoverPackages := false;
  ObfuscateThirdParty := false;
  OnlyObfuscateProject := false;
  DisablePclntab := false
|}.

Definition fs_with (path : string) (data : bytes) : FS :=
  {| files := {[ path := data ]}; faults := ∅ |}.

(** ** part_004: [generateRandomString] *)

Definition charset : string :=
  "abcdefghijklmnopqrstuvwxyzABCDEFGHIJKLMNOPQRSTUVWXYZ0123456789".

(** [for i := range result { result[i] = charset[num.Int64()] }] *)
Fixpoint generateRandomString_loop (n : nat) (result : string) : R string :=
  match n with
  | O => mret result
  | S n' =>
      num ← rand_Int (len charset);
      generateRandomString_loop n' (result +:+ char_at charset num)
  end.

Definition generateRandomString (length : Z) : R string :=
  generateRandomString_loop (Z.to_nat length) EmptyString.

(** ** part_001: [New] *)

Definition default_Config : Config := {|
  ObfuscateExported := false;
  ObfuscateFileNames := false;
  EncryptStrings := false;
  InjectJunkCode := false;
  RemoveComments := true;
  PreserveReflection := true;
  SkipGeneratedCode := true;
  ExcludePatterns := []
|}.

(** [New(projectRoot, outputDir, config)], [None] for a nil [config]; the
    draws are those of [randomSeed], [encryptionKey], [decryptFuncName] and
    [decryptPkgName], in this order. *)
Definition New (config : option Config) : R Obfuscator :=
  seed ← rand_Int 999999;
  encryptionKey ← generateRandomString 64;
  decryptFuncName ← generateRandomString 11;
  decryptPkgName ← generateRandomString 8;
  mret {| varMapping := ∅;
          funcMapping := ∅;
          importAliasMapping := ∅;
          protectedNames := ∅;
          packageNames := ∅;
          encryptionKey := encryptionKey;
          namingCounter := 0;
          Config_ := default default_Config config |}.

(** ** part_002: [isNameUsed] and [obfuscateName] *)

(** [for _, obfName := range m { if obfName == name { return true } }] *)
Definition value_in (m : gmap string string) (name : string) : bool :=
  bool_decide (name ∈ (map_to_list m).*2).

Definition isNameUsed (o : Obfuscator) (name : string) : bool :=
  if value_in (varMapping o) name then true
  else if value_in (funcMapping o) name then true
  else if value_in (importAliasMapping o) name then true
  else false.

(** [mapping[name] = obf], on the mapping that [isFunc] selects. *)
Definition set_mapping (o : Obfuscator) (isFunc : bool) (name obf : string) : Obfuscator :=
  {| varMapping := if isFunc then varMapping o else <[name := obf]> (varMapping o);
     funcMapping := if isFunc then <[name := obf]> (funcMapping o) else funcMapping o;
     importAliasMapping := importAliasMapping o;
     protectedNames := protectedNames o;
     packageNames := packageNames o;
     encryptionKey := encryptionKey o;
     namingCounter := namingCounter o;
     Config_ := Config_ o |}.

(** [o.namingCounter++] *)
Definition next_counter (o : Obfuscator) : Obfuscator :=
  {| varMapping := varMapping o;
     funcMapping := funcMapping o;
     importAliasMapping := importAliasMapping o;
     protectedNames := protectedNames o;
     packageNames := packageNames o;
     encryptionKey := encryptionKey o;
     namingCounter := namingCounter o + 1;
     Config_ := Config_ o |}.

(** The category marker in front of a generated name. *)
Definition marker (isExported isFunc : bool) (prefix : string) : string :=
  if isExported then (if isFunc then "Fn" else "V") else prefix.

(** [for attempt := 0; attempt < maxAttempts; attempt++ { .. }] followed by
    the counter fallback; [n] is [maxAttempts - attempt].  [fmt.Sprintf]
    with [%d] prints the counter in decimal, as [pretty] does. *)
Fixpoint obfuscateName_loop
    (n : nat) (o : Obfuscator) (name : string) (isFunc : bool)
    (prefix : string) (isExported : bool) : R (string * Obfuscator) :=
  match n with
  | O =>
      let o := next_counter o in
      suffix ← generateRandomString 8;
      let obf := marker isExported isFunc prefix
                   +:+ pretty (namingCounter o) +:+ "_" +:+ suffix in
      mret (obf, set_mapping o isFunc name obf)
  | S n' =>
      randomPart ← generateRandomString 12;
      let obf := marker isExported isFunc prefix +:+ randomPart in
      if negb (isNameUsed o obf) then mret (obf, set_mapping o isFunc name obf)
      else obfuscateName_loop n' o name isFunc prefix isExported
  end.

Definition obfuscateName (o : Obfuscator) (name : string) (isFunc : bool)
  : R (string * Obfuscator) :=
  let mapping := if isFunc then funcMapping o else varMapping o in
  let prefix := if isFunc then "fn" else "l" in
  match mapping !! name with
  | Some obf => mret (obf, o)
  | None =>
      let isExported :=
        match name with
        | String c _ => (u8 "A" <=? u8 c) && (u8 c <=? u8 "Z")
        | EmptyString => false
        end in
      obfuscateName_loop 100 o name isFunc prefix isExported
  end.

(** A sequence of calls, each on the obfuscator the previous one left;
    the names returned, in order. *)
Fixpoint obfuscateNames (o : Obfuscator) (calls : list (string * bool))
  : R (list string * Obfuscator) :=
  match calls with
  | [] => mret ([], o)
  | (name, isFunc) :: rest =>
      '(obf, o) ← obfuscateName o name isFunc;
      '(names, o) ← obfuscateNames o rest;
      mret (obf :: names, o)
  end.

(** ** Vocabulary of the statements *)

(** [post m P]: whatever the random source yields, the result of [m]
    satisfies [P]. *)
Definition post {A} (m : R A) (P : A -> Prop) : Prop := ∀ r, P (m r).1.

(** One byte for the dot that [GeneratePackageName] puts back. *)
Definition dot_len (hasDot : bool) : Z := if hasDot then 1 else 0.

(** The neighbour bytes of a match, as the claims name them. *)
Definition letter_or_null (c : byte) : bool :=
  eqb_byte c zero || isLower c || isUpper c.

Definition identifier_byte (c : byte) : bool :=
  isLower c || isUpper c || isDigit c || eqb_byte c "." || eqb_byte c "/"
  || eqb_byte c "_" || eqb_byte c "-".

(** A null byte or another byte below [0x20]. *)
Definition control_byte (c : byte) : bool := u8 c <? 0x20.


Definition path_result (w : PathWrite) : bytes :=
  patch_padded (pw_before w) (pw_pos w) (pw_pattern w) (pw_replacement w).









Definition system_path_data : bytes :=
  list_ascii_of_string "/usr/lib/github.com/u/p" ++ [zero; zero].

(** A write of the prefix pass that replaces as many bytes as it matched. *)
Definition equal_length (w : Write) : Prop :=
  length (w_bytes w) = length (w_pattern w).

(** The prefix log of [obfuscateFunctionNames]. *)
Definition prefix_log (res : bytes * list Write * list PathWrite) : list Write :=
  res.1.2.

(** Two replacement entries whose keys both stand for the pattern ["."]:
    the second name generated for it is one byte too long. *)
Definition dot_config : LinkConfig := {|
  RemoveFuncNames := true;
  EntryPackage := ".";
  PackageReplacements := [ ("", "ab"); (".", "cd") ]%string;
  AutoDiscoverPackages := false;
  ObfuscateThirdParty := false;
  OnlyObfuscateProject := false;
  DisablePclntab := false
|}.

Definition dot_data : bytes :=
  bytes_of [0xfb; 0xff; 0xff; 0xff; 0] ++ list_ascii_of_string ".Run"
    ++ bytes_of [0; 0; 0].

(** The reader that the per-format function of [format] calls. *)
Definition NewFile (P : Containers) (format : string) (data : bytes)
  : option (list BinSection) :=
  if bool_decide (format = "ELF"%string) then elf_NewFile P data
  else if bool_decide (format = "PE"%string) then pe_NewFile P data
  else if bool_decide (format = "Mach-O"%string) then macho_NewFile P data
  else None.

(** No supported magic anywhere in a byte string. *)
Definition no_magic (data : bytes) : Prop := ∀ j, ¬ magicAt data j.

(** [has_char c s]: the byte [c] occurs in [s]. *)
Fixpoint has_char (c : ascii) (s : string) : bool :=
  match s with
  | EmptyString => false
  | String x s' => bool_decide (x = c) || has_char c s'
  end.

(** A name held by the variable, function or import-alias mapping. *)
Definition issued (o : Obfuscator) (v : string) : Prop :=
  (∃ k, varMapping o !! k = Some v) ∨
  (∃ k, funcMapping o !! k = Some v) ∨
  (∃ k, importAliasMapping o !! k = Some v).

Definition is_marker (p : string) : Prop :=
  p = "l"%string ∨ p = "fn"%string ∨ p = "Fn"%string ∨ p = "V"%string.

(** A name of the shape that the counter fallback builds with counter [n]. *)
Definition counter_name (n : Z) (v : string) : Prop :=
  ∃ p s, is_marker p ∧ v = p +:+ pretty n +:+ "_" +:+ s.

(** The invariant of the naming state: no issued name has the shape of a
    fallback name with a counter above the current one.  It holds in the
    state that [New] returns and every call of [obfuscateName] keeps it. *)
Definition counters_below (o : Obfuscator) : Prop :=
  ∀ v n, issued o v -> counter_name n v -> n <= namingCounter o.

(** The mapping that a call selects has no entry for its name yet. *)
Definition unmapped (o : Obfuscator) (call : string * bool) : Prop :=
  (if call.2 then funcMapping o else varMapping o) !! call.1 = None.

(** What one fresh name does to the naming state. *)
Definition step_ok (o : Obfuscator) (name : string) (res : string * Obfuscator) : Prop :=
  ¬ issued o res.1 ∧ counters_below res.2 ∧
  (∀ v, issued res.2 v ↔ issued o v ∨ v = res.1) ∧
  (∀ call, call.1 ≠ name -> unmapped o call -> unmapped res.2 call).
(** ** junk_code.go (linker part): [isSafeToReplaceStrict] and
    [replaceBytesStrict] *)

Definition isSafeToReplaceStrict (data : bytes) (pos length_ : nat) : bool :=
  if negb (isSafeToReplace data pos length_) then false
  else if (0 <? pos)%nat
     && (let prevChar := at_ data (pos - 1) in
         isLower prevChar || isUpper prevChar || isDigit prevChar
         || eqb_byte prevChar "_")
  then false
  else if (pos + length_ <? length data)%nat
     && (let nextChar := at_ data (pos + length_) in
         isLower nextChar || isUpper nextChar || isDigit nextChar
         || eqb_byte nextChar "_")
  then false
  else true.

(** [for i := 0; i < len(data)-len(pattern); i++], where a replacement also
    advances [i] by [len(pattern) - 1]; [fuel] bounds the iterations. *)
Fixpoint replaceBytesStrict_loop
    (fuel i : nat) (data pattern replacement : bytes) (log : list PathWrite)
  : bytes * list PathWrite :=
  match fuel with
  | O => (data, log)
  | S fuel' =>
      if Z.of_nat i <? Z.of_nat (length data) - Z.of_nat (length pattern) then
        if bytes_Equal (slice data i (i + length pattern)) pattern then
          if negb (isSafeToReplaceStrict data i (length pattern)) then
            replaceBytesStrict_loop fuel' (S i) data pattern replacement log
          else
            replaceBytesStrict_loop fuel' (S (i + (length pattern - 1)))
              (patch_padded data i pattern replacement) pattern replacement
              (log ++ [{| pw_pos := i; pw_before := data;
                          pw_pattern := pattern;
                          pw_replacement := replacement |}])
        else replaceBytesStrict_loop fuel' (S i) data pattern replacement log
      else (data, log)
  end.

(** The buffer after the call and the replacements made; the returned
    [count] is the length of the log. *)
Definition replaceBytesStrict (data pattern replacement : bytes)
  : bytes * list PathWrite :=
  if (length pattern <? length replacement)%nat then (data, [])
  else if (length pattern <? 10)%nat then (data, [])
  else replaceBytesStrict_loop (length data) 0 data pattern replacement [].

(** ** [generateShortName] and [generateReplacements] of the linker
    obfuscator *)

Module LinkerObfuscator.

(** [rune(x)] for an [int] [x]: its low 32 bits, read as a signed number.
    A sum that overflows [int] has the same low 32 bits as the exact one. *)
Definition rune (x : Z) : Z := (x + 2 ^ 31) mod 2 ^ 32 - 2 ^ 31.

(** [string(r)] for a rune: its UTF-8 encoding, and the encoding of U+FFFD
    for a value that is no code point. *)
Definition utf8 (r : Z) : bytes :=
  if (r <? 0) || (0x10FFFF <? r) || ((0xD800 <=? r) && (r <=? 0xDFFF)) then
    [byte_of 0xEF; byte_of 0xBF; byte_of 0xBD]
  else if r <? 0x80 then [byte_of r]
  else if r <? 0x800 then
    [byte_of (Z.lor 0xC0 (Z.shiftr r 6));
     byte_of (Z.lor 0x80 (Z.land r 0x3F))]
  else if r <? 0x10000 then
    [byte_of (Z.lor 0xE0 (Z.shiftr r 12));
     byte_of (Z.lor 0x80 (Z.land (Z.shiftr r 6) 0x3F));
     byte_of (Z.lor 0x80 (Z.land r 0x3F))]
  else
    [byte_of (Z.lor 0xF0 (Z.shiftr r 18));
     byte_of (Z.lor 0x80 (Z.land (Z.shiftr r 12) 0x3F));
     byte_of (Z.lor 0x80 (Z.land (Z.shiftr r 6) 0x3F));
     byte_of (Z.lor 0x80 (Z.land r 0x3F))].

Definition string_of_rune (r : Z) : string := string_of_list_ascii (utf8 r).

(** Go's [/] and [%] truncate towards zero. *)
Definition generateShortName (index : Z) : string :=
  if index <? 26 then string_of_rune (rune (u8 "a" + index))
  else
    let first := Z.quot index 26 - 1 in
    let second := Z.rem index 26 in
    string_of_rune (rune (u8 "a" + first)) +:+ string_of_rune (rune (u8 "a" + second)).

(** [for _, pkg := range packages { replacements[pkg] = ..; counter++ }] *)
Fixpoint generateReplacements_loop
    (packages : list string) (counter : Z) (replacements : gmap string string)
  : gmap string string :=
  match packages with
  | [] => replacements
  | pkg :: rest =>
      let replacement := generateShortName counter in
      generateReplacements_loop rest (counter + 1) (<[pkg := replacement]> replacements)
  end.

Definition generateReplacements (packages : list string) : gmap string string :=
  generateReplacements_loop packages 0 ∅.

End LinkerObfuscator.

(** ** [discoverProjectPackages]: the sort by length *)

(** [result[i], result[j] = result[j], result[i]] for indices in range. *)
Definition swap (result : list string) (i j : nat) : list string :=
  <[i := item result (Z.of_nat j)]> (<[j := item result (Z.of_nat i)]> result).

(** [for j := i + 1; j < len(result); j++ { if len(result[j]) > len(result[i]) { swap } }];
    [n] counts the iterations left. *)
Fixpoint sort_inner (n i j : nat) (result : list string) : list string :=
  match n with
  | O => result
  | S n' =>
      sort_inner n' i (S j)
        (if len (item result (Z.of_nat i)) <? len (item result (Z.of_nat j))
         then swap result i j else result)
  end.

(** [for i := 0; i < len(result); i++ { .. }] *)
Fixpoint sort_outer (n i : nat) (result : list string) : list string :=
  match n with
  | O => result
  | S n' => sort_outer n' (S i) (sort_inner (length result - (i + 1)) i (i + 1) result)
  end.

(** The slice that [discoverProjectPackages] returns for the packages that
    [range packages] yields in the order [result]. *)
Definition discoverProjectPackages_sort (result : list string) : list string :=
  sort_outer (length result) 0 result.

(** ** Vocabulary of the statements about the linker *)

(** [sub] occurs in [s] as a run of consecutive bytes. *)
Definition occurs_in (sub s : bytes) : Prop := ∃ pre post, s = pre ++ sub ++ post.

(** [s] starts with [sub]. *)
Definition starts_with (sub s : bytes) : Prop := ∃ post, s = sub ++ post.

(** The up to 100 bytes before and the up to 50 bytes after a match. *)
Definition contextBefore (data : bytes) (pos : nat) : bytes :=
  slice data (pos - 100) pos.

Definition contextAfter (data : bytes) (pos length_ : nat) : bytes :=
  slice data (pos + length_) (Nat.min (pos + length_ + 50) (length data)).

Definition word_byte (c : byte) : bool :=
  isLower c || isUpper c || isDigit c || eqb_byte c "_".

(** What [replaceBytesStrict_loop] checks before it replaces an
    occurrence. *)
Definition strict_guard (w : PathWrite) : Prop :=
  slice (pw_before w) (pw_pos w) (pw_pos w + length (pw_pattern w)) = pw_pattern w ∧
  (pw_pos w + length (pw_pattern w) < length (pw_before w))%nat ∧
  isSafeToReplace (pw_before w) (pw_pos w) (length (pw_pattern w)) = true ∧
  ((0 < pw_pos w)%nat -> word_byte (at_ (pw_before w) (pw_pos w - 1)) = false) ∧
  word_byte (at_ (pw_before w) (pw_pos w + length (pw_pattern w))) = false.

Fixpoint strict_trace (data : bytes) (log : list PathWrite) (data' : bytes) : Prop :=
  match log with
  | [] => data' = data
  | w :: log' =>
      pw_before w = data ∧ strict_guard w ∧ strict_trace (path_result w) log' data'
  end.

(** A list of strings whose lengths never grow from left to right. *)
Definition longest_first (l : list string) : Prop :=
  ∀ i j a b, (i < j)%nat -> l !! i = Some a -> l !! j = Some b -> len b <= len a.

(** The lower-case letters. *)
Definition lower_string (s : string) : Prop :=
  Forall (fun c => isLower c = true) (list_ascii_of_string s).

(** What every per-format function keeps: the size of the buffer, and the
    buffer itself unless it reports a modification without an error. *)
Definition kept (cfg : LinkConfig) (data : bytes) (res : bytes * bool * option error) : Prop :=
  length res.1.1 = length data ∧
  (res.1.2 = false -> res.1.1 = data) ∧
  (res.1.2 = true -> res.2 = None ∧ DisablePclntab cfg = false
                     ∧ RemoveFuncNames cfg = true).

(** The outcomes of [postProcessBinary]: nothing is written; the backup
    fails after its file was opened; the backup is written and the binary
    cannot be opened, or its write fails after [n] bytes, or it is written. *)
Inductive outcome (outputBin : string) (fs : FS) (data : bytes) (cfg : LinkConfig)
  : option error * FS -> Prop :=
| out_same e : outcome outputBin fs data cfg (e, fs)
| out_backup_partial n :
    DisablePclntab cfg = false -> RemoveFuncNames cfg = true ->
    faults fs !! (outputBin +:+ ".backup") = Some (WriteFails n) ->
    outcome outputBin fs data cfg
      (Some ErrBackup,
       {| files := <[outputBin +:+ ".backup" := take n data]> (files fs);
          faults := faults fs |})
| out_backup_only :
    DisablePclntab cfg = false -> RemoveFuncNames cfg = true ->
    faults fs !! outputBin = Some OpenFails ->
    outcome outputBin fs data cfg
      (Some ErrWrite,
       {| files := <[outputBin +:+ ".backup" := data]> (files fs);
          faults := faults fs |})
| out_partial n newData :
    DisablePclntab cfg = false -> RemoveFuncNames cfg = true ->
    length newData = length data ->
    faults fs !! outputBin = Some (WriteFails n) ->
    outcome outputBin fs data cfg
      (Some ErrWrite,
       {| files := <[outputBin := take n newData]>
                     (<[outputBin +:+ ".backup" := data]> (files fs));
          faults := faults fs |})
| out_patched newData :
    DisablePclntab cfg = false -> RemoveFuncNames cfg = true ->
    length newData = length data ->
    outcome outputBin fs data cfg
      (None,
       {| files := <[outputBin := newData]>
                     (<[outputBin +:+ ".backup" := data]> (files fs));
          faults := faults fs |}).

(** A configuration that forbids every change of the pclntab. *)
Definition no_pclntab_LinkConfig : LinkConfig := {|
  RemoveFuncNames := true;
  EntryPackage := ".";
  PackageReplacements := [];
  AutoDiscoverPackages := false;
  ObfuscateThirdParty := false;
  OnlyObfuscateProject := false;
  DisablePclntab := true
|}.

(** [len(result[k])] *)
Definition length_at (result : list string) (k : nat) : Z :=
  len (item result (Z.of_nat k)).

(** A pattern of the prefix pass that stands for a package outside the
    listed standard library: it ends in a dot, and the name before the dot
    is not marked in [standardLibs]. *)
Definition project_pattern (p : string) : Prop :=
  HasSuffix_dot p = true ∧ lookup_bool standardLibs (TrimSuffix_dot p) = false.

(** The default configuration in the minimal mode. *)
Definition only_project_LinkConfig : LinkConfig := {|
  RemoveFuncNames := true;
  EntryPackage := ".";
  PackageReplacements := [];
  AutoDiscoverPackages := false;
  ObfuscateThirdParty := false;
  OnlyObfuscateProject := true;
  DisablePclntab := false
|}.
(** ** Vocabulary of the statements about names *)

(** A generator with the word lists that [NewNaturalNameGenerator] sets;
    no method changes them. *)
Definition standard_words (g : NaturalNameGenerator) : Prop :=
  pkgPrefixes g = pkgPrefixes NewNaturalNameGenerator ∧
  pkgSuffixes g = pkgSuffixes NewNaturalNameGenerator ∧
  pkgMiddles g = pkgMiddles NewNaturalNameGenerator.

(** The names that [n] attempts of [GeneratePackageName] draw from the random
    source [r], one after the other, with the source they leave. *)
Fixpoint attempts (n : nat) (g : NaturalNameGenerator) (length : Z) (hasDot : bool)
    (r : Rand) : list string * Rand :=
  match n with
  | O => ([], r)
  | S n' =>
      let '(name, r) := generateName g length r in
      let name := if hasDot then name +:+ "." else name in
      let '(names, r) := attempts n' g length hasDot r in
      (name :: names, r)
  end.

(** The name at index [i] of [names] is not marked as used, and every name
    before it is. *)
Definition first_unused (g : NaturalNameGenerator) (names : list string) (i : nat)
    (name : string) : Prop :=
  names !! i = Some name ∧ lookup_bool (usedNames g) name = false ∧
  ∀ j other, (j < i)%nat -> names !! j = Some other ->
             lookup_bool (usedNames g) other = true.

(** The dot that [GeneratePackageName] puts back. *)
Definition dot_of (hasDot : bool) : string := if hasDot then "." else "".

(** Letters and digits. *)
Definition alnum (c : byte) : bool := isLower c || isUpper c || isDigit c.

Definition alnum_string (s : string) : Prop :=
  Forall (fun c => alnum c = true) (list_ascii_of_string s).

(** The reserved names and the builtin identifiers of [shouldProtect]. *)
Definition special_names : list string := [ "_"; "main"; "init" ]%string.

Definition builtin_identifiers : list string :=
  builtin_types ++ builtin_functions ++ builtin_constants.

(** The upper-case letters among the code points below U+0100 (Unicode
    class Lu): [A] to [Z], U+00C0 to U+00D6 and U+00D8 to U+00DE.  Go exports
    an identifier when its first character is an upper-case letter. *)
Definition upper_latin1 (r : Z) : bool :=
  ((0x41 <=? r) && (r <=? 0x5A)) || ((0xC0 <=? r) && (r <=? 0xD6))
  || ((0xD8 <=? r) && (r <=? 0xDE)).

(** An identifier that begins with the upper-case letter U+00DC, U with
    diaeresis, whose UTF-8 encoding is the bytes [0xC3 0x9C]. *)
Definition Unit_with_diaeresis : string :=
  LinkerObfuscator.string_of_rune 0xDC +:+ "nit".

(** The first byte of a name is an ASCII character. *)
Definition ascii_initial (name : string) : Prop :=
  match name with
  | EmptyString => False
  | String c _ => u8 c < 0x80
  end.

(** The mapping that [isFunc] selects. *)
Definition mapping_of (o : Obfuscator) (isFunc : bool) : gmap string string :=
  if isFunc then funcMapping o else varMapping o.

(** The word lists of the generator hold lower-case words. *)
Definition lower_words (g : NaturalNameGenerator) : Prop :=
  Forall lower_string (pkgPrefixes g) ∧ Forall lower_string (pkgSuffixes g) ∧
  Forall lower_string (pkgMiddles g).

(** ** Package [strings]

    [strings.HasPrefix], [strings.HasSuffix], [strings.TrimSuffix] and
    [strings.IndexByte] on the bytes of a string, as the Go library defines
    them by slicing. *)

Definition bytes_of_string (s : string) : bytes := list_ascii_of_string s.

(** [len(s) >= len(prefix) && s[:len(prefix)] == prefix] *)
Definition HasPrefix (s prefix : string) : bool :=
  (String.length prefix <=? String.length s)%nat
  && bool_decide (take (String.length prefix) (bytes_of_string s) = bytes_of_string prefix).

(** [len(s) >= len(suffix) && s[len(s)-len(suffix):] == suffix] *)
Definition HasSuffix (s suffix : string) : bool :=
  (String.length suffix <=? String.length s)%nat
  && bool_decide (drop (String.length s - String.length suffix) (bytes_of_string s)
                  = bytes_of_string suffix).

(** [if HasSuffix(s, suffix) { return s[:len(s)-len(suffix)] }; return s] *)
Definition TrimSuffix (s suffix : string) : string :=
  if HasSuffix s suffix then
    string_of_list_ascii
      (take (String.length s - String.length suffix) (bytes_of_string s))
  else s.




(** ** part_004: [isStandardLibrary] *)


(** ** part_002: [obfuscateFileName]

    The function reads and writes [o.fileNameMapping] only; the model takes
    the mapping and returns it. *)

Definition platformSuffixes : list string :=
  [ "_linux"; "_windows"; "_darwin"; "_freebsd"; "_openbsd"; "_netbsd";
    "_dragonfly"; "_solaris"; "_plan9"; "_aix"; "_android"; "_ios";
    "_js"; "_wasm"; "_unix"; "_other";
    "_amd64"; "_386"; "_arm"; "_arm64"; "_ppc64"; "_ppc64le";
    "_mips"; "_mipsle"; "_mips64"; "_mips64le"; "_s390x"; "_riscv64" ]%string.

(** [for _, ps := range platformSuffixes { if HasSuffix(..) { suffix = ps; break } }] *)
Definition platformSuffix (fileName : string) : string :=
  if HasSuffix fileName ".go" then
    let nameWithoutExt := TrimSuffix fileName ".go" in
    default EmptyString (List.find (HasSuffix nameWithoutExt) platformSuffixes)
  else EmptyString.

(** [for attempt := 0; attempt < maxAttempts; attempt++ { .. }] followed by
    the fallback on [len(o.fileNameMapping)]; [n] is
    [maxAttempts - attempt]. *)
Fixpoint obfuscateFileName_loop
    (n : nat) (fileNameMapping : gmap string string) (fileName suffix : string)
  : R (string * gmap string string) :=
  match n with
  | O =>
      let count := Z.of_nat (size fileNameMapping) in
      randomPart ← generateRandomString 6;
      let obfuscatedName :=
        if bool_decide (suffix ≠ EmptyString)
        then "f" +:+ pretty count +:+ "_" +:+ randomPart +:+ suffix +:+ ".go"
        else "f" +:+ pretty count +:+ "_" +:+ randomPart +:+ ".go" in
      mret (obfuscatedName, <[fileName := obfuscatedName]> fileNameMapping)
  | S n' =>
      randomPart ← generateRandomString 10;
      let obfuscatedName :=
        if bool_decide (suffix ≠ EmptyString)
        then "f" +:+ randomPart +:+ suffix +:+ ".go"
        else "f" +:+ randomPart +:+ ".go" in
      if negb (value_in fileNameMapping obfuscatedName) then
        mret (obfuscatedName, <[fileName := obfuscatedName]> fileNameMapping)
      else obfuscateFileName_loop n' fileNameMapping fileName suffix
  end.

(** The file names that are never renamed. *)
Definition keepsFileName (fileName : string) : bool :=
  bool_decide (fileName = "main.go"%string) || bool_decide (fileName = "go.mod"%string)
  || bool_decide (fileName = "go.sum"%string)
  || (HasPrefix fileName "main_" && HasSuffix fileName ".go").

Definition obfuscateFileName (fileNameMapping : gmap string string) (fileName : string)
  : R (string * gmap string string) :=
  if bool_decide (fileName = "main.go"%string) || bool_decide (fileName = "go.mod"%string)
     || bool_decide (fileName = "go.sum"%string) then mret (fileName, fileNameMapping)
  else if HasPrefix fileName "main_" && HasSuffix fileName ".go" then
    mret (fileName, fileNameMapping)
  else
    match fileNameMapping !! fileName with
    | Some obfuscated => mret (obfuscated, fileNameMapping)
    | None =>
        obfuscateFileName_loop 100 fileNameMapping fileName (platformSuffix fileName)
    end.

(** A sequence of calls, each on the mapping the previous one left. *)
Fixpoint obfuscateFileNames (fileNameMapping : gmap string string) (fileNames : list string)
  : R (list string * gmap string string) :=
  match fileNames with
  | [] => mret ([], fileNameMapping)
  | fileName :: rest =>
      '(obf, m) ← obfuscateFileName fileNameMapping fileName;
      '(names, m) ← obfuscateFileNames m rest;
      mret (obf :: names, m)
  end.

(** [s] ends with the bytes of [suffix]. *)
Definition ends_with (s suffix : string) : Prop := ∃ stem, s = stem +:+ suffix.

(** No platform suffix is the end of another one. *)
Definition suffixes_apart (l : list string) : bool :=
  forallb (fun a => forallb (fun b => implb (HasSuffix a b) (bool_decide (a = b))) l) l.

(** A name of the shape that the fallback of [obfuscateFileName] builds
    with counter [n]. *)
Definition file_counter_name (n : Z) (v : string) : Prop :=
  ∃ rest, v = "f" +:+ pretty n +:+ "_" +:+ rest.

(** The invariant of the file-name mapping: no two files share a name, no
    name is one of the names that are kept, and a name of the fallback
    shape carries a counter below the number of entries. *)
Definition file_names_ok (m : gmap string string) : Prop :=
  (∀ k1 k2 v, m !! k1 = Some v -> m !! k2 = Some v -> k1 = k2) ∧
  (∀ k v, m !! k = Some v -> keepsFileName v = false) ∧
  (∀ k v n, m !! k = Some v -> file_counter_name n v ->
            0 <= n < 10 ^ 9 -> n < Z.of_nat (size m)).
(** ** part_004: scopes

    A [*Scope] is the address of a scope, its index in the list of the
    scopes allocated so far; [None] is the nil pointer.  An [ast.Node] is
    known by an identity and its two positions. *)

Inductive ObjectKind :=
| ObjUnknown | ObjPackage | ObjConst | ObjVar | ObjFunc
| ObjType | ObjLabel | ObjField | ObjMethod.

Record Node := { node_id : nat; node_Pos : Z; node_End : Z }.

(** The fields of [Object] that the modelled functions read or write. *)
Record Object := {
  obj_Name : string;
  obj_Kind : ObjectKind;
  obj_Decl : option nat;
  obj_Scope : option nat;
  obj_IsExported : bool;
  obj_Pos : Z
}.

Record Scope := {
  Parent : option nat;
  Children : list nat;
  Objects : gmap string Object;
  scope_Node : option nat;
  Start : Z;
  End_ : Z
}.

Record ScopeAnalyzer := {
  heap : list Scope;
  currentScope : option nat;
  fileScope : option nat;
  packageScope : option nat;
  scopes : gmap (option nat) nat;
  objects : gmap Z Object
}.

Definition NewScopeAnalyzer : ScopeAnalyzer := {|
  heap := [ {| Parent := None; Children := []; Objects := ∅; scope_Node := None;
               Start := 0; End_ := 0 |} ];
  currentScope := Some 0%nat;
  fileScope := None;
  packageScope := Some 0%nat;
  scopes := ∅;
  objects := ∅
|}.

(** [s.Children = append(s.Children, child)] on the scope at [l]. *)
Definition add_child (heap : list Scope) (l child : nat) : list Scope :=
  match heap !! l with
  | Some s =>
      <[l := {| Parent := Parent s; Children := Children s ++ [child];
                Objects := Objects s; scope_Node := scope_Node s;
                Start := Start s; End_ := End_ s |}]> heap
  | None => heap
  end.

(** [newScope]: the address of the new scope and the analyzer afterwards. *)
Definition newScope (sa : ScopeAnalyzer) (node : option Node) : nat * ScopeAnalyzer :=
  let scope := {|
    Parent := currentScope sa;
    Children := [];
    Objects := ∅;
    scope_Node := node_id <$> node;
    Start := match node with Some n => node_Pos n | None => 0 end;
    End_ := match node with Some n => node_End n | None => 0 end
  |} in
  let l := length (heap sa) in
  let heap1 := heap sa ++ [scope] in
  let heap2 := match currentScope sa with
               | Some c => add_child heap1 c l
               | None => heap1
               end in
  (l, {| heap := heap2;
         currentScope := currentScope sa;
         fileScope := fileScope sa;
         packageScope := packageScope sa;
         scopes := <[node_id <$> node := l]> (scopes sa);
         objects := objects sa |}).

Definition set_currentScope (sa : ScopeAnalyzer) (scope : option nat) : ScopeAnalyzer :=
  {| heap := heap sa; currentScope := scope; fileScope := fileScope sa;
     packageScope := packageScope sa; scopes := scopes sa; objects := objects sa |}.

Definition enterScope (sa : ScopeAnalyzer) (node : option Node) : nat * ScopeAnalyzer :=
  let '(scope, sa) := newScope sa node in
  (scope, set_currentScope sa (Some scope)).

(** The first two statements of [Analyze]:
    [sa.fileScope = sa.newScope(file); sa.currentScope = sa.fileScope]. *)
Definition enterFile (sa : ScopeAnalyzer) (file : Node) : ScopeAnalyzer :=
  let '(scope, sa) := newScope sa (Some file) in
  {| heap := heap sa; currentScope := Some scope; fileScope := Some scope;
     packageScope := packageScope sa; scopes := scopes sa; objects := objects sa |}.

(** [leaveScope]; [None] is the panic on a nil [currentScope]. *)
Definition leaveScope (sa : ScopeAnalyzer) : option ScopeAnalyzer :=
  c ← currentScope sa;
  s ← heap sa !! c;
  match Parent s with
  | Some p => Some (set_currentScope sa (Some p))
  | None => Some sa
  end.

(** [declareObject]; [None] is the panic on a nil [currentScope]. *)
Definition declareObject
    (sa : ScopeAnalyzer) (name : string) (kind : ObjectKind)
    (decl : option Node) (pos : Z) : option (Object * ScopeAnalyzer) :=
  let obj := {|
    obj_Name := name; obj_Kind := kind; obj_Decl := node_id <$> decl;
    obj_Scope := currentScope sa; obj_IsExported := isExported name;
    obj_Pos := pos
  |} in
  c ← currentScope sa;
  s ← heap sa !! c;
  Some (obj,
        {| heap := <[c := {| Parent := Parent s; Children := Children s;
                            Objects := <[name := obj]> (Objects s);
                            scope_Node := scope_Node s;
                            Start := Start s; End_ := End_ s |}]> (heap sa);
           currentScope := currentScope sa;
           fileScope := fileScope sa;
           packageScope := packageScope sa;
           scopes := scopes sa;
           objects := <[pos := obj]> (objects sa) |}).

(** [for scope := s; scope != nil; scope = scope.Parent]; [fuel] bounds the
    steps along the parents. *)
Fixpoint LookupObject_from
    (fuel : nat) (heap : list Scope) (scope : option nat) (name : string)
  : option Object :=
  match fuel with
  | O => None
  | S fuel' =>
      l ← scope;
      s ← heap !! l;
      match Objects s !! name with
      | Some obj => Some obj
      | None => LookupObject_from fuel' heap (Parent s) name
      end
  end.

(** [s.LookupObject(name)] for the scope at [s]; a parent has a smaller
    address than its child, so [s + 1] steps reach the end of the chain. *)
Definition LookupObject (sa : ScopeAnalyzer) (s : nat) (name : string) : option Object :=
  LookupObject_from (S s) (heap sa) (Some s) name.

Definition contains (s : Scope) (pos : Z) : bool := (Start s <=? pos) && (pos <=? End_ s).

(** [for _, child := range scope.Children { .. }; return scope], with the
    recursive call as [rec]. *)
Fixpoint getScopeAtInTree_children
    (rec : nat -> option nat) (heap : list Scope) (pos : Z) (scope : nat)
    (l : list nat) : option nat :=
  match l with
  | [] => Some scope
  | child :: rest =>
      match heap !! child with
      | Some c =>
          if contains c pos then
            match rec child with
            | Some result => Some result
            | None => getScopeAtInTree_children rec heap pos scope rest
            end
          else getScopeAtInTree_children rec heap pos scope rest
      | None => getScopeAtInTree_children rec heap pos scope rest
      end
  end.

(** [getScopeAtInTree]; [fuel] bounds the depth of the recursion. *)
Fixpoint getScopeAtInTree_fuel
    (fuel : nat) (heap : list Scope) (scope : nat) (pos : Z) : option nat :=
  match fuel with
  | O => None
  | S fuel' =>
      s ← heap !! scope;
      if (pos <? Start s) || (End_ s <? pos) then None
      else
        getScopeAtInTree_children
          (fun child => getScopeAtInTree_fuel fuel' heap child pos)
          heap pos scope (Children s)
  end.

(** A child has a larger address than its parent, so the depth is below the
    number of scopes. *)
Definition getScopeAtInTree (sa : ScopeAnalyzer) (scope : nat) (pos : Z) : option nat :=
  getScopeAtInTree_fuel (length (heap sa)) (heap sa) scope pos.

(** The operations that the analysis of a file performs on the analyzer. *)
Inductive ScopeOp :=
| OpFile (file : Node)
| OpEnter (node : option Node)
| OpLeave
| OpDeclare (name : string) (kind : ObjectKind) (decl : option Node) (pos : Z).

Definition scope_step (sa : ScopeAnalyzer) (op : ScopeOp) : option ScopeAnalyzer :=
  match op with
  | OpFile file => Some (enterFile sa file)
  | OpEnter node => Some (enterScope sa node).2
  | OpLeave => leaveScope sa
  | OpDeclare name kind decl pos => snd <$> declareObject sa name kind decl pos
  end.

Fixpoint scope_run (sa : ScopeAnalyzer) (ops : list ScopeOp) : option ScopeAnalyzer :=
  match ops with
  | [] => Some sa
  | op :: rest => sa' ← scope_step sa op; scope_run sa' rest
  end.

(** The shape of the scopes: a parent has a smaller address than its child,
    a child a larger one than its parent, and the current scope exists. *)
Definition scopes_ok (sa : ScopeAnalyzer) : Prop :=
  (∀ l s, heap sa !! l = Some s ->
     (∀ p, Parent s = Some p -> (p < l)%nat) ∧
     (∀ c, c ∈ Children s -> (l < c < length (heap sa))%nat)) ∧
  (∃ c, currentScope sa = Some c ∧ (c < length (heap sa))%nat).

(** A scope at [r] that contains [pos] while none of its children does. *)
Definition innermost_at (sa : ScopeAnalyzer) (r : nat) (pos : Z) : Prop :=
  ∃ s, heap sa !! r = Some s ∧ contains s pos = true ∧
       ∀ c sc, c ∈ Children s -> heap sa !! c = Some sc -> contains sc pos = false.

(** Two nested blocks in a file: the scopes after the analysis has entered
    the file at [1..100], a block at [10..50] and a block at [20..30], and
    has left all three. *)
Definition nested_blocks : list ScopeOp :=
  [ OpFile {| node_id := 1; node_Pos := 1; node_End := 100 |};
    OpDeclare "x" ObjVar None 5;
    OpEnter (Some {| node_id := 2; node_Pos := 10; node_End := 50 |});
    OpEnter (Some {| node_id := 3; node_Pos := 20; node_End := 30 |});
    OpDeclare "x" ObjVar None 21;
    OpLeave; OpLeave; OpLeave; OpLeave ].

Definition nested_scopes : ScopeAnalyzer :=
  default NewScopeAnalyzer (scope_run NewScopeAnalyzer nested_blocks).
(** ** string_encryption.go: [ensureBase64Import]

    The parts of [go/ast] that the function reads and writes: the import
    specs of a file with their optional name and path literal, and the
    declarations, of which only the general declarations with their token
    and specs matter. *)















(** ** part_002: [generateUniqueObfuscatedNameForObject] *)












(** * Properties *)

(** ** Elementary facts on bytes *)

Lemma u8_range (b : byte) : 0 <= u8 b < 256.
Proof.
  unfold u8. pose proof (N_ascii_bounded b). lia.
Qed.

Lemma lor_shiftl_add (a b n : Z) :
  0 <= n -> 0 <= a < 2 ^ n -> Z.lor a (Z.shiftl b n) = a + b * 2 ^ n.
Proof.
  intros Hn Ha.
  assert (Hland : Z.land a (Z.shiftl b n) = 0).
  { apply Z.bits_inj'. intros k Hk. rewrite Z.land_spec, Z.bits_0.
    destruct (Z.ltb_spec k n).
    - rewrite Z.shiftl_spec_low by lia. apply andb_false_r.
    - destruct (Z.eq_dec a 0) as [->|Hne].
      + rewrite Z.bits_0. reflexivity.
      + rewrite (Z.bits_above_log2 a k); [reflexivity | lia |].
        assert (Z.log2 a < n) by (apply Z.log2_lt_pow2; lia). lia. }
  rewrite <- Z.lxor_lor by exact Hland.
  rewrite <- Z.add_nocarry_lxor by exact Hland.
  rewrite Z.shiftl_mul_pow2 by lia. reflexivity.
Qed.

Lemma Uint32_le32 (b0 b1 b2 b3 : byte) :
  Uint32 [b0; b1; b2; b3] = le32 b0 b1 b2 b3.
Proof.
  unfold Uint32, le32, at_. cbn [nth].
  pose proof (u8_range b0). pose proof (u8_range b1).
  pose proof (u8_range b2). pose proof (u8_range b3).
  rewrite (lor_shiftl_add (u8 b0) (u8 b1) 8) by lia.
  rewrite (lor_shiftl_add _ (u8 b2) 16) by lia.
  rewrite (lor_shiftl_add _ (u8 b3) 24) by lia.
  lia.
Qed.

Lemma isMagic_spec (v : Z) :
  isMagic v = true ↔
  v = 0xfffffffb ∨ v = 0xfffffffa ∨ v = 0xfffffff0 ∨ v = 0xfffffff1.
Proof.
  unfold isMagic, magics, go12magic, go116magic, go118magic, go120magic.
  cbn [existsb]. rewrite !orb_true_iff, !Z.eqb_eq.
  split; [intros [?|[?|[?|[?|?]]]]; auto; discriminate | intros [?|[?|[?|?]]]; auto].
Qed.

Lemma slice4_lookup (data : bytes) (i : nat) :
  (i + 4 <= length data)%nat ->
  ∃ b0 b1 b2 b3,
    data !! i = Some b0 ∧ data !! (i + 1)%nat = Some b1 ∧
    data !! (i + 2)%nat = Some b2 ∧ data !! (i + 3)%nat = Some b3 ∧
    slice data i (i + 4) = [b0; b1; b2; b3].
Proof.
  intros Hlen. unfold slice.
  replace (i + 4 - i)%nat with 4%nat by lia.
  destruct (lookup_lt_is_Some_2 data i) as [b0 E0]; [lia|].
  destruct (lookup_lt_is_Some_2 data (i + 1)) as [b1 E1]; [lia|].
  destruct (lookup_lt_is_Some_2 data (i + 2)) as [b2 E2]; [lia|].
  destruct (lookup_lt_is_Some_2 data (i + 3)) as [b3 E3]; [lia|].
  exists b0, b1, b2, b3. repeat split; try assumption.
  assert (D0 : drop i data !! 0%nat = Some b0).
  { rewrite lookup_drop. replace (i + 0)%nat with i by lia. exact E0. }
  assert (D1 : drop i data !! 1%nat = Some b1) by (rewrite lookup_drop; exact E1).
  assert (D2 : drop i data !! 2%nat = Some b2) by (rewrite lookup_drop; exact E2).
  assert (D3 : drop i data !! 3%nat = Some b3) by (rewrite lookup_drop; exact E3).
  destruct (drop i data) as [|c0 [|c1 [|c2 [|c3 rest]]]];
    try discriminate.
  cbn in D0, D1, D2, D3. cbn. rewrite take_0. congruence.
Qed.

Lemma magicAt_iff (data : bytes) (i : nat) :
  (i + 4 <= length data)%nat ->
  isMagic (Uint32 (slice data i (i + 4))) = true ↔ magicAt data i.
Proof.
  intros Hlen.
  destruct (slice4_lookup data i Hlen) as (b0 & b1 & b2 & b3 & E0 & E1 & E2 & E3 & Es).
  rewrite Es, Uint32_le32, isMagic_spec. unfold magicAt. split.
  - intros H. exists b0, b1, b2, b3. auto.
  - intros (c0 & c1 & c2 & c3 & F0 & F1 & F2 & F3 & H).
    congruence.
Qed.

Lemma magicAt_in_range (data : bytes) (i : nat) :
  magicAt data i -> (i + 4 <= length data)%nat.
Proof.
  intros (b0 & b1 & b2 & b3 & _ & _ & _ & E3 & _).
  apply lookup_lt_Some in E3. lia.
Qed.

Lemma findPclntabMagic_loop_spec (data : bytes) (n i : nat) :
  (i + n + 3 <= length data)%nat ∨ n = 0%nat ->
  (findPclntabMagic_loop data i n = -1 ∧
   ∀ j, (i <= j < i + n)%nat -> ¬ magicAt data j)
  ∨ (∃ k, findPclntabMagic_loop data i n = Z.of_nat k ∧ (i <= k < i + n)%nat ∧
          magicAt data k ∧ ∀ j, (i <= j < k)%nat -> ¬ magicAt data j).
Proof.
  revert i. induction n as [|n IH]; intros i Hlen.
  - left. split; [reflexivity | intros j Hj; lia].
  - cbn [findPclntabMagic_loop].
    assert (Hi : (i + 4 <= length data)%nat) by lia.
    destruct (isMagic (Uint32 (slice data i (i + 4)))) eqn:E.
    + right. exists i. split; [reflexivity|]. split; [lia|]. split.
      * apply magicAt_iff; assumption.
      * intros j Hj. lia.
    + assert (Hnot : ¬ magicAt data i).
      { intros H. apply magicAt_iff in H; [congruence | assumption]. }
      destruct (IH (S i)) as [[Hr Hall] | (k & Hr & Hk & Hm & Hmin)].
      * destruct n; [right; reflexivity | left; lia].
      * left. split; [assumption|]. intros j Hj.
        destruct (decide (j = i)) as [->|]; [assumption | apply Hall; lia].
      * right. exists k. split; [assumption|]. split; [lia|]. split; [assumption|].
        intros j Hj.
        destruct (decide (j = i)) as [->|]; [assumption | apply Hmin; lia].
Qed.

Lemma findPclntabMagic_spec (data : bytes) :
  (findPclntabMagic data = -1 ∧ ∀ j, ¬ magicAt data j)
  ∨ (∃ k, findPclntabMagic data = Z.of_nat k ∧ magicAt data k ∧
          ∀ j, (j < k)%nat -> ¬ magicAt data j).
Proof.
  unfold findPclntabMagic.
  destruct (findPclntabMagic_loop_spec data (length data - 3) 0)
    as [[Hr Hall] | (k & Hr & Hk & Hm & Hmin)].
  - destruct (length data - 3)%nat eqn:E; [right; reflexivity | left; lia].
  - left. split; [assumption|]. intros j Hj.
    pose proof (magicAt_in_range _ _ Hj). apply (Hall j); [lia | assumption].
  - right. exists k. split; [assumption|]. split; [assumption|].
    intros j Hj. apply Hmin. lia.
Qed.

(** C4. [findPclntabMagic] returns the smallest offset whose four bytes,
    read as a little-endian 32-bit integer, are one of the four supported
    magic constants, and [-1] when the input has no such offset. *)
Theorem findPclntabMagic_smallest (data : bytes) :
  (findPclntabMagic data = -1 ∧ ∀ j, ¬ magicAt data j)
  ∨ (∃ k, findPclntabMagic data = Z.of_nat k ∧ magicAt data k ∧
          ∀ j, (j < k)%nat -> ¬ magicAt data j).
Proof. exact (findPclntabMagic_spec data). Qed.

(** ** The protection classifier *)

Lemma shouldProtect_identifiers (o : Obfuscator) (name : string) :
  lookup_bool protectedIdentifiers name = true -> shouldProtect o name = true.
Proof.
  intros H. unfold shouldProtect. rewrite H.
  repeat match goal with |- context [if ?b then _ else _] => destruct b end;
    reflexivity.
Qed.

Lemma builtin_protected (name : string) :
  In name (builtin_types ++ builtin_functions ++ builtin_constants) ->
  lookup_bool protectedIdentifiers name = true.
Proof.
  intros H. cbn in H.
  repeat (destruct H as [<- | H]; [vm_compute; reflexivity |]).
  destruct H.
Qed.

(** The names that the classifier protects whatever its maps hold: ["_"],
    ["main"] and ["init"], every name of the enumerated list of builtin
    types, functions and constants, and, when export renaming is disabled,
    every name whose first byte is one of the ASCII letters [A] to [Z]. *)
Theorem shouldProtect_reserved (o : Obfuscator) :
  shouldProtect o "_" = true ∧
  shouldProtect o "main" = true ∧
  shouldProtect o "init" = true ∧
  (∀ name, In name (builtin_types ++ builtin_functions ++ builtin_constants) ->
           shouldProtect o name = true) ∧
  (ObfuscateExported (Config_ o) = false ->
   ∀ c rest, (u8 "A" <= u8 c <= u8 "Z") ->
             shouldProtect o (String c rest) = true).
Proof.
  repeat split; try reflexivity.
  - intros name H. apply shouldProtect_identifiers, builtin_protected, H.
  - intros Hcfg c rest [Hlo Hhi]. unfold shouldProtect. rewrite Hcfg.
    cbn [negb andb isExported].
    apply Z.leb_le in Hlo. apply Z.leb_le in Hhi. rewrite Hlo, Hhi.
    cbn [andb]. destruct (_ || _); reflexivity.
Qed.

Lemma protectedIdentifiers_ascii (c : byte) (rest : string) :
  lookup_bool protectedIdentifiers (String c rest) = true -> u8 c < 0x80.
Proof.
  unfold lookup_bool.
  destruct (protectedIdentifiers !! String c rest) as [b|] eqn:E; [| discriminate].
  intros _. unfold protectedIdentifiers in E.
  apply elem_of_list_to_map_2 in E. apply list_elem_of_In in E. cbn in E.
  repeat (destruct E as [E|E]; [injection E as <- _ _; vm_compute; reflexivity|]).
  destruct E.
Qed.

(** C9.  The classifier does not protect every exported name.  It tests the
    first byte of the name against the ASCII letters [A] to [Z], so a name
    that begins with any byte from 0x80 up, as every name does whose first
    letter is a non-ASCII upper-case letter, is protected only when one of
    the two maps holds it: with export renaming disabled, [shouldProtect]
    returns false for such an exported name. *)
Theorem shouldProtect_misses_non_ascii (o : Obfuscator) (c : byte) (rest : string) :
  0x80 <= u8 c ->
  lookup_bool (protectedNames o) (String c rest) = false ->
  lookup_bool (packageNames o) (String c rest) = false ->
  isExported (String c rest) = false ∧ shouldProtect o (String c rest) = false.
Proof.
  intros Hc Hp Hq.
  assert (He : isExported (String c rest) = false).
  { cbn [isExported]. apply andb_false_iff. right. apply Z.leb_gt.
    change (u8 "Z") with 90. lia. }
  split; [exact He|].
  unfold shouldProtect. rewrite He, Hp, Hq, andb_false_r.
  assert (Hi : lookup_bool protectedIdentifiers (String c rest) = false).
  { destruct (lookup_bool protectedIdentifiers (String c rest)) eqn:E; [|reflexivity].
    apply protectedIdentifiers_ascii in E. lia. }
  rewrite Hi.
  assert (Hs : bool_decide (String c rest = "_"%string)
               || bool_decide (String c rest = "main"%string)
               || bool_decide (String c rest = "init"%string) = false).
  { rewrite !orb_false_iff. repeat split; apply bool_decide_eq_false_2;
      intros E; injection E as -> _; vm_compute in Hc; apply Hc; reflexivity. }
  rewrite Hs. reflexivity.
Qed.

(** ** Base64 and the string encryption *)

Section Base64.
Import base64.

Lemma lor_disjoint (a b n : Z) :
  0 <= n -> 0 <= b < 2 ^ n -> a mod 2 ^ n = 0 -> Z.lor a b = a + b.
Proof.
  intros Hn Hb Ha.
  assert (Hpos : 0 < 2 ^ n) by (apply Z.pow_pos_nonneg; lia).
  assert (E : a = Z.shiftl (a / 2 ^ n) n).
  { rewrite Z.shiftl_mul_pow2 by lia.
    pose proof (Z.div_mod a (2 ^ n)). lia. }
  rewrite Z.lor_comm. rewrite E at 1.
  rewrite lor_shiftl_add by lia.
  pose proof (Z.div_mod a (2 ^ n)). lia.
Qed.

Lemma land_63 (x : Z) : Z.land x 0x3F = x mod 64.
Proof. change 0x3F with (Z.ones 6). rewrite Z.land_ones by lia. reflexivity. Qed.

Lemma digit_eq (val k : Z) :
  0 <= k -> digit val k = enc ((val / 2 ^ k) mod 64).
Proof.
  intros Hk. unfold digit. rewrite land_63, Z.shiftr_div_pow2 by lia.
  reflexivity.
Qed.

Lemma out_eq (val k : Z) :
  0 <= k -> out val k = byte_of ((val / 2 ^ k) mod 256).
Proof.
  intros Hk. unfold out. rewrite Z.shiftr_div_pow2 by lia. reflexivity.
Qed.

Lemma byte_of_u8 (b : byte) : byte_of (u8 b) = b.
Proof.
  unfold byte_of, u8. rewrite N2Z.id. apply ascii_N_embedding.
Qed.

(** The alphabet is a bijection between the 6-bit digits and 64
    characters, none of which is the padding or a line break. *)
Lemma enc_table (v : Z) :
  0 <= v < 64 ->
  dec (enc v) = Some v ∧ enc v ≠ padChar ∧ isNewline (enc v) = false.
Proof.
  intros Hv.
  assert (Hall : forallb (fun n =>
             let v := Z.of_nat n in
             bool_decide (dec (enc v) = Some v) &&
             negb (bool_decide (enc v = padChar)) &&
             negb (isNewline (enc v))) (seq 0 64) = true)
    by (vm_compute; reflexivity).
  rewrite forallb_forall in Hall.
  specialize (Hall (Z.to_nat v)).
  rewrite Z2Nat.id in Hall by lia.
  assert (Hin : In (Z.to_nat v) (seq 0 64)) by (apply in_seq; lia).
  apply Hall in Hin.
  apply andb_true_iff in Hin as [Hin H3].
  apply andb_true_iff in Hin as [H1 H2].
  apply bool_decide_eq_true in H1.
  apply negb_true_iff, bool_decide_eq_false in H2.
  apply negb_true_iff in H3. auto.
Qed.

Ltac pow2 :=
  change (2 ^ 18) with 262144 in *; change (2 ^ 16) with 65536 in *;
  change (2 ^ 12) with 4096 in *; change (2 ^ 8) with 256 in *;
  change (2 ^ 6) with 64 in *; change (2 ^ 0) with 1 in *.

Ltac arith := pow2; try Z.div_mod_to_equations; lia.

Lemma pack3 (x0 x1 x2 : Z) :
  0 <= x0 -> 0 <= x1 < 256 -> 0 <= x2 < 256 ->
  Z.lor (Z.lor (Z.shiftl x0 16) (Z.shiftl x1 8)) x2
  = x0 * 65536 + x1 * 256 + x2.
Proof.
  intros H0 H1 H2. rewrite !Z.shiftl_mul_pow2 by lia. pow2.
  rewrite (lor_disjoint (x0 * 65536) (x1 * 256) 16) by arith.
  rewrite (lor_disjoint _ x2 8) by arith.
  reflexivity.
Qed.

Lemma unpack4 (d0 d1 d2 d3 : Z) :
  0 <= d0 -> 0 <= d1 < 64 -> 0 <= d2 < 64 -> 0 <= d3 < 64 ->
  Z.lor (Z.lor (Z.lor (Z.shiftl d0 18) (Z.shiftl d1 12)) (Z.shiftl d2 6)) d3
  = d0 * 262144 + d1 * 4096 + d2 * 64 + d3.
Proof.
  intros H0 H1 H2 H3. rewrite !Z.shiftl_mul_pow2 by lia. pow2.
  rewrite (lor_disjoint (d0 * 262144) (d1 * 4096) 18) by arith.
  rewrite (lor_disjoint _ (d2 * 64) 12) by arith.
  rewrite (lor_disjoint _ d3 6) by arith.
  reflexivity.
Qed.

Ltac digits val :=
  pose proof (Z.mod_pos_bound (val / 2 ^ 18) 64 eq_refl);
  pose proof (Z.mod_pos_bound (val / 2 ^ 12) 64 eq_refl);
  pose proof (Z.mod_pos_bound (val / 2 ^ 6) 64 eq_refl);
  pose proof (Z.mod_pos_bound (val / 2 ^ 0) 64 eq_refl).

Lemma quantum3 (b0 b1 b2 : byte) (rest : bytes) (n : nat) :
  decode_quanta (Encode (b0 :: b1 :: b2 :: rest)) (S n)
  = tl ← decode_quanta (Encode rest) n; Some (b0 :: b1 :: b2 :: tl).
Proof.
  cbn [Encode].
  pose proof (u8_range b0). pose proof (u8_range b1). pose proof (u8_range b2).
  rewrite pack3 by lia.
  set (val := u8 b0 * 65536 + u8 b1 * 256 + u8 b2).
  rewrite !digit_eq by lia. digits val.
  destruct (enc_table ((val / 2 ^ 18) mod 64)) as (E0 & _ & _); [lia|].
  destruct (enc_table ((val / 2 ^ 12) mod 64)) as (E1 & _ & _); [lia|].
  destruct (enc_table ((val / 2 ^ 6) mod 64)) as (E2 & P2 & _); [lia|].
  destruct (enc_table ((val / 2 ^ 0) mod 64)) as (E3 & P3 & _); [lia|].
  cbn [decode_quanta]. rewrite E0, E1. cbn [mbind option_bind].
  rewrite (bool_decide_eq_false_2 _ P2), E2. cbn [mbind option_bind].
  rewrite (bool_decide_eq_false_2 _ P3), E3. cbn [mbind option_bind].
  rewrite unpack4 by lia. rewrite !out_eq by lia.
  assert (Hval : (val / 2 ^ 18) mod 64 * 262144 + (val / 2 ^ 12) mod 64 * 4096 +
                 (val / 2 ^ 6) mod 64 * 64 + (val / 2 ^ 0) mod 64 = val).
  { subst val. pow2. Z.div_mod_to_equations. lia. }
  rewrite Hval.
  assert (O0 : (val / 2 ^ 16) mod 256 = u8 b0)
    by (subst val; pow2; Z.div_mod_to_equations; lia).
  assert (O1 : (val / 2 ^ 8) mod 256 = u8 b1)
    by (subst val; pow2; Z.div_mod_to_equations; lia).
  assert (O2 : (val / 2 ^ 0) mod 256 = u8 b2)
    by (subst val; pow2; Z.div_mod_to_equations; lia).
  rewrite O0, O1, O2, !byte_of_u8. reflexivity.
Qed.

Lemma quantum2 (b0 b1 : byte) (n : nat) :
  decode_quanta (Encode [b0; b1]) (S n) = Some [b0; b1].
Proof.
  cbn [Encode].
  pose proof (u8_range b0). pose proof (u8_range b1).
  replace (Z.lor (Z.shiftl (u8 b0) 16) (Z.shiftl (u8 b1) 8))
    with (u8 b0 * 65536 + u8 b1 * 256 + 0)
    by (rewrite <- (pack3 (u8 b0) (u8 b1) 0), Z.lor_0_r by lia; reflexivity).
  set (val := u8 b0 * 65536 + u8 b1 * 256 + 0).
  rewrite !digit_eq by lia. digits val.
  destruct (enc_table ((val / 2 ^ 18) mod 64)) as (E0 & _ & _); [lia|].
  destruct (enc_table ((val / 2 ^ 12) mod 64)) as (E1 & _ & _); [lia|].
  destruct (enc_table ((val / 2 ^ 6) mod 64)) as (E2 & P2 & _); [lia|].
  cbn [decode_quanta]. rewrite E0, E1. cbn [mbind option_bind].
  rewrite (bool_decide_eq_false_2 _ P2), E2. cbn [mbind option_bind].
  rewrite !bool_decide_eq_true_2 by reflexivity.
  replace (Z.lor (Z.lor (Z.shiftl ((val / 2 ^ 18) mod 64) 18)
                        (Z.shiftl ((val / 2 ^ 12) mod 64) 12))
                 (Z.shiftl ((val / 2 ^ 6) mod 64) 6))
    with ((val / 2 ^ 18) mod 64 * 262144 + (val / 2 ^ 12) mod 64 * 4096 +
          (val / 2 ^ 6) mod 64 * 64 + 0)
    by (rewrite <- unpack4, Z.lor_0_r by lia; reflexivity).
  rewrite !out_eq by lia.
  assert (Hval : (val / 2 ^ 18) mod 64 * 262144 + (val / 2 ^ 12) mod 64 * 4096 +
                 (val / 2 ^ 6) mod 64 * 64 + 0 = val).
  { subst val. pow2. Z.div_mod_to_equations. lia. }
  rewrite Hval.
  assert (O0 : (val / 2 ^ 16) mod 256 = u8 b0)
    by (subst val; pow2; Z.div_mod_to_equations; lia).
  assert (O1 : (val / 2 ^ 8) mod 256 = u8 b1)
    by (subst val; pow2; Z.div_mod_to_equations; lia).
  rewrite O0, O1, !byte_of_u8. reflexivity.
Qed.

Lemma quantum1 (b0 : byte) (n : nat) :
  decode_quanta (Encode [b0]) (S n) = Some [b0].
Proof.
  cbn [Encode]. pose proof (u8_range b0).
  replace (Z.shiftl (u8 b0) 16) with (u8 b0 * 65536 + 0 * 256 + 0)
    by (rewrite Z.shiftl_mul_pow2 by lia; change (2 ^ 16) with 65536; lia).
  set (val := u8 b0 * 65536 + 0 * 256 + 0).
  rewrite !digit_eq by lia. digits val.
  destruct (enc_table ((val / 2 ^ 18) mod 64)) as (E0 & _ & _); [lia|].
  destruct (enc_table ((val / 2 ^ 12) mod 64)) as (E1 & _ & _); [lia|].
  cbn [decode_quanta]. rewrite E0, E1. cbn [mbind option_bind].
  rewrite !bool_decide_eq_true_2 by reflexivity. cbn [andb].
  replace (Z.lor (Z.shiftl ((val / 2 ^ 18) mod 64) 18)
                 (Z.shiftl ((val / 2 ^ 12) mod 64) 12))
    with ((val / 2 ^ 18) mod 64 * 262144 + (val / 2 ^ 12) mod 64 * 4096 +
          0 * 64 + 0)
    by (rewrite <- unpack4, Z.shiftl_0_l, !Z.lor_0_r by lia; reflexivity).
  rewrite !out_eq by lia.
  assert (O0 : (((val / 2 ^ 18) mod 64 * 262144 + (val / 2 ^ 12) mod 64 * 4096 +
                 0 * 64 + 0) / 2 ^ 16) mod 256 = u8 b0)
    by (subst val; pow2; Z.div_mod_to_equations; lia).
  rewrite O0, byte_of_u8. reflexivity.
Qed.

Lemma decode_Encode (k : nat) :
  ∀ (src : bytes) (n : nat),
    (length src <= k)%nat -> (length src <= n)%nat ->
    decode_quanta (Encode src) n = Some src.
Proof.
  induction k as [|k IH]; intros src n Hk Hn.
  - destruct src; [| cbn in Hk; lia]. destruct n; reflexivity.
  - destruct src as [|b0 [|b1 [|b2 rest]]].
    + destruct n; reflexivity.
    + destruct n; [cbn in Hn; lia|]. apply quantum1.
    + destruct n; [cbn in Hn; lia|]. apply quantum2.
    + destruct n; [cbn in Hn; lia|]. rewrite quantum3.
      rewrite IH by (cbn in Hk, Hn; lia). reflexivity.
Qed.

Lemma Encode_length (k : nat) :
  ∀ src : bytes, (length src <= k)%nat -> (length src <= length (Encode src))%nat.
Proof.
  induction k as [|k IH]; intros src Hk.
  - destruct src; [cbn; lia | cbn in Hk; lia].
  - destruct src as [|b0 [|b1 [|b2 rest]]]; cbn [Encode length]; try lia.
    cbn in Hk. specialize (IH rest). lia.
Qed.

Lemma Encode_no_newline (k : nat) :
  ∀ src : bytes, (length src <= k)%nat ->
    Forall (fun c => isNewline c = false) (Encode src).
Proof.
  assert (Hd : ∀ val s, 0 <= s -> isNewline (digit val s) = false).
  { intros val s Hs. rewrite digit_eq by lia.
    apply enc_table. apply Z.mod_pos_bound. lia. }
  induction k as [|k IH]; intros src Hk.
  - destruct src; [constructor | cbn in Hk; lia].
  - destruct src as [|b0 [|b1 [|b2 rest]]]; cbn [Encode].
    + constructor.
    + repeat constructor; apply Hd; lia.
    + repeat constructor; apply Hd; lia.
    + repeat (constructor; [apply Hd; lia|]). apply IH. cbn in Hk. lia.
Qed.

(** Decoding inverts encoding on every byte string. *)
Lemma DecodeString_EncodeToString (src : bytes) :
  DecodeString (EncodeToString src) = Some src.
Proof.
  unfold DecodeString, EncodeToString, stripNewlines.
  rewrite list_ascii_of_string_of_list_ascii.
  assert (Hf : filter (fun c => isNewline c = false) (Encode src) = Encode src).
  { pose proof (Encode_no_newline (length src) src (le_n _)) as Hall.
    induction Hall as [|c l Hc Hl IHl]; [reflexivity|].
    rewrite filter_cons_True by exact Hc. f_equal. exact IHl. }
  rewrite Hf.
  apply (decode_Encode (length src)); [lia|].
  apply (Encode_length (length src)). lia.
Qed.

End Base64.

Lemma xor_byte_involutive (a k : byte) : xor_byte (xor_byte a k) k = a.
Proof.
  destruct a, k. cbn. rewrite !xorb_assoc, !xorb_nilpotent, !xorb_false_r.
  reflexivity.
Qed.

Lemma xor_loop_involutive (key data : bytes) (i : nat) :
  xor_loop key i (xor_loop key i data) = data.
Proof.
  revert i. induction data as [|b rest IH]; intros i; cbn [xor_loop].
  - reflexivity.
  - rewrite xor_byte_involutive, IH. reflexivity.
Qed.

Lemma xor_loop_length (key data : bytes) (i : nat) :
  length (xor_loop key i data) = length data.
Proof.
  revert i. induction data as [|b rest IH]; intros i; cbn; [|rewrite IH]; reflexivity.
Qed.

(** C3. For every string and a non-empty encryption key, decoding the
    output of [encryptString] from base64 and XORing each byte with the
    repeating key, as the generated decrypt function does, gives the string
    back. *)
Theorem encrypt_decrypt_roundtrip (o : Obfuscator) (text : string) :
  encryptionKey o ≠ EmptyString ->
  ∃ encrypted, encryptString o text = Some encrypted ∧
               decryptFunction o encrypted = Some text.
Proof.
  intros Hkey. unfold encryptString, decryptFunction.
  destruct (list_ascii_of_string (encryptionKey o)) as [|k0 key] eqn:Ek.
  { exfalso. apply Hkey.
    rewrite <- (string_of_list_ascii_of_string (encryptionKey o)), Ek.
    reflexivity. }
  eexists. split; [reflexivity|].
  rewrite DecodeString_EncodeToString.
  rewrite xor_loop_involutive, string_of_list_ascii_of_string.
  reflexivity.
Qed.

(** ** The natural name generator *)

Section NameGenerator.

Lemma post_ret {A} (a : A) (P : A -> Prop) : P a -> post (mret a) P.
Proof. intros H r. exact H. Qed.

Lemma post_bind {A B} (m : R A) (k : A -> R B) (P : A -> Prop) (Q : B -> Prop) :
  post m P -> (∀ a, P a -> post (k a) Q) -> post (m ≫= k) Q.
Proof.
  intros Hm Hk r. unfold mbind, R_bind.
  specialize (Hm r). destruct (m r) as [a r']. apply Hk. exact Hm.
Qed.

Lemma post_weaken {A} (m : R A) (P Q : A -> Prop) :
  post m P -> (∀ a, P a -> Q a) -> post m Q.
Proof. intros Hm HPQ r. apply HPQ, Hm. Qed.

Lemma len_nonneg (s : string) : 0 <= len s.
Proof. unfold len. lia. Qed.

Lemma len_app (a b : string) : len (a +:+ b) = len a + len b.
Proof.
  unfold len. induction a as [|c a IH].
  - change ("" +:+ b)%string with b. simpl. lia.
  - change (String c a +:+ b)%string with (String c (a +:+ b)). simpl. lia.
Qed.

Lemma length_substring_0 (s : string) (n : nat) :
  (n <= String.length s)%nat -> String.length (substring 0 n s) = n.
Proof.
  revert n. induction s as [|c s IH]; intros [|n] H; cbn in *; try lia.
  rewrite IH by lia. reflexivity.
Qed.

Lemma len_prefix_to (s : string) (n : Z) :
  0 <= n <= len s -> len (prefix_to s n) = n.
Proof.
  unfold len, prefix_to. intros H.
  rewrite length_substring_0 by lia. lia.
Qed.

Lemma get_lt (s : string) (n : nat) :
  (n < String.length s)%nat -> ∃ c, get n s = Some c.
Proof.
  revert n. induction s as [|c s IH]; intros [|n] H; cbn in *; try lia.
  - eauto.
  - apply IH. lia.
Qed.

Lemma len_char_at (s : string) (i : Z) :
  0 <= i < len s -> len (char_at s i) = 1.
Proof.
  unfold len, char_at. intros H.
  destruct (get_lt s (Z.to_nat i)) as [c ->]; [lia | reflexivity].
Qed.

Lemma secureRandInt_range (max : Z) :
  post (secureRandInt max) (fun v => 0 <= v ∧ (0 < max -> v < max)).
Proof.
  intros r. unfold secureRandInt.
  destruct (Z.leb_spec max 0).
  - unfold mret, R_ret. cbn [fst]. lia.
  - unfold mbind, R_bind, rand_Int, mret, R_ret. cbn [fst].
    pose proof (Z.mod_pos_bound (Z.of_nat (rnd_src r (rnd_pos r))) max).
    lia.
Qed.

Lemma letter_drawn (s : string) :
  0 < len s ->
  post (secureRandInt (len s)) (fun i => len (char_at s i) = 1).
Proof.
  intros Hs. eapply post_weaken; [apply secureRandInt_range|].
  intros i [H0 H1]. apply len_char_at. lia.
Qed.

Lemma padWithLetters_loop_len (n : nat) :
  ∀ base target,
    target - len base <= Z.of_nat n ->
    post (padWithLetters_loop n base target)
         (fun s => len s = Z.max (len base) target).
Proof.
  induction n as [|n IH]; intros base target Hn; cbn [padWithLetters_loop].
  - apply post_ret. lia.
  - destruct (Z.ltb_spec (len base) target).
    + eapply post_bind; [apply letter_drawn; reflexivity|].
      intros i Hi. cbn beta in Hi. eapply post_weaken.
      * apply IH. rewrite len_app. lia.
      * intros s Hs. cbn beta in Hs. rewrite len_app in Hs. lia.
    + apply post_ret. lia.
Qed.

Lemma padWithLetters_len (base : string) (target : Z) :
  post (padWithLetters base target) (fun s => len s = Z.max (len base) target).
Proof. apply padWithLetters_loop_len. lia. Qed.

Lemma randomLetters_loop_len (n : nat) :
  ∀ result,
    post (randomLetters_loop n result)
         (fun s => len s = len result + Z.of_nat n).
Proof.
  induction n as [|n IH]; intros result; cbn [randomLetters_loop].
  - apply post_ret. lia.
  - eapply post_bind; [apply letter_drawn; reflexivity|].
    intros i Hi. cbn beta in Hi. eapply post_weaken; [apply IH|].
    intros s Hs. cbn beta in Hs. rewrite len_app in Hs. lia.
Qed.

Lemma randomLetters_len (length : Z) :
  post (randomLetters length) (fun s => len s = Z.max 0 length).
Proof.
  eapply post_weaken; [apply randomLetters_loop_len|].
  intros s Hs. cbn beta in Hs. change (len "") with 0 in Hs. lia.
Qed.

Lemma item_filter_len (l : list string) (length i : Z) :
  0 <= i < llen (filter (fun name => len name = length) l) ->
  len (item (filter (fun name => len name = length) l) i) = length.
Proof.
  unfold llen, item. intros Hi.
  set (cands := filter (fun name => len name = length) l) in *.
  assert (Hin : nth (Z.to_nat i) cands EmptyString ∈ cands).
  { apply list_elem_of_In, nth_In. lia. }
  apply list_elem_of_filter in Hin. tauto.
Qed.

Lemma generateShortName_len (length : Z) :
  post (generateShortName length) (fun s => len s = Z.max 0 length).
Proof.
  unfold generateShortName.
  destruct (Z.ltb_spec 0 (llen (filter (fun name => len name = length) shortNames)))
    as [Hc | Hc].
  - eapply post_bind; [apply secureRandInt_range|].
    intros idx [H0 H1]. apply post_ret.
    rewrite item_filter_len by lia.
    destruct (Z.leb_spec 0 length); [lia|].
    exfalso.
    destruct (filter (fun name => len name = length) shortNames) as [|w ws] eqn:E;
      [unfold llen in Hc; cbn in Hc; lia|].
    assert (Hw : w ∈ filter (fun name => len name = length) shortNames)
      by (rewrite E; left).
    apply list_elem_of_filter in Hw. pose proof (len_nonneg w). lia.
  - apply randomLetters_len.
Qed.

Lemma first_of_length_len (l : list string) (length : Z) (w : string) :
  first_of_length l length = Some w -> len w = length.
Proof.
  unfold first_of_length. intros H. apply head_Some_elem_of in H.
  apply list_elem_of_filter in H. tauto.
Qed.

Lemma generateMediumName_len (g : NaturalNameGenerator) (length : Z) :
  post (generateMediumName g length) (fun s => len s = Z.max 0 length).
Proof.
  unfold generateMediumName.
  destruct (first_of_length (pkgPrefixes g) length) as [w|] eqn:E1.
  { apply post_ret. apply first_of_length_len in E1.
    pose proof (len_nonneg w). lia. }
  destruct (first_of_length (pkgSuffixes g) length) as [w|] eqn:E2.
  { apply post_ret. apply first_of_length_len in E2.
    pose proof (len_nonneg w). lia. }
  destruct (Z.leb_spec 4 length); [| apply randomLetters_len].
  eapply post_bind; [apply secureRandInt_range|]. intros i _.
  set (word := item (pkgPrefixes g) i).
  destruct (Z.ltb_spec length (len word)).
  { apply post_ret. rewrite len_prefix_to; lia. }
  destruct (Z.ltb_spec (len word) length); [| apply post_ret; lia].
  eapply post_bind; [apply secureRandInt_range|]. intros j _.
  set (combined := word +:+ item (pkgMiddles g) j).
  destruct (Z.leb_spec length (len combined)).
  { apply post_ret. rewrite len_prefix_to; lia. }
  eapply post_weaken; [apply padWithLetters_len|].
  intros s Hs. cbn beta in Hs. lia.
Qed.

Lemma generateLongName_len (g : NaturalNameGenerator) (length : Z) :
  0 <= length ->
  post (generateLongName g length) (fun s => len s = length).
Proof.
  intros Hl. unfold generateLongName.
  eapply post_bind; [apply secureRandInt_range|]. intros i _.
  eapply post_bind; [apply secureRandInt_range|]. intros j _.
  set (prefix := item (pkgPrefixes g) i).
  set (suffix := item (pkgSuffixes g) j).
  destruct (Z.ltb_spec length (len (prefix +:+ suffix))).
  { apply post_ret. rewrite len_prefix_to; lia. }
  destruct (Z.ltb_spec (len (prefix +:+ suffix)) length); [| apply post_ret; lia].
  eapply post_bind; [apply secureRandInt_range|]. intros k _.
  set (combined := prefix +:+ item (pkgMiddles g) k +:+ suffix).
  destruct (Z.leb_spec length (len combined)).
  { apply post_ret. rewrite len_prefix_to; lia. }
  eapply post_weaken; [apply padWithLetters_len|].
  intros s Hs. cbn beta in Hs. lia.
Qed.

(** [generateName] returns exactly [length] bytes. *)
Lemma generateName_len (g : NaturalNameGenerator) (length : Z) :
  0 <= length ->
  post (generateName g length) (fun s => len s = length).
Proof.
  intros Hl. unfold generateName.
  destruct (Z.leb_spec length 3).
  { eapply post_weaken; [apply generateShortName_len|].
    intros s Hs. cbn beta in Hs. lia. }
  destruct (Z.leb_spec length 8).
  { eapply post_weaken; [apply generateMediumName_len|].
    intros s Hs. cbn beta in Hs. lia. }
  apply generateLongName_len. lia.
Qed.

Lemma generateRandomReadable_loop_len (n : nat) :
  ∀ result useVowel length,
    length - len result <= Z.of_nat n ->
    post (generateRandomReadable_loop n result useVowel length)
         (fun s => len s = Z.max (len result) length).
Proof.
  induction n as [|n IH]; intros result useVowel length Hn;
    cbn [generateRandomReadable_loop].
  - apply post_ret. lia.
  - destruct (Z.ltb_spec (len result) length); [| apply post_ret; lia].
    eapply post_bind with (P := fun c => len c = 1).
    + destruct useVowel.
      * eapply post_bind; [apply letter_drawn; reflexivity|].
        intros i Hi. apply post_ret. exact Hi.
      * eapply post_bind; [apply letter_drawn; reflexivity|].
        intros i Hi. apply post_ret. exact Hi.
    + intros c Hc. cbn beta in Hc. eapply post_weaken.
      * apply IH. rewrite len_app. lia.
      * intros s Hs. cbn beta in Hs. rewrite len_app in Hs. lia.
Qed.

(** The fallback name starts from one letter, so it has at least one
    byte before the dot. *)
Lemma generateRandomReadable_len (original : string) (length : Z) (hasDot : bool) :
  post (generateRandomReadable original length hasDot)
       (fun s => len s = Z.max 1 length + dot_len hasDot).
Proof.
  unfold generateRandomReadable.
  eapply post_bind with (P := fun s => len s = 1).
  - destruct original as [|c rest].
    + eapply post_bind; [apply secureRandInt_range|].
      intros i _. apply post_ret. reflexivity.
    + destruct (_ && _).
      * apply post_ret. reflexivity.
      * eapply post_bind; [apply secureRandInt_range|].
        intros i _. apply post_ret. reflexivity.
  - intros result Hres. cbn beta in Hres.
    eapply post_bind; [apply generateRandomReadable_loop_len; lia|].
    intros s Hs. cbn beta in Hs. apply post_ret.
    destruct hasDot; cbn [dot_len]; rewrite ?len_app;
      change (len ".") with 1; lia.
Qed.

Lemma GeneratePackageName_loop_len (n : nat) :
  ∀ g originalName length hasDot,
    0 <= length ->
    post (GeneratePackageName_loop n g originalName length hasDot)
         (fun res => len res.1 = length + dot_len hasDot ∨
                     (length = 0 ∧ len res.1 = 1 + dot_len hasDot)).
Proof.
  induction n as [|n IH]; intros g originalName length hasDot Hl;
    cbn [GeneratePackageName_loop].
  - eapply post_bind; [apply generateRandomReadable_len|].
    intros name Hname. cbn beta in Hname. apply post_ret. cbn [fst]. lia.
  - eapply post_bind; [apply generateName_len; lia|].
    intros name Hname. cbn beta in Hname.
    destruct (negb _).
    + apply post_ret. cbn [fst]. left.
      destruct hasDot; cbn [dot_len]; rewrite ?len_app;
        change (len ".") with 1; lia.
    + apply IH. lia.
Qed.

Lemma HasSuffix_dot_len (s : string) : HasSuffix_dot s = true -> 1 <= len s.
Proof. destruct s; [discriminate|]. unfold len. cbn. lia. Qed.

(** [GeneratePackageName] returns [targetLength] bytes for
    [targetLength >= 2], and for [targetLength = 1] unless the original
    name ends in a dot; there the name has one or two bytes. *)
Lemma GeneratePackageName_len (g : NaturalNameGenerator) (originalName : string)
      (targetLength : Z) :
  1 <= targetLength ->
  post (GeneratePackageName g originalName targetLength)
       (fun res => len res.1 = targetLength ∨
                   (HasSuffix_dot originalName = true ∧ targetLength = 1 ∧
                    len res.1 = 2)).
Proof.
  intros Ht. unfold GeneratePackageName.
  destruct (HasSuffix_dot originalName) eqn:Hdot.
  - eapply post_weaken; [apply GeneratePackageName_loop_len; lia|].
    intros res Hres. cbn beta in Hres. cbn [dot_len] in Hres. lia.
  - eapply post_weaken; [apply GeneratePackageName_loop_len; lia|].
    intros res Hres. cbn beta in Hres. cbn [dot_len] in Hres. lia.
Qed.

End NameGenerator.

(** C10. [GeneratePackageName(".", 1)], called a second time on a fresh
    generator, returns two bytes where one was asked for: the first call has
    issued ["."], every one of the 1000 attempts yields ["."] again, and the
    random-readable fallback starts from one letter before it appends the
    dot.  This holds for every random source. *)
Theorem GeneratePackageName_dot_twice (r : Rand) :
  let '((name1, g1), r1) := GeneratePackageName NewNaturalNameGenerator "." 1 r in
  let '((name2, _), _) := GeneratePackageName g1 "." 1 r1 in
  name1 = "."%string ∧ len name2 = 2 ∧ HasSuffix_dot name2 = true.
Proof.
  destruct r as [src pos]. vm_compute. repeat split.
Qed.

(** ** The neighbour checks of the binary patches *)

Section Neighbours.

Lemma eqb_byte_true (c d : byte) : eqb_byte c d = true -> c = d.
Proof. unfold eqb_byte. apply bool_decide_eq_true. Qed.

Lemma identifier_byte_bound (c : byte) : identifier_byte c = true -> 0x2d <= u8 c.
Proof.
  unfold identifier_byte, isLower, isUpper, isDigit.
  rewrite !orb_true_iff, !andb_true_iff, !Z.leb_le.
  change (u8 "a") with 97. change (u8 "A") with 65. change (u8 "0") with 48.
  intros [[[[[[H|H]|H]|H]|H]|H]|H]; try lia;
    apply eqb_byte_true in H; subst c; vm_compute; discriminate.
Qed.

Lemma prefix_rejected (data : bytes) (pos : nat) (pattern : bytes) :
  (0 < pos)%nat -> identifier_byte (at_ data (pos - 1)) = true ->
  isSafeFunctionNamePrefix data pos pattern = false.
Proof.
  intros Hpos Hid. pose proof (identifier_byte_bound _ Hid) as Hb.
  unfold isSafeFunctionNamePrefix.
  apply Nat.ltb_lt in Hpos. rewrite Hpos.
  set (prevChar := at_ data (pos - 1)) in *.
  assert (E0 : eqb_byte prevChar zero = false).
  { destruct (eqb_byte prevChar zero) eqn:E; [|reflexivity].
    apply eqb_byte_true in E. rewrite E in Hb. vm_compute in Hb.
    exfalso. apply Hb. reflexivity. }
  rewrite E0.
  assert (E1 : (u8 prevChar <? 0x20) = false) by (apply Z.ltb_ge; lia).
  rewrite E1. cbn [andb].
  unfold identifier_byte in Hid. rewrite Hid. reflexivity.
Qed.

Lemma prefix_accepted (data : bytes) (pos : nat) (pattern : bytes) :
  (0 < pos)%nat -> control_byte (at_ data (pos - 1)) = true ->
  isSafeFunctionNamePrefix data pos pattern = true.
Proof.
  intros Hpos Hc. unfold control_byte in Hc.
  unfold isSafeFunctionNamePrefix.
  apply Nat.ltb_lt in Hpos. rewrite Hpos.
  set (prevChar := at_ data (pos - 1)) in *.
  destruct (eqb_byte prevChar zero); [reflexivity|].
  rewrite Hc.
  assert (E : eqb_byte prevChar " " = false).
  { destruct (eqb_byte prevChar " ") eqn:E; [|reflexivity].
    apply eqb_byte_true in E. rewrite E in Hc. vm_compute in Hc. discriminate. }
  rewrite E. reflexivity.
Qed.

Lemma prefix_at_start (data pattern : bytes) :
  has_byte pattern "." = true -> (length pattern < length data)%nat ->
  isSafeFunctionNamePrefix data 0 pattern = letter_or_null (at_ data (length pattern)).
Proof.
  intros Hdot Hlen. unfold isSafeFunctionNamePrefix, letter_or_null.
  change (0 <? 0)%nat with false. cbn iota.
  change (0 + length pattern)%nat with (length pattern).
  rewrite Hdot. apply Nat.ltb_lt in Hlen. rewrite Hlen. cbn [andb].
  destruct (eqb_byte _ zero); [reflexivity|].
  cbn [orb]. destruct (_ || _); reflexivity.
Qed.

(** Behind a byte that is neither a control byte nor part of an identifier
    or a path, the byte after the prefix decides, as it does at offset 0. *)
Lemma prefix_by_next (data : bytes) (pos : nat) (pattern : bytes) :
  pos = 0%nat ∨ (control_byte (at_ data (pos - 1)) = false
                 ∧ identifier_byte (at_ data (pos - 1)) = false) ->
  has_byte pattern "." = true -> (pos + length pattern < length data)%nat ->
  isSafeFunctionNamePrefix data pos pattern
  = letter_or_null (at_ data (pos + length pattern)).
Proof.
  intros Hprev Hdot Hlen. unfold isSafeFunctionNamePrefix, letter_or_null.
  rewrite Hdot. apply Nat.ltb_lt in Hlen. rewrite Hlen. cbn [andb]. cbv zeta.
  set (next := if eqb_byte (at_ data (pos + length pattern)) zero then true else _).
  assert (Hnext : next = eqb_byte (at_ data (pos + length pattern)) zero
                         || isLower (at_ data (pos + length pattern))
                         || isUpper (at_ data (pos + length pattern))).
  { subst next. destruct (eqb_byte _ zero); [reflexivity|].
    cbn [orb]. destruct (_ || _); reflexivity. }
  destruct Hprev as [-> | [Hc Hi]]; [exact Hnext|].
  destruct (0 <? pos)%nat; [| exact Hnext].
  unfold control_byte in Hc. unfold identifier_byte in Hi.
  set (prevChar := at_ data (pos - 1)) in *.
  assert (E0 : eqb_byte prevChar zero = false).
  { destruct (eqb_byte prevChar zero) eqn:E; [|reflexivity].
    apply eqb_byte_true in E. rewrite E in Hc. vm_compute in Hc. discriminate. }
  rewrite E0, Hc, Hi. exact Hnext.
Qed.

(** Where the pattern has no dot, or no byte follows the match, the byte
    before the match decides alone. *)
Lemma prefix_without_next (data : bytes) (pos : nat) (pattern : bytes) :
  pos = 0%nat ∨ (control_byte (at_ data (pos - 1)) = false
                 ∧ identifier_byte (at_ data (pos - 1)) = false) ->
  has_byte pattern "." = false ∨ (length data <= pos + length pattern)%nat ->
  isSafeFunctionNamePrefix data pos pattern = true.
Proof.
  intros Hprev Hno. unfold isSafeFunctionNamePrefix.
  assert (E : has_byte pattern "." && (pos + length pattern <? length data)%nat = false).
  { destruct Hno as [-> | Hle]; [reflexivity|].
    apply andb_false_iff. right. apply Nat.ltb_ge. exact Hle. }
  rewrite E. clear E Hno. cbv zeta.
  destruct Hprev as [-> | [Hc Hi]]; [reflexivity|].
  destruct (0 <? pos)%nat; [| reflexivity].
  destruct (eqb_byte (at_ data (pos - 1)) zero); [reflexivity|].
  unfold control_byte in Hc. unfold identifier_byte in Hi.
  rewrite Hc, Hi. reflexivity.
Qed.

End Neighbours.

(** C6, as the code has it.  A candidate match of a package-name prefix is
    never accepted when the byte before it is a letter, a digit, an
    underscore, a hyphen, a dot or a slash; it is always accepted when that
    byte is a null byte or another control byte below 0x20, whatever byte
    follows the prefix; a match at offset 0, which has no byte before it,
    is accepted exactly when the byte after the prefix is a letter or a
    null byte.  The byte after the prefix decides in the same way behind
    every other byte (a space, a quote, a byte from 0x7f up): such a match
    is accepted only when a letter or a null byte follows the prefix.  In
    these cases a match that ends where the data ends, or a pattern without
    a dot, is accepted. *)
Theorem isSafeFunctionNamePrefix_neighbours (data : bytes) (pos : nat) (pattern : bytes) :
  ((0 < pos)%nat -> identifier_byte (at_ data (pos - 1)) = true ->
   isSafeFunctionNamePrefix data pos pattern = false) ∧
  ((0 < pos)%nat -> control_byte (at_ data (pos - 1)) = true ->
   isSafeFunctionNamePrefix data pos pattern = true) ∧
  (pos = 0%nat -> has_byte pattern "." = true ->
   (length pattern < length data)%nat ->
   isSafeFunctionNamePrefix data pos pattern
   = letter_or_null (at_ data (length pattern))) ∧
  ((0 < pos)%nat -> control_byte (at_ data (pos - 1)) = false ->
   identifier_byte (at_ data (pos - 1)) = false ->
   has_byte pattern "." = true -> (pos + length pattern < length data)%nat ->
   isSafeFunctionNamePrefix data pos pattern
   = letter_or_null (at_ data (pos + length pattern))) ∧
  (pos = 0%nat ∨ (control_byte (at_ data (pos - 1)) = false
                  ∧ identifier_byte (at_ data (pos - 1)) = false) ->
   has_byte pattern "." = false ∨ (length data <= pos + length pattern)%nat ->
   isSafeFunctionNamePrefix data pos pattern = true).
Proof.
  split; [apply prefix_rejected|]. split; [apply prefix_accepted|].
  split; [intros ->; apply prefix_at_start|].
  split; [| apply prefix_without_next].
  intros _ Hc Hi. apply prefix_by_next. right. exact (conj Hc Hi).
Qed.

(** C6 as stated fails: in [\x00main.1] the prefix [main.] at offset 1 is
    accepted although the byte after it is a digit, because a null byte
    before the match ends the check. *)
Lemma prefix_accepted_before_digit :
  let data := bytes_of [0] ++ list_ascii_of_string "main.1" in
  let pattern := list_ascii_of_string "main." in
  slice data 1 (1 + length pattern) = pattern ∧
  at_ data 0 = zero ∧
  isSafeFunctionNamePrefix data 1 pattern = true ∧
  letter_or_null (at_ data (1 + length pattern)) = false.
Proof. vm_compute. repeat split. Qed.

(** ** The project-path pass *)

Section PathPass.



Lemma patch_padded_length (data : bytes) (j : nat) (p r : bytes) :
  (j + length p <= length data)%nat -> (length r <= length p)%nat ->
  length (patch_padded data j p r) = length data.
Proof.
  intros H1 H2. unfold patch_padded.
  rewrite !length_app, length_take, length_replicate, length_drop. lia.
Qed.

Lemma replacePath_loop_unfold (fuel j : nat) (data p r : bytes) (log : list PathWrite) :
  replacePath_loop (S fuel) j data p r log =
  if Z.of_nat j <? Z.of_nat (length data) - Z.of_nat (length p) then
    if bytes_Equal (slice data j (j + length p)) p then
      if negb (isSafePackagePathReplacement data j (length p)) then
        replacePath_loop fuel (S j) data p r log
      else if (length r <=? length p)%nat then
        replacePath_loop fuel (S (j + (length p - 1)))
          (patch_padded data j p r) p r
          (log ++ [{| pw_pos := j; pw_before := data; pw_pattern := p;
                      pw_replacement := r |}])
      else replacePath_loop fuel (S j) data p r log
    else replacePath_loop fuel (S j) data p r log
  else (data, log).
Proof. reflexivity. Qed.

(** The loop ends by its own condition: fuel beyond the length of the
    buffer changes nothing. *)
Lemma replacePath_loop_fuel (fuel : nat) :
  ∀ j data p r log,
    (length data <= fuel + j)%nat ->
    replacePath_loop (S fuel) j data p r log = replacePath_loop fuel j data p r log.
Proof.
  induction fuel as [|fuel IH]; intros j data p r log Hfuel.
  - rewrite replacePath_loop_unfold.
    destruct (Z.ltb_spec (Z.of_nat j) (Z.of_nat (length data) - Z.of_nat (length p)));
      [lia | reflexivity].
  - rewrite (replacePath_loop_unfold (S fuel) j data p r log),
      (replacePath_loop_unfold fuel j data p r log).
    destruct (Z.ltb_spec (Z.of_nat j) (Z.of_nat (length data) - Z.of_nat (length p)));
      [|reflexivity].
    destruct (bytes_Equal _ p); [| apply IH; lia].
    destruct (negb _); [apply IH; lia|].
    destruct (Nat.leb_spec (length r) (length p)); [| apply IH; lia].
    apply IH. rewrite patch_padded_length by lia. lia.
Qed.















End PathPass.



(** ** The function-name prefix pass *)

Section PrefixPass.

Lemma length_list_ascii_of_string (s : string) :
  length (list_ascii_of_string s) = String.length s.
Proof. induction s as [|c s IH]; cbn; [|rewrite IH]; reflexivity. Qed.

Lemma HasSuffix_dot_app (s : string) : HasSuffix_dot (s +:+ ".") = true.
Proof.
  induction s as [|c s IH]; [reflexivity|].
  change (String c s +:+ ".")%string with (String c (s +:+ ".")).
  cbn [HasSuffix_dot]. destruct (s +:+ ".")%string eqn:E; [|exact IH].
  destruct s; discriminate.
Qed.

Lemma HasSuffix_dot_with_dot (s : string) : HasSuffix_dot (with_dot s) = true.
Proof.
  unfold with_dot. destruct (HasSuffix_dot s) eqn:E; [exact E|].
  apply HasSuffix_dot_app.
Qed.

(** A generated replacement is never shorter than its pattern. *)
Lemma generated_not_shorter (g : NaturalNameGenerator) (pattern : string) :
  HasSuffix_dot pattern = true ->
  post (GeneratePackageName g pattern (len pattern))
       (fun res => len pattern <= len res.1).
Proof.
  intros Hdot. pose proof (HasSuffix_dot_len _ Hdot).
  eapply post_weaken; [apply GeneratePackageName_len; lia|].
  intros res Hres. cbn beta in Hres. lia.
Qed.

Lemma Forall2_snoc {A B} (P : A -> B -> Prop) l k x y :
  Forall2 P l k -> P x y -> Forall2 P (l ++ [x]) (k ++ [y]).
Proof. intros H1 H2. apply Forall2_app; [exact H1 | repeat constructor; exact H2]. Qed.

Lemma customPatterns_lengths (only : bool) (entries : list (string * string)) :
  ∀ g patterns replacements,
    Forall2 (fun p q => len p <= len q) patterns replacements ->
    post (customPatterns only entries g patterns replacements)
         (fun res => Forall2 (fun p q => len p <= len q) res.1.1 res.1.2).
Proof.
  induction entries as [|[original replacement] rest IH];
    intros g patterns replacements Hinv; cbn [customPatterns].
  - apply post_ret. exact Hinv.
  - destruct (only && _); [apply IH; exact Hinv|].
    eapply post_bind with
      (P := fun res : string * NaturalNameGenerator =>
              len (with_dot original) <= len res.1).
    + destruct (bool_decide _) eqn:E.
      * apply generated_not_shorter, HasSuffix_dot_with_dot.
      * apply post_ret. apply bool_decide_eq_false in E. cbn [fst].
        destruct (decide (len (with_dot replacement) = len (with_dot original)));
          [lia | contradiction].
    + intros [q g'] Hq. cbn [fst] in Hq. apply IH.
      apply Forall2_snoc; assumption.
Qed.

Lemma defaultPatterns_lengths (defaults : list string) :
  Forall (fun p => HasSuffix_dot p = true) defaults ->
  ∀ g patterns replacements,
    Forall2 (fun p q => len p <= len q) patterns replacements ->
    post (defaultPatterns defaults g patterns replacements)
         (fun res => Forall2 (fun p q => len p <= len q) res.1.1 res.1.2).
Proof.
  induction 1 as [|p rest Hp Hrest IH];
    intros g patterns replacements Hinv; cbn [defaultPatterns].
  - apply post_ret. exact Hinv.
  - eapply post_bind; [apply generated_not_shorter; exact Hp|].
    intros [q g'] Hq. cbn [fst] in Hq. apply IH.
    apply Forall2_snoc; assumption.
Qed.

(** Every replacement that [obfuscateFunctionNames] pairs with a pattern
    has at least the pattern's length. *)
Lemma functionNamePatterns_lengths (cfg : LinkConfig) :
  post (functionNamePatterns cfg)
       (fun res => Forall2 (fun p q => len p <= len q) res.1 res.2).
Proof.
  unfold functionNamePatterns.
  eapply post_bind with
    (P := fun res : list string * list string * NaturalNameGenerator =>
            Forall2 (fun p q => len p <= len q) res.1.1 res.1.2).
  - destruct (0 <? length (PackageReplacements cfg))%nat.
    + apply customPatterns_lengths. constructor.
    + destruct (OnlyObfuscateProject cfg);
        (apply defaultPatterns_lengths; [repeat constructor | constructor]).
  - intros [[ps qs] g] H. apply post_ret. exact H.
Qed.

Lemma replacePrefix_loop_log (n : nat) :
  ∀ j data p q log,
    (length p <= length q)%nat -> Forall equal_length log ->
    Forall equal_length (replacePrefix_loop n j data p q log).2.
Proof.
  induction n as [|n IH]; intros j data p q log Hle Hlog;
    cbn [replacePrefix_loop]; [exact Hlog|].
  destruct (bytes_Equal _ p); [| apply IH; assumption].
  destruct (negb _); [apply IH; assumption|].
  destruct (Nat.eqb_spec (length q) (length p)) as [Heq|Hne].
  - apply IH; [assumption|]. apply Forall_app. split; [assumption|].
    repeat constructor. exact Heq.
  - destruct (Nat.ltb_spec (length q) (length p)); [lia|].
    apply IH; assumption.
Qed.

Lemma replacePrefix_loop_skip (n : nat) :
  ∀ j data p q log,
    length q ≠ length p -> (length p <= length q)%nat ->
    replacePrefix_loop n j data p q log = (data, log).
Proof.
  induction n as [|n IH]; intros j data p q log Hne Hle;
    cbn [replacePrefix_loop]; [reflexivity|].
  destruct (bytes_Equal _ p); [| apply IH; assumption].
  destruct (negb _); [apply IH; assumption|].
  destruct (Nat.eqb_spec (length q) (length p)); [contradiction|].
  destruct (Nat.ltb_spec (length q) (length p)); [lia|].
  apply IH; assumption.
Qed.

Lemma len_bytes (s : string) : Z.of_nat (length (list_ascii_of_string s)) = len s.
Proof. unfold len. rewrite length_list_ascii_of_string. reflexivity. Qed.

Lemma replacePrefixes_log (patterns replacements : list string) :
  Forall2 (fun p q => len p <= len q) patterns replacements ->
  ∀ data offset log,
    Forall equal_length log ->
    Forall equal_length (replacePrefixes data offset patterns replacements log).2.
Proof.
  induction 1 as [|p q ps qs Hpq Hrest IH]; intros data offset log Hlog;
    cbn [replacePrefixes]; [exact Hlog|].
  destruct (replacePrefix data offset p q log) as [data1 log1] eqn:E.
  apply IH.
  replace log1 with (replacePrefix data offset p q log).2 by (rewrite E; reflexivity).
  unfold replacePrefix. apply replacePrefix_loop_log; [|exact Hlog].
  pose proof (len_bytes p). pose proof (len_bytes q). lia.
Qed.

End PrefixPass.

(** C1. Every write of the function-name prefix pass into the pclntab
    window replaces a matched pattern by exactly as many bytes; when the
    replacement that was prepared for a pattern has another length, the pass
    leaves the buffer as it is for that pattern: nothing is written,
    truncated or padded.  This holds for every configuration, buffer,
    offset and random source. *)
Theorem prefix_pass_equal_length
    (cfg : LinkConfig) (data : bytes) (pclntabOffset : Z) (r : Rand) :
  Forall equal_length (prefix_log (obfuscateFunctionNames cfg data pclntabOffset r).1) ∧
  ∀ (i : nat) (pattern replacement : string) (d : bytes) (log : list Write),
    (functionNamePatterns cfg r).1.1 !! i = Some pattern ->
    (functionNamePatterns cfg r).1.2 !! i = Some replacement ->
    len replacement ≠ len pattern ->
    replacePrefix d pclntabOffset pattern replacement log = (d, log).
Proof.
  pose proof (functionNamePatterns_lengths cfg r) as Hlen. cbn beta in Hlen.
  split.
  - unfold obfuscateFunctionNames, prefix_log, mbind, R_bind.
    destruct (functionNamePatterns cfg r) as [[patterns replacements] r'].
    cbn [fst snd] in Hlen.
    pose proof (replacePrefixes_log patterns replacements Hlen data pclntabOffset []
                  (Forall_nil_2 _)) as Hlog.
    destruct (replacePrefixes data pclntabOffset patterns replacements [])
      as [data1 log1].
    destruct (replaceProjectPackagePathsGlobal cfg data1) as [data2 paths].
    exact Hlog.
  - intros i pattern replacement d log Hp Hq Hne.
    pose proof (Forall2_lookup_lr _ _ _ _ _ _ Hlen Hp Hq) as Hle. cbn beta in Hle.
    unfold replacePrefix. apply replacePrefix_loop_skip.
    + intros Heq. apply Hne.
      rewrite <- (len_bytes replacement), <- (len_bytes pattern), Heq. reflexivity.
    + pose proof (len_bytes pattern). pose proof (len_bytes replacement). lia.
Qed.

Lemma prefix_pass_equal_length_witness :
  (functionNamePatterns dot_config zeros).1.1 !! 1%nat = Some "."%string ∧
  (functionNamePatterns dot_config zeros).1.2 !! 1%nat = Some "a."%string ∧
  replacePrefix dot_data 0 "." "a." [] = (dot_data, []).
Proof.
  split; [vm_compute; reflexivity|]. split; [vm_compute; reflexivity|].
  apply (proj2 (prefix_pass_equal_length dot_config dot_data 0 zeros) 1%nat "."%string "a."%string).
  - vm_compute; reflexivity.
  - vm_compute; reflexivity.
  - vm_compute; discriminate.
Defined.

(** ** The binary phase *)

Section BinaryPhase.

Context (P : Containers) (cfg : LinkConfig).

Lemma no_magic_find (data : bytes) : no_magic data -> findPclntabMagic data = -1.
Proof.
  intros Hno. destruct (findPclntabMagic_spec data) as [[H _] | (k & _ & Hk & _)].
  - exact H.
  - destruct (Hno k Hk).
Qed.

Lemma find_no_magic (data : bytes) : findPclntabMagic data = -1 -> no_magic data.
Proof.
  intros Hf. destruct (findPclntabMagic_spec data) as [[_ H] | (k & Hk & _)].
  - exact H.
  - rewrite Hf in Hk. lia.
Qed.

Lemma searchSections_none (candidate : string -> bool) (sections : list BinSection) :
  (∀ s d, s ∈ sections -> sec_Data s = Some d -> no_magic d) ->
  searchSections candidate sections = None.
Proof.
  induction sections as [|s rest IH]; intros Hno; cbn [searchSections].
  - reflexivity.
  - assert (Hrest : searchSections candidate rest = None).
    { apply IH. intros s' d Hs'. apply Hno. right. exact Hs'. }
    rewrite Hrest.
    destruct (candidate (sec_Name s)); [|reflexivity].
    destruct (sec_Data s) as [d|] eqn:Ed; [|reflexivity].
    rewrite (no_magic_find d) by (eapply Hno; [left | exact Ed]).
    reflexivity.
Qed.

Lemma process_no_magic (format : string) (data : bytes) (sections : list BinSection) :
  NewFile P format data = Some sections ->
  no_magic data ->
  (∀ s d, s ∈ sections -> sec_Data s = Some d -> no_magic d) ->
  ∃ processFormat,
    process P format = Some processFormat ∧
    ∀ r, processFormat cfg data r = (data, false, None, r).
Proof.
  intros Hparse Hdata Hsec. unfold NewFile in Hparse. unfold process.
  pose proof (no_magic_find data Hdata) as Hfind.
  destruct (bool_decide (format = "ELF"%string)).
  { eexists. split; [reflexivity|]. intros r. unfold processELF.
    rewrite Hparse, (searchSections_none _ _ Hsec), Hfind. reflexivity. }
  destruct (bool_decide (format = "PE"%string)).
  { eexists. split; [reflexivity|]. intros r. unfold processPE, process_by_offset.
    rewrite Hparse, (searchSections_none _ _ Hsec), Hfind. reflexivity. }
  destruct (bool_decide (format = "Mach-O"%string)); [|discriminate].
  eexists. split; [reflexivity|]. intros r. unfold processMachO, process_by_offset.
  rewrite Hparse, (searchSections_none _ _ Hsec), Hfind. reflexivity.
Qed.

Lemma backup_path_differs (path : string) : path +:+ ".backup" ≠ path.
Proof.
  intros H. apply (f_equal len) in H. rewrite len_app in H.
  change (len ".backup") with 7 in H. lia.
Qed.

End BinaryPhase.

(** C5, as the code has it.  When the container reader of the detected
    format returns the section table, and no supported magic occurs in the
    file nor in the data of any section, the per-format function returns the
    original data, [modified = false] and no error, and [postProcessBinary]
    returns nil and leaves every file as it was. *)
Theorem no_magic_is_no_op
    (P : Containers) (cfg : LinkConfig) (outputBin : string) (fs : FS)
    (data : bytes) (sections : list BinSection) (r : Rand) :
  ReadFile fs outputBin = Some data ->
  NewFile P (detectBinaryFormat data) data = Some sections ->
  no_magic data ->
  (∀ s d, s ∈ sections -> sec_Data s = Some d -> no_magic d) ->
  (∃ processFormat,
      process P (detectBinaryFormat data) = Some processFormat ∧
      (processFormat cfg data r).1 = (data, false, None)) ∧
  (postProcessBinary P cfg outputBin fs r).1 = (None, fs).
Proof.
  intros Hread Hparse Hdata Hsec.
  destruct (process_no_magic P cfg _ _ _ Hparse Hdata Hsec) as (pf & Hpf & Hrun).
  split.
  - exists pf. split; [exact Hpf|]. rewrite Hrun. reflexivity.
  - unfold postProcessBinary. rewrite Hread, Hpf.
    unfold mbind, R_bind. rewrite Hrun. reflexivity.
Qed.

Lemma no_magic_is_no_op_witness :
  let data := elf_header in
  ReadFile (fs_with "app" data) "app" = Some data ∧
  (postProcessBinary header_only default_LinkConfig "app" (fs_with "app" data) zeros).1
  = (None, fs_with "app" data).
Proof.
  split; [reflexivity|].
  apply (no_magic_is_no_op header_only default_LinkConfig "app"
           (fs_with "app" elf_header) elf_header [] zeros).
  - reflexivity.
  - reflexivity.
  - apply find_no_magic. vm_compute. reflexivity.
  - intros s d Hs. apply elem_of_nil in Hs. destruct Hs.
Defined.

(** C5 as stated fails: a four-byte file that starts with the ELF magic
    holds no pclntab magic, yet [processELF] returns the error of the
    reader and [postProcessBinary] returns it. *)
Lemma unreadable_container_is_an_error :
  let data := bytes_of [0x7f; 0x45; 0x4c; 0x46] in
  no_magic data ∧
  detectBinaryFormat data = "ELF"%string ∧
  (processELF header_only default_LinkConfig data zeros).1
  = (data, false, Some (ErrParse "ELF")) ∧
  (postProcessBinary header_only default_LinkConfig "app" (fs_with "app" data) zeros).1.1
  = Some (ErrParse "ELF").
Proof.
  split; [apply find_no_magic; vm_compute; reflexivity|].
  vm_compute. repeat split.
Qed.

(** C2, as the code has it.  When the per-format function reports a
    modification and both writes succeed, [postProcessBinary] returns nil,
    the file [outputBin + ".backup"] holds the bytes read from [outputBin],
    and [outputBin] itself holds the patched buffer; no other file
    changes. *)
Theorem postProcessBinary_backup_and_overwrite
    (P : Containers) (cfg : LinkConfig) (outputBin : string) (fs : FS)
    (data newData : bytes)
    (processFormat : LinkConfig -> bytes -> R (bytes * bool * option error))
    (r : Rand) :
  ReadFile fs outputBin = Some data ->
  process P (detectBinaryFormat data) = Some processFormat ->
  (processFormat cfg data r).1 = (newData, true, None) ->
  outputBin +:+ ".backup" ∉ unwritable fs ->
  outputBin ∉ unwritable fs ->
  (postProcessBinary P cfg outputBin fs r).1.1 = None ∧
  files (postProcessBinary P cfg outputBin fs r).1.2 !! (outputBin +:+ ".backup")
    = Some data ∧
  files (postProcessBinary P cfg outputBin fs r).1.2 !! outputBin = Some newData ∧
  ∀ path, path ≠ outputBin -> path ≠ outputBin +:+ ".backup" ->
    files (postProcessBinary P cfg outputBin fs r).1.2 !! path = files fs !! path.
Proof.
  intros Hread Hpf Hrun Hw1 Hw2.
  unfold postProcessBinary. rewrite Hread, Hpf. unfold mbind, R_bind.
  destruct (processFormat cfg data r) as [res r']. cbn [fst] in Hrun. subst res.
  unfold unwritable in Hw1, Hw2. apply not_elem_of_dom in Hw1, Hw2.
  unfold WriteFile. rewrite Hw1. cbn [negb faults]. rewrite Hw2.
  cbn [negb mret R_ret fst snd files].
  split; [reflexivity|]. split; [| split].
  - rewrite lookup_insert_ne by (intros E; exact (backup_path_differs _ (eq_sym E))).
    apply lookup_insert_eq.
  - apply lookup_insert_eq.
  - intros path H1 H2. rewrite !lookup_insert_ne by congruence. reflexivity.
Qed.

Lemma postProcessBinary_backup_and_overwrite_witness :
  files (postProcessBinary header_only default_LinkConfig "app"
           (fs_with "app" elf_with_main) zeros).1.2 !! "app.backup"%string
  = Some elf_with_main ∧
  files (postProcessBinary header_only default_LinkConfig "app"
           (fs_with "app" elf_with_main) zeros).1.2 !! "app"%string
  = Some elf_with_core.
Proof.
  destruct (postProcessBinary_backup_and_overwrite header_only default_LinkConfig
              "app" (fs_with "app" elf_with_main) elf_with_main elf_with_core
              (processELF header_only) zeros)
    as (_ & Hb & Ho & _).
  - reflexivity.
  - reflexivity.
  - vm_compute. reflexivity.
  - vm_compute. discriminate.
  - vm_compute. discriminate.
  - split; [exact Hb | exact Ho].
Defined.

(** C2 as stated fails: after the binary phase has renamed [main.] in an
    ELF file, the file at the path that was passed in holds the patched
    bytes, not the original ones; the original ones are in the backup. *)
Lemma outputBin_is_rewritten :
  let fs := fs_with "app" elf_with_main in
  let res := (postProcessBinary header_only default_LinkConfig "app" fs zeros).1 in
  res.1 = None ∧
  files fs !! "app"%string = Some elf_with_main ∧
  files res.2 !! "app"%string = Some elf_with_core ∧
  elf_with_core ≠ elf_with_main ∧
  files res.2 !! "app.backup"%string = Some elf_with_main.
Proof.
  vm_compute. repeat split. discriminate.
Qed.

(** ** Generated identifier names *)

Section Names.

Lemma app_nil_l_s (b : string) : ("" +:+ b)%string = b.
Proof. reflexivity. Qed.

Lemma app_cons_s (c : ascii) (a b : string) :
  (String c a +:+ b)%string = String c (a +:+ b).
Proof. reflexivity. Qed.

Lemma has_char_app (c : ascii) (a b : string) :
  has_char c (a +:+ b) = has_char c a || has_char c b.
Proof.
  induction a as [|x a IH].
  - rewrite app_nil_l_s. reflexivity.
  - rewrite app_cons_s. cbn [has_char]. rewrite IH, orb_assoc. reflexivity.
Qed.

Lemma app_underscore_unique (a : string) :
  ∀ b x y,
    has_char "_" a = false -> has_char "_" b = false ->
    (a +:+ "_" +:+ x = b +:+ "_" +:+ y)%string -> a = b.
Proof.
  induction a as [|c a IH]; intros [|d b] x y Ha Hb H;
    rewrite ?app_nil_l_s, ?app_cons_s in H.
  - reflexivity.
  - injection H as Hd Hrest. subst d. cbn in Hb.
    rewrite bool_decide_eq_true_2 in Hb by reflexivity. discriminate.
  - injection H as Hc Hrest. subst c. cbn in Ha.
    rewrite bool_decide_eq_true_2 in Ha by reflexivity. discriminate.
  - injection H as Hc H. subst d.
    cbn [has_char] in Ha, Hb.
    apply orb_false_iff in Ha as [_ Ha]. apply orb_false_iff in Hb as [_ Hb].
    f_equal. eapply IH; eassumption.
Qed.

Lemma marker_cancel (p p' x y : string) :
  is_marker p -> is_marker p' -> (p +:+ x = p' +:+ y)%string -> x = y.
Proof.
  intros [-> | [-> | [-> | ->]]] [-> | [-> | [-> | ->]]] H;
    rewrite ?app_cons_s, ?app_nil_l_s in H;
    try discriminate; congruence.
Qed.

Lemma pretty_N_char_no_underscore (d : N) : pretty_N_char d ≠ "_"%char.
Proof. unfold pretty_N_char. repeat case_match; discriminate. Qed.

Lemma pretty_N_go_no_underscore (x : N) :
  ∀ s, has_char "_" s = false -> has_char "_" (pretty_N_go x s) = false.
Proof.
  induction (N.lt_wf_0 x) as [x _ IH]; intros s Hs.
  destruct (decide (x = 0%N)) as [->|Hx].
  - rewrite pretty_N_go_0. exact Hs.
  - rewrite pretty_N_go_step by lia. apply IH.
    + apply N.div_lt; lia.
    + cbn [has_char]. rewrite Hs, orb_false_r.
      apply bool_decide_eq_false_2, pretty_N_char_no_underscore.
Qed.

Lemma pretty_N_no_underscore (x : N) : has_char "_" (pretty x) = false.
Proof.
  unfold pretty, pretty_N. destruct (decide (x = 0%N)); [reflexivity|].
  apply pretty_N_go_no_underscore. reflexivity.
Qed.

Lemma pretty_Z_no_underscore (n : Z) : has_char "_" (pretty n) = false.
Proof.
  unfold pretty, pretty_Z. destruct n as [|p|p].
  - reflexivity.
  - apply (pretty_N_no_underscore (Npos p)).
  - rewrite has_char_app. change (has_char "_" "-") with false. cbn [orb].
    apply (pretty_N_no_underscore (Npos p)).
Qed.

Lemma counter_name_unique (n n' : Z) (v : string) :
  counter_name n v -> counter_name n' v -> n = n'.
Proof.
  intros (p & s & Hp & ->) (p' & s' & Hp' & H).
  apply (marker_cancel _ _ _ _ Hp Hp') in H.
  apply app_underscore_unique in H; try apply pretty_Z_no_underscore.
  apply (inj pretty). exact H.
Qed.

Lemma counter_name_underscore (n : Z) (v : string) :
  counter_name n v -> has_char "_" v = true.
Proof.
  intros (p & s & _ & ->). rewrite !has_char_app.
  change (has_char "_" "_") with true. rewrite !orb_true_r. reflexivity.
Qed.

Lemma get_has_char (c : ascii) (s : string) (n : nat) (x : ascii) :
  has_char c s = false -> get n s = Some x -> x ≠ c.
Proof.
  revert n. induction s as [|y s IH]; intros [|n] Hs Hg; cbn in *;
    try discriminate.
  - injection Hg as ->. apply orb_false_iff in Hs as [Hs _].
    apply bool_decide_eq_false in Hs. exact Hs.
  - apply orb_false_iff in Hs as [_ Hs]. eapply IH; eassumption.
Qed.

Lemma char_at_no_underscore (i : Z) : has_char "_" (char_at charset i) = false.
Proof.
  unfold char_at. destruct (get (Z.to_nat i) charset) as [x|] eqn:E; [|reflexivity].
  cbn [has_char]. rewrite orb_false_r. apply bool_decide_eq_false_2.
  eapply get_has_char; [|exact E]. vm_compute. reflexivity.
Qed.

Lemma generateRandomString_loop_no_underscore (n : nat) :
  ∀ result, has_char "_" result = false ->
    post (generateRandomString_loop n result) (fun s => has_char "_" s = false).
Proof.
  induction n as [|n IH]; intros result Hres; cbn [generateRandomString_loop].
  - apply post_ret. exact Hres.
  - eapply post_bind with (P := fun _ => True); [intros r; exact I|].
    intros num _. apply IH.
    rewrite has_char_app, Hres, char_at_no_underscore. reflexivity.
Qed.

Lemma generateRandomString_no_underscore (length : Z) :
  post (generateRandomString length) (fun s => has_char "_" s = false).
Proof. apply generateRandomString_loop_no_underscore. reflexivity. Qed.

Lemma marker_is_marker (isExported isFunc : bool) :
  is_marker (marker isExported isFunc (if isFunc then "fn" else "l")).
Proof. unfold is_marker. destruct isExported, isFunc; cbn; auto. Qed.

Lemma marker_no_underscore (p : string) : is_marker p -> has_char "_" p = false.
Proof. intros [-> | [-> | [-> | ->]]]; reflexivity. Qed.

Lemma value_in_spec (m : gmap string string) (v : string) :
  value_in m v = true ↔ ∃ k, m !! k = Some v.
Proof.
  unfold value_in. rewrite bool_decide_eq_true, list_elem_of_fmap. split.
  - intros ([k v'] & -> & Hin). exists k. apply elem_of_map_to_list. exact Hin.
  - intros [k Hk]. exists (k, v). split; [reflexivity|].
    apply elem_of_map_to_list. exact Hk.
Qed.

Lemma isNameUsed_spec (o : Obfuscator) (v : string) :
  isNameUsed o v = true ↔ issued o v.
Proof.
  unfold isNameUsed, issued. rewrite <- !value_in_spec.
  destruct (value_in (varMapping o) v), (value_in (funcMapping o) v),
    (value_in (importAliasMapping o) v); intuition discriminate.
Qed.

Lemma insert_values (m : gmap string string) (name obf v : string) :
  m !! name = None ->
  (∃ k, <[name := obf]> m !! k = Some v) ↔ (∃ k, m !! k = Some v) ∨ v = obf.
Proof.
  intros Hnone. split.
  - intros [k Hk]. destruct (decide (name = k)) as [->|Hne].
    + rewrite lookup_insert_eq in Hk. right. congruence.
    + rewrite lookup_insert_ne in Hk by exact Hne. left. eauto.
  - intros [[k Hk] | ->].
    + exists k. rewrite lookup_insert_ne; [exact Hk | congruence].
    + exists name. apply lookup_insert_eq.
Qed.

Lemma issued_set_mapping (o : Obfuscator) (isFunc : bool) (name obf v : string) :
  unmapped o (name, isFunc) ->
  issued (set_mapping o isFunc name obf) v ↔ issued o v ∨ v = obf.
Proof.
  unfold unmapped, issued, set_mapping. cbn [fst snd]. intros Hnone.
  destruct isFunc; cbn [varMapping funcMapping importAliasMapping];
    rewrite insert_values by exact Hnone; tauto.
Qed.

Lemma unmapped_set_mapping (o : Obfuscator) (isFunc : bool) (name obf : string)
      (call : string * bool) :
  call.1 ≠ name -> unmapped o call -> unmapped (set_mapping o isFunc name obf) call.
Proof.
  unfold unmapped, set_mapping. destruct call as [k f]. cbn [fst snd].
  intros Hne Hk.
  destruct isFunc, f; cbn [varMapping funcMapping]; try exact Hk;
    rewrite lookup_insert_ne by congruence; exact Hk.
Qed.

Lemma obfuscateName_loop_ok (n : nat) :
  ∀ o name isFunc isExported,
    counters_below o -> unmapped o (name, isFunc) ->
    post (obfuscateName_loop n o name isFunc (if isFunc then "fn" else "l") isExported)
         (step_ok o name).
Proof.
  induction n as [|n IH]; intros o name isFunc isExported Hinv Hun;
    cbn [obfuscateName_loop].
  - eapply post_bind; [apply generateRandomString_no_underscore|].
    intros suffix _. apply post_ret.
    set (mk := marker isExported isFunc (if isFunc then "fn" else "l")).
    set (obf := (mk +:+ pretty (namingCounter (next_counter o)) +:+ "_" +:+ suffix)%string).
    assert (Hshape : counter_name (namingCounter o + 1) obf).
    { exists mk, suffix. split; [apply marker_is_marker | reflexivity]. }
    assert (Hfresh : ¬ issued o obf).
    { intros Hi. specialize (Hinv obf _ Hi Hshape). lia. }
    assert (Hiss : ∀ v, issued (set_mapping (next_counter o) isFunc name obf) v
                        ↔ issued o v ∨ v = obf).
    { intros v. apply (issued_set_mapping (next_counter o)). exact Hun. }
    unfold step_ok. cbn [fst snd]. split; [exact Hfresh|]. split; [| split].
    + intros v k Hv Hk. apply Hiss in Hv as [Hv | ->].
      * specialize (Hinv v k Hv Hk). cbn. lia.
      * rewrite (counter_name_unique _ _ _ Hk Hshape). cbn. lia.
    + exact Hiss.
    + intros call Hne Hc.
      apply (unmapped_set_mapping (next_counter o)); assumption.
  - eapply post_bind; [apply generateRandomString_no_underscore|].
    intros randomPart Hrp. cbn beta in Hrp.
    set (mk := marker isExported isFunc (if isFunc then "fn" else "l")).
    destruct (isNameUsed o (mk +:+ randomPart)) eqn:Eused; cbn [negb];
      [apply IH; assumption|].
    apply post_ret.
    assert (Hfresh : ¬ issued o (mk +:+ randomPart)).
    { intros Hi. apply isNameUsed_spec in Hi. congruence. }
    assert (Hno : has_char "_" (mk +:+ randomPart) = false).
    { rewrite has_char_app, Hrp.
      rewrite (marker_no_underscore mk) by apply marker_is_marker. reflexivity. }
    unfold step_ok. cbn [fst snd]. split; [exact Hfresh|]. split; [| split].
    + intros v k Hv Hk. apply issued_set_mapping in Hv as [Hv | ->]; [| | exact Hun].
      * exact (Hinv v k Hv Hk).
      * apply counter_name_underscore in Hk. congruence.
    + intros v. apply issued_set_mapping. exact Hun.
    + intros call Hne Hc. apply unmapped_set_mapping; assumption.
Qed.

Lemma obfuscateName_ok (o : Obfuscator) (name : string) (isFunc : bool) :
  counters_below o -> unmapped o (name, isFunc) ->
  post (obfuscateName o name isFunc) (step_ok o name).
Proof.
  intros Hinv Hun. unfold obfuscateName.
  unfold unmapped in Hun. cbn [fst snd] in Hun. rewrite Hun.
  apply obfuscateName_loop_ok; assumption.
Qed.

Lemma New_counters_below (config : option Config) :
  post (New config) counters_below.
Proof.
  intros r. unfold New, mbind, R_bind, mret, R_ret.
  repeat match goal with |- context [let (_, _) := ?m in _] => destruct m end.
  cbn [fst]. intros v n [[k Hk] | [[k Hk] | [k Hk]]]; cbn in Hk;
    rewrite lookup_empty in Hk; discriminate.
Qed.

Lemma obfuscateNames_ok (calls : list (string * bool)) :
  ∀ o r,
    counters_below o -> NoDup calls.*1 -> Forall (unmapped o) calls ->
    length (obfuscateNames o calls r).1.1 = length calls ∧
    NoDup (obfuscateNames o calls r).1.1 ∧
    Forall (fun v => ¬ issued o v) (obfuscateNames o calls r).1.1 ∧
    counters_below (obfuscateNames o calls r).1.2.
Proof.
  induction calls as [|[name isFunc] rest IH]; intros o r Hinv Hnd Hun.
  - cbn. repeat split; [constructor | constructor | exact Hinv].
  - cbn [obfuscateNames]. unfold mbind, R_bind.
    pose proof (obfuscateName_ok o name isFunc Hinv (Forall_inv Hun) r) as Hstep.
    destruct (obfuscateName o name isFunc r) as [[obf o1] r1].
    destruct Hstep as (Hfresh & Hinv1 & Hiss & Hkeep). cbn [fst snd] in *.
    apply NoDup_cons in Hnd as [Hnotin Hnd].
    assert (Hun1 : Forall (unmapped o1) rest).
    { apply Forall_forall. intros call Hcall. apply Hkeep.
      - intros E. apply Hnotin. rewrite <- E.
        apply list_elem_of_fmap. exists call. split; [reflexivity | exact Hcall].
      - apply (proj1 (Forall_forall _ _) (Forall_inv_tail Hun)). exact Hcall. }
    specialize (IH o1 r1 Hinv1 Hnd Hun1).
    destruct (obfuscateNames o1 rest r1) as [[names o2] r2].
    cbn [fst snd mret R_ret length] in *.
    destruct IH as (Hlen & Hnd' & Hnew & Hinv2).
    split; [lia|]. split; [| split; [| exact Hinv2]].
    + apply NoDup_cons. split; [| exact Hnd'].
      intros Hin. apply (proj1 (Forall_forall _ _) Hnew) in Hin.
      apply Hin, Hiss. right. reflexivity.
    + constructor; [exact Hfresh|].
      apply Forall_forall. intros v Hv Hi.
      apply (proj1 (Forall_forall _ _) Hnew) in Hv.
      apply Hv, Hiss. left. exact Hi.
Qed.

End Names.

(** C8. From a naming state that satisfies its invariant (no issued name
    looks like a fallback name with a counter above the current one, as in
    the state that [New] returns and after every call), a sequence of calls
    of [obfuscateName] on pairwise distinct names that the selected mappings
    do not hold yet returns one name per call, the names returned are
    pairwise distinct, and none of them is a name already held by the
    variable, function or import-alias mapping.  Each call is a bounded loop
    of 100 attempts followed by the counter fallback, so it returns for
    every random source. *)
Theorem obfuscateNames_distinct
    (o : Obfuscator) (calls : list (string * bool)) (r : Rand) :
  counters_below o -> NoDup calls.*1 -> Forall (unmapped o) calls ->
  length (obfuscateNames o calls r).1.1 = length calls ∧
  NoDup (obfuscateNames o calls r).1.1 ∧
  Forall (fun v => ¬ issued o v) (obfuscateNames o calls r).1.1.
Proof.
  intros Hinv Hnd Hun.
  destruct (obfuscateNames_ok calls o r Hinv Hnd Hun) as (H1 & H2 & H3 & _).
  auto.
Qed.

(** ** The theorems at concrete inputs *)

Lemma generateRandomString_loop_len (n : nat) :
  ∀ result,
    post (generateRandomString_loop n result)
         (fun s => len s = len result + Z.of_nat n).
Proof.
  induction n as [|n IH]; intros result; cbn [generateRandomString_loop].
  - apply post_ret. lia.
  - eapply post_bind with (P := fun num => len (char_at charset num) = 1).
    + intros r. unfold rand_Int. cbn [fst]. apply len_char_at.
      apply Z.mod_pos_bound. reflexivity.
    + intros num Hnum. cbn beta in Hnum. eapply post_weaken; [apply IH|].
      intros s Hs. cbn beta in Hs. rewrite len_app in Hs. lia.
Qed.

(** The key of a run has 64 bytes, so it is not empty. *)
Lemma New_encryptionKey (config : option Config) :
  post (New config) (fun o => len (encryptionKey o) = 64).
Proof.
  unfold New.
  eapply post_bind with (P := fun _ => True); [intros r; exact I|]. intros seed _.
  eapply post_bind; [apply generateRandomString_loop_len|]. intros key Hkey.
  eapply post_bind with (P := fun _ => True); [intros r; exact I|]. intros f _.
  eapply post_bind with (P := fun _ => True); [intros r; exact I|]. intros p _.
  apply post_ret. cbn [encryptionKey]. cbn beta in Hkey.
  change (len "") with 0 in Hkey. change (Z.of_nat (Z.to_nat 64)) with 64 in Hkey.
  lia.
Qed.

Lemma encrypt_decrypt_roundtrip_witness :
  encryptionKey (New None zeros).1 ≠ EmptyString ∧
  ∃ encrypted,
    encryptString (New None zeros).1 "hello world" = Some encrypted ∧
    decryptFunction (New None zeros).1 encrypted = Some "hello world"%string.
Proof.
  split; [vm_compute; discriminate|].
  apply (encrypt_decrypt_roundtrip (New None zeros).1 "hello world").
  vm_compute; discriminate.
Defined.

Lemma shouldProtect_reserved_witness :
  ObfuscateExported (Config_ (New None zeros).1) = false ∧
  shouldProtect (New None zeros).1 "Println" = true ∧
  shouldProtect (New None zeros).1 "len" = true.
Proof.
  destruct (shouldProtect_reserved (New None zeros).1) as (_ & _ & _ & Hb & He).
  split; [reflexivity|]. split.
  - apply (He eq_refl "P"%char "rintln"%string). vm_compute. split; discriminate.
  - apply Hb. cbn. repeat (try (left; reflexivity); right).
Defined.

Lemma shouldProtect_misses_non_ascii_witness :
  Unit_with_diaeresis = String "195" (String "156" "nit") ∧
  upper_latin1 0xDC = true ∧
  ObfuscateExported (Config_ (New None zeros).1) = false ∧
  isExported Unit_with_diaeresis = false ∧
  shouldProtect (New None zeros).1 Unit_with_diaeresis = false.
Proof.
  split; [reflexivity|]. split; [reflexivity|]. split; [reflexivity|].
  apply (shouldProtect_misses_non_ascii (New None zeros).1 "195"
           (String "156" "nit")).
  - vm_compute. discriminate.
  - reflexivity.
  - reflexivity.
Defined.

Lemma isSafeFunctionNamePrefix_neighbours_witness :
  isSafeFunctionNamePrefix (bytes_of [0] ++ list_ascii_of_string "main.1") 1
    (list_ascii_of_string "main.") = true ∧
  isSafeFunctionNamePrefix (list_ascii_of_string "submain.Old") 3
    (list_ascii_of_string "main.") = false ∧
  isSafeFunctionNamePrefix (list_ascii_of_string "main.Run") 0
    (list_ascii_of_string "main.") = true ∧
  isSafeFunctionNamePrefix (list_ascii_of_string " main.1") 1
    (list_ascii_of_string "main.") = false ∧
  isSafeFunctionNamePrefix (list_ascii_of_string " main.") 1
    (list_ascii_of_string "main.") = true.
Proof.
  split; [| split; [| split; [| split]]].
  - apply (proj1 (proj2 (isSafeFunctionNamePrefix_neighbours
             (bytes_of [0] ++ list_ascii_of_string "main.1") 1
             (list_ascii_of_string "main."))));
      [apply Nat.lt_0_1 | reflexivity].
  - apply (proj1 (isSafeFunctionNamePrefix_neighbours
             (list_ascii_of_string "submain.Old") 3 (list_ascii_of_string "main.")));
      [apply Nat.lt_0_succ | reflexivity].
  - rewrite (proj1 (proj2 (proj2 (isSafeFunctionNamePrefix_neighbours
               (list_ascii_of_string "main.Run") 0 (list_ascii_of_string "main."))))
               eq_refl eq_refl);
      [reflexivity | vm_compute; repeat constructor].
  - rewrite (proj1 (proj2 (proj2 (proj2 (isSafeFunctionNamePrefix_neighbours
               (list_ascii_of_string " main.1") 1 (list_ascii_of_string "main.")))))
               Nat.lt_0_1 eq_refl eq_refl eq_refl);
      [reflexivity | vm_compute; repeat constructor].
  - apply (proj2 (proj2 (proj2 (proj2 (isSafeFunctionNamePrefix_neighbours
             (list_ascii_of_string " main.") 1 (list_ascii_of_string "main."))))));
      [right; split; reflexivity | right; vm_compute; repeat constructor].
Defined.


Lemma obfuscateNames_distinct_witness :
  counters_below (New None zeros).1 ∧
  (obfuscateNames (New None zeros).1 [("x", false); ("y", false)]%string zeros).1.1
  = [ "laaaaaaaaaaaa"; "l1_aaaaaaaa" ]%string ∧
  NoDup (obfuscateNames (New None zeros).1 [("x", false); ("y", false)]%string zeros).1.1.
Proof.
  split; [apply New_counters_below|]. split; [vm_compute; reflexivity|].
  apply (obfuscateNames_distinct (New None zeros).1
           [("x", false); ("y", false)]%string zeros).
  - apply New_counters_below.
  - apply NoDup_cons. split; [| apply NoDup_singleton].
    intros H. apply list_elem_of_singleton in H. discriminate.
  - repeat constructor.
Defined.
(** ** The patch passes keep the size of the buffer *)

Section PatchSize.

Lemma slice_length (data : bytes) (i j : nat) :
  length (slice data i j) = Nat.min (j - i) (length data - i).
Proof. unfold slice. rewrite length_take, length_drop. reflexivity. Qed.

Lemma slice_match_in_range (data p : bytes) (j : nat) :
  slice data j (j + length p) = p -> p = [] ∨ (j + length p <= length data)%nat.
Proof.
  intros H. apply (f_equal length) in H. rewrite slice_length in H.
  destruct p as [|c p]; [left; reflexivity | right]. cbn [length] in *. lia.
Qed.

Lemma copy_at_nil (data : bytes) (j : nat) : copy_at data j [] = data.
Proof. unfold copy_at. cbn [length app]. rewrite Nat.add_0_r. apply take_drop. Qed.

Lemma copy_at_length (data src : bytes) (j : nat) :
  (j + length src <= length data)%nat -> length (copy_at data j src) = length data.
Proof.
  intros H. unfold copy_at. rewrite !length_app, length_take, length_drop. lia.
Qed.

Lemma copy_at_match_length (data p q : bytes) (j : nat) :
  slice data j (j + length p) = p -> (length q <= length p)%nat ->
  length (copy_at data j q) = length data.
Proof.
  intros Hm Hle. destruct (slice_match_in_range _ _ _ Hm) as [-> | Hr].
  - destruct q; [|cbn in Hle; lia]. rewrite copy_at_nil. reflexivity.
  - apply copy_at_length. lia.
Qed.

Lemma copy_at_lookup_outside (data src : bytes) (j i : nat) :
  (j + length src <= length data)%nat ->
  (i < j ∨ j + length src <= i)%nat ->
  copy_at data j src !! i = data !! i.
Proof.
  intros Hr Hi. unfold copy_at. destruct Hi as [Hi | Hi].
  - rewrite lookup_app_l by (rewrite length_take; lia).
    apply lookup_take_lt. exact Hi.
  - rewrite lookup_app_r by (rewrite length_take; lia).
    rewrite lookup_app_r by (rewrite length_take; lia).
    rewrite lookup_drop, length_take. f_equal. lia.
Qed.

Lemma replacePrefix_loop_length (n : nat) :
  ∀ j data p q log,
    length (replacePrefix_loop n j data p q log).1 = length data.
Proof.
  induction n as [|n IH]; intros j data p q log; cbn [replacePrefix_loop];
    [reflexivity|].
  destruct (bytes_Equal _ p) eqn:Em; [| apply IH].
  apply bool_decide_eq_true in Em.
  destruct (negb _); [apply IH|].
  destruct (Nat.eqb_spec (length q) (length p)) as [Heq|Hne].
  { rewrite IH. apply (copy_at_match_length data p q j Em). lia. }
  destruct (Nat.ltb_spec (length q) (length p)); [| apply IH].
  rewrite IH. apply (copy_at_match_length data p q j Em). lia.
Qed.

Lemma replacePrefixes_length (patterns : list string) :
  ∀ replacements data offset log,
    length (replacePrefixes data offset patterns replacements log).1 = length data.
Proof.
  induction patterns as [|p ps IH]; intros [|q qs] data offset log;
    cbn [replacePrefixes]; try reflexivity.
  destruct (replacePrefix data offset p q log) as [data1 log1] eqn:E.
  rewrite IH.
  replace data1 with (replacePrefix data offset p q log).1 by (rewrite E; reflexivity).
  unfold replacePrefix. apply replacePrefix_loop_length.
Qed.

Lemma replacePath_loop_length (fuel : nat) :
  ∀ j data p r log,
    length (replacePath_loop fuel j data p r log).1 = length data.
Proof.
  induction fuel as [|fuel IH]; intros j data p r log; cbn [replacePath_loop];
    [reflexivity|].
  destruct (Z.ltb_spec (Z.of_nat j) (Z.of_nat (length data) - Z.of_nat (length p)));
    [|reflexivity].
  destruct (bytes_Equal _ p); [| apply IH].
  destruct (negb _); [apply IH|].
  destruct (Nat.leb_spec (length r) (length p)); [| apply IH].
  rewrite IH. apply patch_padded_length; lia.
Qed.

Lemma replacePaths_length (entries : list (string * string)) :
  ∀ data log, length (replacePaths entries data log).1 = length data.
Proof.
  induction entries as [|[original replacement] rest IH]; intros data log;
    cbn [replacePaths]; [reflexivity|].
  destruct (lookup_bool standardLibs_paths _); [apply IH|].
  destruct (Contains_slash _); cbn [negb]; [| apply IH].
  match goal with |- context [replacePath_loop ?f ?j ?d ?p ?r ?l] =>
    pose proof (replacePath_loop_length f j d p r l) as Hl;
    destruct (replacePath_loop f j d p r l) as [data1 log1] end.
  cbn [fst] in Hl. rewrite IH. exact Hl.
Qed.

Lemma replaceProjectPackagePathsGlobal_length (cfg : LinkConfig) (data : bytes) :
  length (replaceProjectPackagePathsGlobal cfg data).1 = length data.
Proof.
  unfold replaceProjectPackagePathsGlobal.
  destruct (_ =? _)%nat; [reflexivity | apply replacePaths_length].
Qed.

Lemma obfuscateFunctionNames_length (cfg : LinkConfig) (data : bytes) (offset : Z) :
  post (obfuscateFunctionNames cfg data offset)
       (fun res => length res.1.1 = length data).
Proof.
  unfold obfuscateFunctionNames.
  eapply post_bind with (P := fun _ => True); [intros r; exact I|].
  intros [patterns replacements] _.
  pose proof (replacePrefixes_length patterns replacements data offset []) as H1.
  destruct (replacePrefixes data offset patterns replacements []) as [data1 log1].
  pose proof (replaceProjectPackagePathsGlobal_length cfg data1) as H2.
  destruct (replaceProjectPackagePathsGlobal cfg data1) as [data2 paths].
  apply post_ret. cbn [fst] in *. congruence.
Qed.

Lemma kept_unmodified (cfg : LinkConfig) (data : bytes) (e : option error) :
  kept cfg data (data, false, e).
Proof. split; [reflexivity|]. split; [reflexivity | discriminate]. Qed.

Lemma modifyPclntab_kept (cfg : LinkConfig) (data : bytes) (offset : Z) :
  post (modifyPclntab cfg data offset) (kept cfg data).
Proof.
  unfold modifyPclntab.
  destruct (_ || _); [apply post_ret, kept_unmodified|].
  destruct (DisablePclntab cfg) eqn:Ed; [apply post_ret, kept_unmodified|].
  destruct (RemoveFuncNames cfg) eqn:Er; [|apply post_ret, kept_unmodified].
  eapply post_bind; [apply obfuscateFunctionNames_length|].
  intros [[newData log] paths] Hlen. apply post_ret.
  cbn [fst snd] in *. split; [exact Hlen|]. split; [discriminate|].
  intros _. repeat split; assumption.
Qed.

Lemma process_by_offset_kept sections candidate (cfg : LinkConfig) (data : bytes) :
  post (process_by_offset sections candidate cfg data) (kept cfg data).
Proof.
  unfold process_by_offset.
  destruct (_ <? 0); [| apply modifyPclntab_kept].
  destruct (_ <? 0); [apply post_ret, kept_unmodified | apply modifyPclntab_kept].
Qed.

Lemma process_kept (P : Containers) (format : string) (cfg : LinkConfig) (data : bytes)
    processFormat :
  process P format = Some processFormat ->
  post (processFormat cfg data) (kept cfg data).
Proof.
  unfold process. intros H.
  destruct (bool_decide (format = "ELF"%string)).
  { injection H as <-. unfold processELF.
    destruct (elf_NewFile P data); [| apply post_ret, kept_unmodified].
    destruct (searchSections _ _); [apply modifyPclntab_kept|].
    destruct (_ <? 0); [apply post_ret, kept_unmodified | apply modifyPclntab_kept]. }
  destruct (bool_decide (format = "PE"%string)).
  { injection H as <-. unfold processPE.
    destruct (pe_NewFile P data); [| apply post_ret, kept_unmodified].
    apply process_by_offset_kept. }
  destruct (bool_decide (format = "Mach-O"%string)); [|discriminate].
  injection H as <-. unfold processMachO.
  destruct (macho_NewFile P data); [| apply post_ret, kept_unmodified].
  apply process_by_offset_kept.
Qed.

Lemma postProcessBinary_outcome
    (P : Containers) (cfg : LinkConfig) (outputBin : string) (fs : FS) :
  post (postProcessBinary P cfg outputBin fs)
       (fun res => match ReadFile fs outputBin with
                   | None => res = (Some ErrReadFile, fs)
                   | Some data => outcome outputBin fs data cfg res
                   end).
Proof.
  unfold postProcessBinary.
  destruct (ReadFile fs outputBin) as [data|]; [| apply post_ret; reflexivity].
  destruct (process P (detectBinaryFormat data)) as [pf|] eqn:Epf;
    [| apply post_ret; constructor].
  eapply post_bind; [exact (process_kept P _ cfg data pf Epf)|].
  intros [[newData modified] err] (Hlen & Hsame & Hmod). cbn [fst snd] in *.
  destruct err as [e|]; [apply post_ret; constructor|].
  destruct modified; [| apply post_ret; constructor].
  destruct (Hmod eq_refl) as (_ & Hd & Hr).
  unfold WriteFile.
  destruct (faults fs !! (outputBin +:+ ".backup")) as [[|n]|] eqn:Eb;
    [apply post_ret; constructor | apply post_ret; constructor; assumption |].
  cbn [negb faults].
  destruct (faults fs !! outputBin) as [[|n]|] eqn:Eo; apply post_ret;
    constructor; assumption.
Qed.

End PatchSize.
(** X1.  The size of the binary.  [postProcessBinary] never makes the file at
    [outputBin] longer, and the file has afterwards exactly as many bytes as
    before unless the last write, the one to [outputBin] itself, fails:
    both patch passes overwrite bytes in place, and only a write that fails
    after the file was opened leaves it shorter.  After a nil result the
    size is the same. *)
Theorem patched_binary_same_size
    (P : Containers) (cfg : LinkConfig) (outputBin : string) (fs : FS)
    (data : bytes) (r : Rand) :
  ReadFile fs outputBin = Some data ->
  ∃ data',
    ReadFile (postProcessBinary P cfg outputBin fs r).1.2 outputBin = Some data' ∧
    (length data' <= length data)%nat ∧
    ((postProcessBinary P cfg outputBin fs r).1.1 ≠ Some ErrWrite ->
     length data' = length data) ∧
    (outputBin ∉ unwritable fs -> length data' = length data).
Proof.
  intros Hread. pose proof (postProcessBinary_outcome P cfg outputBin fs r) as H.
  cbn beta in H. rewrite Hread in H.
  revert H. generalize (postProcessBinary P cfg outputBin fs r).1. intros res H.
  destruct H as [e | n Hd Hr Hf | Hd Hr Hf | n newData Hd Hr Hlen Hf
                 | newData Hd Hr Hlen];
    unfold ReadFile; cbn [fst snd files].
  - exists data. split; [exact Hread|]. repeat split; reflexivity || lia.
  - exists data. split; [| repeat split; reflexivity || lia].
    rewrite lookup_insert_ne by apply backup_path_differs. exact Hread.
  - exists data. split; [| repeat split; reflexivity || lia].
    rewrite lookup_insert_ne by apply backup_path_differs. exact Hread.
  - exists (take n newData). split; [apply lookup_insert_eq|].
    rewrite length_take. split; [lia|]. split; [intros Hne; contradiction|].
    intros Hw. unfold unwritable in Hw. apply not_elem_of_dom in Hw.
    rewrite Hf in Hw. discriminate.
  - exists newData. split; [apply lookup_insert_eq|].
    repeat split; lia.
Qed.

Lemma patched_binary_same_size_witness :
  ∃ data',
    ReadFile (postProcessBinary header_only default_LinkConfig "app"
                (fs_with "app" elf_with_main) zeros).1.2 "app" = Some data' ∧
    length data' = length elf_with_main.
Proof.
  destruct (patched_binary_same_size header_only default_LinkConfig "app"
              (fs_with "app" elf_with_main) elf_with_main zeros)
    as (data' & Hread & _ & Hsame & _); [reflexivity|].
  exists data'. split; [exact Hread|]. apply Hsame. vm_compute. discriminate.
Defined.

(** X2.  No rewrite without a backup.  For every outcome of [postProcessBinary],
    also the failing ones: if the content of [outputBin] has changed, the
    file [outputBin + ".backup"] holds the content that [outputBin] had
    before; no other file is touched. *)
Theorem binary_rewritten_only_after_backup
    (P : Containers) (cfg : LinkConfig) (outputBin : string) (fs : FS) (r : Rand) :
  (ReadFile (postProcessBinary P cfg outputBin fs r).1.2 outputBin
     ≠ ReadFile fs outputBin ->
   ReadFile (postProcessBinary P cfg outputBin fs r).1.2 (outputBin +:+ ".backup")
     = ReadFile fs outputBin) ∧
  (∀ path, path ≠ outputBin -> path ≠ outputBin +:+ ".backup" ->
     ReadFile (postProcessBinary P cfg outputBin fs r).1.2 path = ReadFile fs path).
Proof.
  pose proof (postProcessBinary_outcome P cfg outputBin fs r) as H. cbn beta in H.
  revert H. generalize (postProcessBinary P cfg outputBin fs r).1. intros res H.
  destruct (ReadFile fs outputBin) as [data|] eqn:Hread.
  - destruct H as [e | n Hd Hr Hf | Hd Hr Hf | n newData Hd Hr Hlen Hf
                   | newData Hd Hr Hlen];
      unfold ReadFile in *; cbn [fst snd files].
    + split; [intros Hne; contradiction | reflexivity].
    + split.
      * intros Hne. exfalso. apply Hne.
        rewrite lookup_insert_ne by apply backup_path_differs. exact Hread.
      * intros path _ Hp. apply lookup_insert_ne. congruence.
    + split.
      * intros _. apply lookup_insert_eq.
      * intros path _ Hp. apply lookup_insert_ne. congruence.
    + split.
      * intros _. rewrite lookup_insert_ne by (apply not_eq_sym, backup_path_differs).
        apply lookup_insert_eq.
      * intros path Hp1 Hp2. rewrite !lookup_insert_ne by congruence. reflexivity.
    + split.
      * intros _. rewrite lookup_insert_ne by (apply not_eq_sym, backup_path_differs).
        apply lookup_insert_eq.
      * intros path Hp1 Hp2. rewrite !lookup_insert_ne by congruence. reflexivity.
  - rewrite H. cbn [fst snd]. split; [intros Hne; congruence | reflexivity].
Qed.

Lemma binary_rewritten_only_after_backup_witness :
  ReadFile (postProcessBinary header_only default_LinkConfig "app"
              (fs_with "app" elf_with_main) zeros).1.2 "app.backup"
  = Some elf_with_main.
Proof.
  destruct (binary_rewritten_only_after_backup header_only default_LinkConfig "app"
              (fs_with "app" elf_with_main) zeros) as [H _].
  apply H. vm_compute. discriminate.
Defined.

(** X3.  The switches.  With [DisablePclntab] set, or with [RemoveFuncNames]
    unset, [postProcessBinary] writes no file, whatever the binary holds. *)
Theorem disabled_patching_writes_nothing
    (P : Containers) (cfg : LinkConfig) (outputBin : string) (fs : FS) (r : Rand) :
  DisablePclntab cfg = true ∨ RemoveFuncNames cfg = false ->
  (postProcessBinary P cfg outputBin fs r).1.2 = fs.
Proof.
  intros Hoff. pose proof (postProcessBinary_outcome P cfg outputBin fs r) as H.
  cbn beta in H.
  revert H. generalize (postProcessBinary P cfg outputBin fs r).1. intros res H.
  destruct (ReadFile fs outputBin) as [data|].
  - destruct H as [e | n Hd Hr Hf | Hd Hr Hf | n newData Hd Hr Hlen Hf
                   | newData Hd Hr Hlen]; [reflexivity | | | |];
      destruct Hoff; congruence.
  - rewrite H. reflexivity.
Qed.

Lemma disabled_patching_writes_nothing_witness :
  (postProcessBinary header_only no_pclntab_LinkConfig "app"
     (fs_with "app" elf_with_main) zeros).1.2
  = fs_with "app" elf_with_main.
Proof.
  apply (disabled_patching_writes_nothing header_only no_pclntab_LinkConfig "app"
           (fs_with "app" elf_with_main) zeros).
  left. reflexivity.
Defined.

(** ** The window of the prefix pass *)

Section Window.

Lemma copy_at_match_lookup (data p q : bytes) (j i : nat) :
  slice data j (j + length p) = p -> (length q <= length p)%nat ->
  (i < j ∨ j + length p <= i)%nat ->
  copy_at data j q !! i = data !! i.
Proof.
  intros Hm Hle Hi. destruct (slice_match_in_range _ _ _ Hm) as [-> | Hr].
  - destruct q; [|cbn in Hle; lia]. rewrite copy_at_nil. reflexivity.
  - apply copy_at_lookup_outside; lia.
Qed.

Lemma replacePrefix_loop_outside (n : nat) :
  ∀ j data p q log i,
    (i < j ∨ j + n + length p <= i)%nat ->
    (replacePrefix_loop n j data p q log).1 !! i = data !! i.
Proof.
  induction n as [|n IH]; intros j data p q log i Hi; cbn [replacePrefix_loop];
    [reflexivity|].
  destruct (bytes_Equal _ p) eqn:Em; [| apply IH; lia].
  apply bool_decide_eq_true in Em.
  destruct (negb _); [apply IH; lia|].
  destruct (Nat.eqb_spec (length q) (length p)) as [Heq|Hne].
  { rewrite IH by lia. apply (copy_at_match_lookup data p q j i Em); lia. }
  destruct (Nat.ltb_spec (length q) (length p)); [| apply IH; lia].
  rewrite IH by lia. apply (copy_at_match_lookup data p q j i Em); lia.
Qed.

Lemma pclntabSearchEnd_le (data : bytes) (offset : Z) :
  pclntabSearchEnd data offset <= Z.of_nat (length data).
Proof. unfold pclntabSearchEnd. destruct (Z.ltb_spec (Z.of_nat (length data)) (offset + 10 * 1024 * 1024)); lia. Qed.

Lemma replacePrefix_outside (data : bytes) (offset : Z) (p q : string)
    (log : list Write) (i : nat) :
  0 <= offset ->
  Z.of_nat i < offset ∨ pclntabSearchEnd data offset <= Z.of_nat i ->
  (replacePrefix data offset p q log).1 !! i = data !! i.
Proof.
  intros Hoff Hi. unfold replacePrefix.
  set (pb := list_ascii_of_string p).
  destruct (Z.to_nat (pclntabSearchEnd data offset - Z.of_nat (length pb) - offset))
    as [|n] eqn:En; [reflexivity|].
  rewrite <- En. apply replacePrefix_loop_outside. lia.
Qed.

Lemma replacePrefixes_outside (patterns : list string) :
  ∀ replacements data offset log i,
    0 <= offset ->
    Z.of_nat i < offset ∨ pclntabSearchEnd data offset <= Z.of_nat i ->
    (replacePrefixes data offset patterns replacements log).1 !! i = data !! i.
Proof.
  induction patterns as [|p ps IH]; intros [|q qs] data offset log i Hoff Hi;
    cbn [replacePrefixes]; try reflexivity.
  pose proof (replacePrefix_outside data offset p q log i Hoff Hi) as H1.
  assert (Hlen : length (replacePrefix data offset p q log).1 = length data)
    by (unfold replacePrefix; apply replacePrefix_loop_length).
  destruct (replacePrefix data offset p q log) as [data1 log1]. cbn [fst] in *.
  rewrite IH; [exact H1 | exact Hoff |].
  unfold pclntabSearchEnd in *. rewrite Hlen. exact Hi.
Qed.

End Window.

(** X4.  The window.  With no custom package replacements, [modifyPclntab]
    changes no byte before the pclntab offset and no byte that lies 10 MiB
    or more behind it. *)
Theorem default_patch_stays_in_window
    (cfg : LinkConfig) (data : bytes) (offset : Z) (r : Rand) (i : nat) :
  PackageReplacements cfg = [] ->
  Z.of_nat i < offset ∨ offset + 10 * 1024 * 1024 <= Z.of_nat i ->
  (modifyPclntab cfg data offset r).1.1.1 !! i = data !! i.
Proof.
  intros Hnone Hi. unfold modifyPclntab.
  destruct (Z.ltb_spec offset 0) as [Hneg|Hoff]; [reflexivity|]. cbn [orb].
  destruct (_ <? _); [reflexivity|].
  destruct (DisablePclntab cfg); [reflexivity|].
  destruct (RemoveFuncNames cfg); [|reflexivity].
  unfold obfuscateFunctionNames, mbind, R_bind.
  destruct (functionNamePatterns cfg r) as [[patterns replacements] r1].
  pose proof (replacePrefixes_length patterns replacements data offset []) as Hlen.
  assert (Hout : Z.of_nat i < offset ∨ pclntabSearchEnd data offset <= Z.of_nat i).
  { destruct Hi as [Hi|Hi]; [left; exact Hi|].
    destruct (Nat.lt_ge_cases i (length data)) as [Hin|Hin].
    - right. unfold pclntabSearchEnd.
      destruct (Z.ltb_spec (Z.of_nat (length data)) (offset + 10 * 1024 * 1024)); lia.
    - right. pose proof (pclntabSearchEnd_le data offset). lia. }
  pose proof (replacePrefixes_outside patterns replacements data offset [] i Hoff Hout)
    as H1.
  destruct (replacePrefixes data offset patterns replacements []) as [data1 log1].
  unfold replaceProjectPackagePathsGlobal. rewrite Hnone.
  cbn [length Nat.eqb mret R_ret fst snd] in *. exact H1.
Qed.

Lemma default_patch_stays_in_window_witness :
  (modifyPclntab default_LinkConfig elf_with_main 64 zeros).1.1.1 !! 3%nat
  = elf_with_main !! 3%nat.
Proof.
  apply (default_patch_stays_in_window default_LinkConfig elf_with_main 64 zeros 3).
  - reflexivity.
  - left. reflexivity.
Defined.
(** ** The strict replacement and the denylist *)

Section Strict.

Lemma bytes_HasPrefix_spec (s sub : bytes) :
  bytes_HasPrefix s sub = true ↔ starts_with sub s.
Proof.
  revert s. induction sub as [|p sub IH]; intros s; cbn [bytes_HasPrefix].
  - split; [intros _; exists s; reflexivity | intros _; destruct s; reflexivity].
  - destruct s as [|c s]; cbn [bytes_HasPrefix].
    + split; [discriminate | intros [post H]; discriminate].
    + rewrite andb_true_iff, IH. unfold eqb_byte. rewrite bool_decide_eq_true.
      split.
      * intros [-> [post ->]]. exists post. reflexivity.
      * intros [post H]. injection H as -> ->. split; [reflexivity | exists post; reflexivity].
Qed.

Lemma bytes_Contains_spec (s sub : bytes) :
  bytes_Contains s sub = true ↔ occurs_in sub s.
Proof.
  induction s as [|c s IH]; cbn [bytes_Contains]; rewrite orb_true_iff, bytes_HasPrefix_spec.
  - split.
    + intros [[post H] | H]; [| discriminate]. exists [], post. exact H.
    + intros (pre & post & H). left.
      destruct pre; [exists post; exact H | discriminate].
  - rewrite IH. split.
    + intros [[post H] | (pre & post & H)].
      * exists [], post. exact H.
      * exists (c :: pre), post. rewrite H. reflexivity.
    + intros (pre & post & H). destruct pre as [|c' pre].
      * left. exists post. exact H.
      * right. injection H as -> ->. exists pre, post. reflexivity.
Qed.

Lemma existsb_elem_of {A} (f : A -> bool) (l : list A) :
  existsb f l = true ↔ ∃ x, x ∈ l ∧ f x = true.
Proof.
  rewrite existsb_exists. split; intros (x & Hx & Hf); exists x;
    (split; [apply list_elem_of_In; exact Hx | exact Hf]).
Qed.

Lemma isSafeToReplace_false (data : bytes) (pos length_ : nat) :
  isSafeToReplace data pos length_ = false ↔
  (∃ d, d ∈ dangerousPatterns ∧ occurs_in d (contextBefore data pos)) ∨
  (∃ d, d ∈ afterDangerousPatterns ∧ starts_with d (contextAfter data pos length_)).
Proof.
  unfold isSafeToReplace. fold (contextBefore data pos).
  fold (contextAfter data pos length_).
  destruct (existsb (bytes_Contains (contextBefore data pos)) dangerousPatterns) eqn:E1.
  { split; [intros _; left | reflexivity].
    apply existsb_elem_of in E1 as (d & Hd & Hc). exists d.
    split; [exact Hd | apply bytes_Contains_spec; exact Hc]. }
  destruct (existsb (bytes_HasPrefix (contextAfter data pos length_))
              afterDangerousPatterns) eqn:E2.
  { split; [intros _; right | reflexivity].
    apply existsb_elem_of in E2 as (d & Hd & Hc). exists d.
    split; [exact Hd | apply bytes_HasPrefix_spec; exact Hc]. }
  split; [discriminate|]. intros [(d & Hd & Hc) | (d & Hd & Hc)]; exfalso.
  - apply not_true_iff_false in E1. apply E1, existsb_elem_of. exists d.
    split; [exact Hd | apply bytes_Contains_spec; exact Hc].
  - apply not_true_iff_false in E2. apply E2, existsb_elem_of. exists d.
    split; [exact Hd | apply bytes_HasPrefix_spec; exact Hc].
Qed.

Lemma strict_trace_app (log1 log2 : list PathWrite) :
  ∀ d0 d1 d2,
    strict_trace d0 log1 d1 -> strict_trace d1 log2 d2 ->
    strict_trace d0 (log1 ++ log2) d2.
Proof.
  induction log1 as [|w log1 IH]; intros d0 d1 d2 H1 H2; cbn in *.
  - subst d1. exact H2.
  - destruct H1 as (Hb & Hg & Ht).
    split; [assumption|]. split; [assumption|].
    eapply IH; eassumption.
Qed.

Lemma isSafeToReplaceStrict_true (data : bytes) (pos length_ : nat) :
  isSafeToReplaceStrict data pos length_ = true ->
  isSafeToReplace data pos length_ = true ∧
  ((0 < pos)%nat -> word_byte (at_ data (pos - 1)) = false) ∧
  ((pos + length_ < length data)%nat -> word_byte (at_ data (pos + length_)) = false).
Proof.
  unfold isSafeToReplaceStrict. fold (word_byte (at_ data (pos - 1))).
  fold (word_byte (at_ data (pos + length_))).
  destruct (isSafeToReplace data pos length_); cbn [negb]; [|discriminate].
  destruct (Nat.ltb_spec 0 pos) as [Hp|Hp]; cbn [andb].
  - destruct (word_byte (at_ data (pos - 1))); [discriminate|].
    destruct (Nat.ltb_spec (pos + length_) (length data)) as [Hn|Hn]; cbn [andb].
    + destruct (word_byte (at_ data (pos + length_))); [discriminate|]. intros _.
      repeat split.
    + intros _. repeat split. lia.
  - destruct (Nat.ltb_spec (pos + length_) (length data)) as [Hn|Hn]; cbn [andb].
    + destruct (word_byte (at_ data (pos + length_))); [discriminate|]. intros _.
      repeat split. lia.
    + intros _. repeat split; lia.
Qed.

Lemma replaceBytesStrict_loop_trace (fuel : nat) :
  ∀ i data p r log,
    (length r <= length p)%nat ->
    ∃ ext, (replaceBytesStrict_loop fuel i data p r log).2 = log ++ ext ∧
           strict_trace data ext (replaceBytesStrict_loop fuel i data p r log).1 ∧
           length (replaceBytesStrict_loop fuel i data p r log).1 = length data.
Proof.
  induction fuel as [|fuel IH]; intros i data p r log Hle;
    cbn [replaceBytesStrict_loop].
  - exists []. rewrite app_nil_r. repeat split.
  - destruct (Z.ltb_spec (Z.of_nat i) (Z.of_nat (length data) - Z.of_nat (length p)));
      [| exists []; rewrite app_nil_r; repeat split].
    destruct (bytes_Equal _ p) eqn:Eeq; [| apply IH; exact Hle].
    destruct (isSafeToReplaceStrict data i (length p)) eqn:Esafe;
      cbn [negb]; [| apply IH; exact Hle].
    set (w := {| pw_pos := i; pw_before := data; pw_pattern := p;
                 pw_replacement := r |}).
    destruct (IH (S (i + (length p - 1))) (patch_padded data i p r) p r
                 (log ++ [w]) Hle) as (ext & Hlog & Htrace & Hlen).
    exists (w :: ext). split; [| split].
    + rewrite Hlog, <- app_assoc. reflexivity.
    + cbn [strict_trace]. split; [reflexivity|]. split; [| exact Htrace].
      clear Hlog Htrace Hlen.
      unfold strict_guard. subst w.
      cbn [pw_pos pw_before pw_pattern pw_replacement].
      apply bool_decide_eq_true in Eeq.
      apply isSafeToReplaceStrict_true in Esafe as (H1 & H2 & H3).
      split; [exact Eeq|]. split; [lia|]. split; [exact H1|].
      split; [exact H2 | apply H3; lia].
    + rewrite Hlen. apply patch_padded_length; lia.
Qed.

Lemma replaceBytesStrict_loop_unfold
    (fuel i : nat) (data p r : bytes) (log : list PathWrite) :
  replaceBytesStrict_loop (S fuel) i data p r log =
  if Z.of_nat i <? Z.of_nat (length data) - Z.of_nat (length p) then
    if bytes_Equal (slice data i (i + length p)) p then
      if negb (isSafeToReplaceStrict data i (length p)) then
        replaceBytesStrict_loop fuel (S i) data p r log
      else
        replaceBytesStrict_loop fuel (S (i + (length p - 1)))
          (patch_padded data i p r) p r
          (log ++ [{| pw_pos := i; pw_before := data; pw_pattern := p;
                      pw_replacement := r |}])
    else replaceBytesStrict_loop fuel (S i) data p r log
  else (data, log).
Proof. reflexivity. Qed.

(** The loop ends by its own condition: fuel beyond the length of the
    buffer changes nothing. *)
Lemma replaceBytesStrict_loop_fuel (fuel : nat) :
  ∀ extra i data p r log,
    (length r <= length p)%nat -> (length data <= fuel + i)%nat ->
    replaceBytesStrict_loop (fuel + extra) i data p r log
    = replaceBytesStrict_loop fuel i data p r log.
Proof.
  induction fuel as [|fuel IH]; intros extra i data p r log Hle Hfuel.
  - destruct extra as [|extra]; [reflexivity|]. cbn [Nat.add].
    rewrite replaceBytesStrict_loop_unfold.
    destruct (Z.ltb_spec (Z.of_nat i) (Z.of_nat (length data) - Z.of_nat (length p)));
      [lia | reflexivity].
  - cbn [Nat.add].
    rewrite (replaceBytesStrict_loop_unfold (fuel + extra) i data p r log),
      (replaceBytesStrict_loop_unfold fuel i data p r log).
    destruct (Z.ltb_spec (Z.of_nat i) (Z.of_nat (length data) - Z.of_nat (length p)));
      [|reflexivity].
    destruct (bytes_Equal _ p); [| apply IH; lia].
    destruct (negb _); [apply IH; lia|].
    apply IH; [exact Hle|]. rewrite patch_padded_length by lia. lia.
Qed.

Lemma replacePath_loop_patterns (fuel : nat) :
  ∀ j data p r log (Q : PathWrite -> Prop),
    (∀ before pos, Q {| pw_pos := pos; pw_before := before; pw_pattern := p;
                        pw_replacement := r |}) ->
    Forall Q log -> Forall Q (replacePath_loop fuel j data p r log).2.
Proof.
  induction fuel as [|fuel IH]; intros j data p r log Q HQ Hlog;
    cbn [replacePath_loop]; [exact Hlog|].
  destruct (_ <? _); [| exact Hlog].
  destruct (bytes_Equal _ p); [| apply IH; assumption].
  destruct (negb _); [apply IH; assumption|].
  destruct (_ <=? _)%nat; [| apply IH; assumption].
  apply IH; [exact HQ|]. apply Forall_app. split; [exact Hlog|].
  repeat constructor. apply HQ.
Qed.

Lemma replacePaths_patterns (entries : list (string * string)) :
  ∀ data log (Q : PathWrite -> Prop),
    (∀ original replacement before pos,
        (original, replacement) ∈ entries ->
        Contains_slash (TrimSuffix_dot original) = true ->
        lookup_bool standardLibs_paths (TrimSuffix_dot original) = false ->
        Q {| pw_pos := pos; pw_before := before;
             pw_pattern := list_ascii_of_string (TrimSuffix_dot original);
             pw_replacement := list_ascii_of_string (TrimSuffix_dot replacement) |}) ->
    Forall Q log -> Forall Q (replacePaths entries data log).2.
Proof.
  induction entries as [|[original replacement] rest IH]; intros data log Q HQ Hlog;
    cbn [replacePaths]; [exact Hlog|].
  assert (Hrest : ∀ o r before pos, (o, r) ∈ rest ->
            Contains_slash (TrimSuffix_dot o) = true ->
            lookup_bool standardLibs_paths (TrimSuffix_dot o) = false ->
            Q {| pw_pos := pos; pw_before := before;
                 pw_pattern := list_ascii_of_string (TrimSuffix_dot o);
                 pw_replacement := list_ascii_of_string (TrimSuffix_dot r) |}).
  { intros o r before pos Hin. apply HQ. right. exact Hin. }
  destruct (lookup_bool standardLibs_paths _) eqn:Estd; [apply IH; assumption|].
  destruct (Contains_slash _) eqn:Eslash; cbn [negb]; [| apply IH; assumption].
  match goal with |- context [replacePath_loop ?f ?j ?d ?p ?r ?l] =>
    pose proof (replacePath_loop_patterns f j d p r l Q) as Hl;
    destruct (replacePath_loop f j d p r l) as [data1 log1] end.
  cbn [snd] in Hl. apply IH; [exact Hrest|]. apply Hl; [| exact Hlog].
  intros before pos. apply HQ; [left | exact Eslash | exact Estd].
Qed.

End Strict.

(** X5.  The denylist.  [isSafeToReplace] rejects a position exactly when one of
    the seven system-path fragments occurs in the up to 100 bytes before it,
    or [.framework] or [.dylib] starts right behind the match. *)
Theorem isSafeToReplace_denylist (data : bytes) (pos length_ : nat) :
  isSafeToReplace data pos length_ = false ↔
  (∃ d, d ∈ dangerousPatterns ∧ occurs_in d (contextBefore data pos)) ∨
  (∃ d, d ∈ afterDangerousPatterns ∧ starts_with d (contextAfter data pos length_)).
Proof. exact (isSafeToReplace_false data pos length_). Qed.

(** X6.  The strict replacement.  [replaceBytesStrict] replaces nothing when the
    pattern has fewer than 10 bytes or the replacement is longer than the
    pattern; otherwise every occurrence it replaces passed the denylist,
    has no letter, digit or underscore on either side and is followed by at
    least one byte, and the buffer keeps its size.  The scan ends by its own
    condition: more iterations than the buffer has bytes change nothing. *)
Theorem replaceBytesStrict_guarded (data pattern replacement : bytes) :
  ((length pattern < 10 ∨ length pattern < length replacement)%nat ->
   replaceBytesStrict data pattern replacement = (data, [])) ∧
  strict_trace data (replaceBytesStrict data pattern replacement).2
    (replaceBytesStrict data pattern replacement).1 ∧
  length (replaceBytesStrict data pattern replacement).1 = length data ∧
  ((10 <= length pattern ∧ length replacement <= length pattern)%nat ->
   ∀ extra,
     replaceBytesStrict_loop (length data + extra) 0 data pattern replacement []
     = replaceBytesStrict data pattern replacement).
Proof.
  unfold replaceBytesStrict.
  destruct (Nat.ltb_spec (length pattern) (length replacement)) as [H1|H1].
  { repeat split. intros [_ H]. lia. }
  destruct (Nat.ltb_spec (length pattern) 10) as [H2|H2].
  { repeat split. intros [H _]. lia. }
  split; [lia|].
  destruct (replaceBytesStrict_loop_trace (length data) 0 data pattern replacement [] H1)
    as (ext & Hlog & Htrace & Hlen).
  cbn [app] in Hlog. split; [rewrite Hlog; exact Htrace|]. split; [exact Hlen|].
  intros _ extra. apply replaceBytesStrict_loop_fuel; [exact H1 | lia].
Qed.

Lemma replaceBytesStrict_guarded_witness :
  replaceBytesStrict system_path_data (list_ascii_of_string "main.") [] 
  = (system_path_data, []).
Proof.
  apply (replaceBytesStrict_guarded system_path_data (list_ascii_of_string "main.") []).
  left. cbn. lia.
Defined.

(** X7.  The whole-file pass replaces project paths only: every replaced
    occurrence is the key of a configured replacement, without its final
    dot, that contains a slash and is no standard-library name; the bytes
    written are the value of that entry, without its final dot. *)
Theorem path_pass_replaces_slash_paths (cfg : LinkConfig) (data : bytes) :
  Forall (fun w => ∃ original replacement,
            (original, replacement) ∈ PackageReplacements cfg ∧
            pw_pattern w = list_ascii_of_string (TrimSuffix_dot original) ∧
            pw_replacement w = list_ascii_of_string (TrimSuffix_dot replacement) ∧
            Contains_slash (TrimSuffix_dot original) = true ∧
            lookup_bool standardLibs_paths (TrimSuffix_dot original) = false)
         (replaceProjectPackagePathsGlobal cfg data).2.
Proof.
  unfold replaceProjectPackagePathsGlobal.
  destruct (_ =? _)%nat; [constructor|].
  apply replacePaths_patterns; [| constructor].
  intros original replacement before pos Hin Hslash Hstd.
  exists original, replacement. repeat split; assumption.
Qed.
(** ** The short names of the linker obfuscator *)

Section ShortNames.

Import LinkerObfuscator.

Lemma u8_byte_of (z : Z) : 0 <= z < 256 -> u8 (byte_of z) = z.
Proof.
  intros H. unfold u8, byte_of. rewrite N_ascii_embedding by lia. lia.
Qed.

Lemma byte_of_inj (a b : Z) :
  0 <= a < 256 -> 0 <= b < 256 -> byte_of a = byte_of b -> a = b.
Proof.
  intros Ha Hb H. apply (f_equal u8) in H. rewrite !u8_byte_of in H by lia. exact H.
Qed.

Lemma rune_small (x : Z) : - 2 ^ 31 <= x < 2 ^ 31 -> rune x = x.
Proof. intros H. unfold rune. rewrite Z.mod_small by lia. lia. Qed.

Lemma string_of_rune_ascii (x : Z) :
  0 <= x < 128 -> string_of_rune (rune x) = String (byte_of x) EmptyString.
Proof.
  intros H. rewrite rune_small by lia. unfold string_of_rune, utf8.
  replace (x <? 0) with false by (symmetry; apply Z.ltb_ge; lia).
  replace (0x10FFFF <? x) with false by (symmetry; apply Z.ltb_ge; lia).
  replace (0xD800 <=? x) with false by (symmetry; apply Z.leb_gt; lia).
  replace (x <? 0x80) with true by (symmetry; apply Z.ltb_lt; lia).
  reflexivity.
Qed.

Lemma generateShortName_one (index : Z) :
  0 <= index < 26 ->
  generateShortName index = String (byte_of (97 + index)) EmptyString.
Proof.
  intros H. unfold generateShortName. change (u8 "a") with 97.
  replace (index <? 26) with true by (symmetry; apply Z.ltb_lt; lia).
  apply string_of_rune_ascii. lia.
Qed.

Lemma two_letters (index : Z) :
  26 <= index < 702 -> 0 <= index / 26 - 1 < 26 ∧ 0 <= index mod 26 < 26.
Proof.
  intros H. pose proof (Z.mod_pos_bound index 26 ltac:(lia)).
  assert (1 <= index / 26) by (apply Z.div_le_lower_bound; lia).
  assert (index / 26 < 27) by (apply Z.div_lt_upper_bound; lia). lia.
Qed.

Lemma generateShortName_two (index : Z) :
  26 <= index < 702 ->
  generateShortName index
  = String (byte_of (97 + (index / 26 - 1)))
      (String (byte_of (97 + index mod 26)) EmptyString).
Proof.
  intros H. unfold generateShortName. change (u8 "a") with 97.
  replace (index <? 26) with false by (symmetry; apply Z.ltb_ge; lia).
  cbn zeta. rewrite Z.quot_div_nonneg, Z.rem_mod_nonneg by lia.
  destruct (two_letters index H).
  rewrite !string_of_rune_ascii by lia. reflexivity.
Qed.

Lemma isLower_letter (k : Z) : 0 <= k < 26 -> isLower (byte_of (97 + k)) = true.
Proof.
  intros H. unfold isLower. rewrite u8_byte_of by lia.
  change (u8 "a") with 97. change (u8 "z") with 122.
  apply andb_true_iff. split; apply Z.leb_le; lia.
Qed.

Lemma generateShortName_inj (i j : Z) :
  0 <= i < 702 -> 0 <= j < 702 ->
  generateShortName i = generateShortName j -> i = j.
Proof.
  intros Hi Hj H.
  destruct (Z.lt_ge_cases i 26) as [Hi1|Hi2], (Z.lt_ge_cases j 26) as [Hj1|Hj2].
  - rewrite !generateShortName_one in H by lia. injection H as H.
    apply byte_of_inj in H; lia.
  - rewrite (generateShortName_one i), (generateShortName_two j) in H by lia.
    discriminate.
  - rewrite (generateShortName_one j), (generateShortName_two i) in H by lia.
    discriminate.
  - rewrite !generateShortName_two in H by lia. injection H as H1 H2.
    destruct (two_letters i ltac:(lia)), (two_letters j ltac:(lia)).
    apply byte_of_inj in H1; [| lia | lia]. apply byte_of_inj in H2; [| lia | lia].
    pose proof (Z.div_mod i 26 ltac:(lia)). pose proof (Z.div_mod j 26 ltac:(lia)).
    lia.
Qed.

Lemma generateShortName_shape (i : Z) :
  0 <= i < 702 ->
  lower_string (generateShortName i) ∧ 1 <= len (generateShortName i) <= 2.
Proof.
  intros Hi. destruct (Z.lt_ge_cases i 26).
  - rewrite generateShortName_one by lia. split; [| unfold len; cbn; lia].
    repeat constructor. apply isLower_letter. lia.
  - rewrite generateShortName_two by lia. split; [| unfold len; cbn; lia].
    destruct (two_letters i ltac:(lia)).
    repeat constructor; apply isLower_letter; lia.
Qed.

Lemma generateReplacements_loop_spec (packages : list string) :
  ∀ counter m,
    NoDup packages ->
    (∀ i pkg, packages !! i = Some pkg ->
       generateReplacements_loop packages counter m !! pkg
       = Some (generateShortName (counter + Z.of_nat i))) ∧
    (∀ pkg, pkg ∉ packages ->
       generateReplacements_loop packages counter m !! pkg = m !! pkg).
Proof.
  induction packages as [|p rest IH]; intros counter m Hnd;
    cbn [generateReplacements_loop].
  - split; [intros i pkg H; discriminate | reflexivity].
  - apply NoDup_cons in Hnd as [Hp Hrest].
    destruct (IH (counter + 1) (<[p := generateShortName counter]> m) Hrest)
      as [IH1 IH2].
    split.
    + intros [|i] pkg H; cbn in H.
      * injection H as <-. rewrite IH2 by exact Hp.
        rewrite lookup_insert_eq. do 2 f_equal. lia.
      * rewrite (IH1 i pkg H). do 2 f_equal. lia.
    + intros pkg Hpkg. apply not_elem_of_cons in Hpkg as [Hne Hnin].
      rewrite IH2 by exact Hnin. apply lookup_insert_ne. congruence.
Qed.

End ShortNames.

(** X8.  The short names.  For the first 702 indices [generateShortName] yields
    one or two lower-case letters, and different indices get different
    names. *)
Theorem generateShortName_distinct (i j : Z) :
  0 <= i < 702 -> 0 <= j < 702 ->
  (LinkerObfuscator.generateShortName i = LinkerObfuscator.generateShortName j -> i = j) ∧
  lower_string (LinkerObfuscator.generateShortName i) ∧
  1 <= len (LinkerObfuscator.generateShortName i) <= 2.
Proof.
  intros Hi Hj. split; [apply generateShortName_inj; assumption|].
  apply generateShortName_shape. exact Hi.
Qed.

Lemma generateShortName_distinct_witness :
  (LinkerObfuscator.generateShortName 25 = LinkerObfuscator.generateShortName 26 -> 25 = 26) ∧
  lower_string (LinkerObfuscator.generateShortName 25) ∧
  1 <= len (LinkerObfuscator.generateShortName 25) <= 2.
Proof. apply (generateShortName_distinct 25 26); lia. Defined.

(** X9.  The replacement map.  For up to 702 different packages
    [generateReplacements] gives every package an entry, the name of its
    position in the list, and no two packages share a replacement. *)
Theorem generateReplacements_distinct (packages : list string) :
  NoDup packages -> (length packages <= 702)%nat ->
  (∀ i pkg, packages !! i = Some pkg ->
     LinkerObfuscator.generateReplacements packages !! pkg
     = Some (LinkerObfuscator.generateShortName (Z.of_nat i))) ∧
  (∀ p q v, LinkerObfuscator.generateReplacements packages !! p = Some v ->
            LinkerObfuscator.generateReplacements packages !! q = Some v -> p = q).
Proof.
  intros Hnd Hlen. unfold LinkerObfuscator.generateReplacements.
  destruct (generateReplacements_loop_spec packages 0 ∅ Hnd) as [H1 H2].
  split; [exact H1|].
  assert (Hdom : ∀ p v,
            LinkerObfuscator.generateReplacements_loop packages 0 ∅ !! p = Some v ->
            ∃ i, packages !! i = Some p ∧
                 v = LinkerObfuscator.generateShortName (Z.of_nat i)).
  { intros p v Hp. destruct (decide (p ∈ packages)) as [Hin|Hnin].
    - apply list_elem_of_lookup in Hin as [i Hi]. exists i. split; [exact Hi|].
      rewrite (H1 i p Hi) in Hp. injection Hp as <-. reflexivity.
    - rewrite H2 in Hp by exact Hnin. rewrite lookup_empty in Hp. discriminate. }
  intros p q v Hp Hq.
  destruct (Hdom p v Hp) as (i & Hi & Ev), (Hdom q v Hq) as (j & Hj & Ev').
  pose proof (lookup_lt_Some _ _ _ Hi). pose proof (lookup_lt_Some _ _ _ Hj).
  assert (Z.of_nat i = Z.of_nat j)
    by (apply generateShortName_inj; [lia | lia | congruence]).
  assert (i = j) by lia. subst j. congruence.
Qed.

Lemma generateReplacements_distinct_witness :
  LinkerObfuscator.generateReplacements [ "example.com/m/pkg"; "example.com/m" ]%string
    !! "example.com/m"%string
  = Some (LinkerObfuscator.generateShortName 1).
Proof.
  destruct (generateReplacements_distinct [ "example.com/m/pkg"; "example.com/m" ]%string)
    as [H _].
  - apply NoDup_cons. split; [|apply NoDup_singleton].
    intros H. apply list_elem_of_singleton in H. discriminate.
  - cbn. lia.
  - apply (H 1%nat). reflexivity.
Defined.
(** ** The sort of [discoverProjectPackages] *)

Section Sort.

Lemma item_lookup (r : list string) (k : nat) (x : string) :
  r !! k = Some x -> item r (Z.of_nat k) = x.
Proof. intros H. unfold item. rewrite Nat2Z.id. apply nth_lookup_Some. exact H. Qed.

Lemma length_at_lookup (r : list string) (k : nat) (x : string) :
  r !! k = Some x -> length_at r k = len x.
Proof. intros H. unfold length_at. rewrite (item_lookup r k x H). reflexivity. Qed.

Lemma length_swap (r : list string) (i j : nat) : length (swap r i j) = length r.
Proof. unfold swap. rewrite !length_insert. reflexivity. Qed.

Lemma swap_Permutation (r : list string) (i j : nat) :
  (i < length r)%nat -> (j < length r)%nat -> swap r i j ≡ₚ r.
Proof.
  intros Hi Hj. unfold swap.
  destruct (lookup_lt_is_Some_2 r i Hi) as [x Hx].
  destruct (lookup_lt_is_Some_2 r j Hj) as [y Hy].
  rewrite (item_lookup r i x Hx), (item_lookup r j y Hy).
  apply Permutation_insert_swap; assumption.
Qed.

Lemma length_at_swap (r : list string) (i j k : nat) :
  (i < length r)%nat -> (j < length r)%nat -> i ≠ j ->
  length_at (swap r i j) k
  = if decide (k = i) then length_at r j
    else if decide (k = j) then length_at r i else length_at r k.
Proof.
  intros Hi Hj Hne.
  destruct (lookup_lt_is_Some_2 r i Hi) as [x Hx].
  destruct (lookup_lt_is_Some_2 r j Hj) as [y Hy].
  unfold swap. rewrite (item_lookup r i x Hx), (item_lookup r j y Hy).
  destruct (decide (k = i)) as [->|Hki].
  { rewrite (length_at_lookup r j y Hy). apply length_at_lookup.
    apply list_lookup_insert_eq. rewrite length_insert. exact Hi. }
  destruct (decide (k = j)) as [->|Hkj].
  { rewrite (length_at_lookup r i x Hx). apply length_at_lookup.
    rewrite list_lookup_insert_ne by congruence.
    apply list_lookup_insert_eq. exact Hj. }
  unfold length_at, item. rewrite !Nat2Z.id, !nth_lookup.
  rewrite !list_lookup_insert_ne by congruence. reflexivity.
Qed.

Lemma swap_lookup_below (r : list string) (i j k : nat) :
  (k < i)%nat -> (k < j)%nat -> swap r i j !! k = r !! k.
Proof.
  intros H1 H2. unfold swap. rewrite !list_lookup_insert_ne by lia. reflexivity.
Qed.

(** One run of the inner loop for position [i], entered at [j]. *)
Lemma sort_inner_spec (n : nat) :
  ∀ i j r,
    (i < j)%nat -> (j + n = length r)%nat ->
    length (sort_inner n i j r) = length r ∧
    sort_inner n i j r ≡ₚ r ∧
    (∀ k, (k < i)%nat -> sort_inner n i j r !! k = r !! k) ∧
    (∀ B, (∀ k, (i <= k < length r)%nat -> length_at r k <= B) ->
          ∀ k, (i <= k < length r)%nat -> length_at (sort_inner n i j r) k <= B) ∧
    ((∀ k, (i < k < j)%nat -> length_at r k <= length_at r i) ->
     ∀ k, (i < k < length r)%nat ->
       length_at (sort_inner n i j r) k <= length_at (sort_inner n i j r) i).
Proof.
  induction n as [|n IH]; intros i j r Hij Hn; cbn [sort_inner].
  - split; [reflexivity|]. split; [reflexivity|]. split; [reflexivity|].
    split; [intros B HB; exact HB|]. intros H k Hk. apply H. lia.
  - set (r1 := if len (item r (Z.of_nat i)) <? len (item r (Z.of_nat j))
               then swap r i j else r).
    assert (Hlen1 : length r1 = length r)
      by (subst r1; destruct (_ <? _); [apply length_swap | reflexivity]).
    assert (Hperm1 : r1 ≡ₚ r)
      by (subst r1; destruct (_ <? _); [apply swap_Permutation; lia | reflexivity]).
    assert (Hlow1 : ∀ k, (k < i)%nat -> r1 !! k = r !! k)
      by (intros k Hk; subst r1; destruct (_ <? _);
          [apply swap_lookup_below; lia | reflexivity]).
    assert (Hat1 : ∀ k, length_at r1 k
              = if len (item r (Z.of_nat i)) <? len (item r (Z.of_nat j))
                then (if decide (k = i) then length_at r j
                      else if decide (k = j) then length_at r i else length_at r k)
                else length_at r k).
    { intros k. subst r1. destruct (_ <? _); [|reflexivity].
      apply length_at_swap; lia. }
    destruct (IH i (S j) r1 ltac:(lia) ltac:(lia)) as (H1 & H2 & H3 & H4 & H5).
    split; [congruence|]. split; [etrans; eassumption|].
    split; [intros k Hk; rewrite H3 by exact Hk; apply Hlow1; exact Hk|].
    split.
    + intros B HB k Hk. rewrite Hlen1 in H4. apply H4; [| exact Hk].
      intros k' Hk'. rewrite Hat1.
      destruct (_ <? _); [| apply HB; exact Hk'].
      destruct (decide (k' = i)); [apply HB; lia|].
      destruct (decide (k' = j)); apply HB; lia.
    + intros Hmax k Hk. rewrite Hlen1 in H5. apply H5; [| exact Hk].
      intros k' Hk'. rewrite !Hat1. fold (length_at r i). fold (length_at r j).
      destruct (Z.ltb_spec (length_at r i) (length_at r j)) as [Hlt|Hge].
      * destruct (decide (i = i)); [|contradiction].
        destruct (decide (k' = i)); [lia|].
        destruct (decide (k' = j)); [lia|].
        specialize (Hmax k' ltac:(lia)). lia.
      * destruct (decide (k' = j)) as [->|]; [exact Hge|]. apply Hmax. lia.
Qed.

(** Positions below [i] are in their final order and hold nothing shorter
    than any later position. *)
Lemma sort_outer_spec (n : nat) :
  ∀ i r,
    (i + n = length r)%nat ->
    (∀ a b, (a < i)%nat -> (a < b < length r)%nat -> length_at r b <= length_at r a) ->
    sort_outer n i r ≡ₚ r ∧
    length (sort_outer n i r) = length r ∧
    ∀ a b, (a < b < length r)%nat ->
      length_at (sort_outer n i r) b <= length_at (sort_outer n i r) a.
Proof.
  induction n as [|n IH]; intros i r Hn Hinv; cbn [sort_outer].
  - split; [reflexivity|]. split; [reflexivity|]. intros a b Hab. apply Hinv; lia.
  - destruct (sort_inner_spec (length r - (i + 1)) i (i + 1) r ltac:(lia) ltac:(lia))
      as (H1 & H2 & H3 & H4 & H5).
    set (r1 := sort_inner (length r - (i + 1)) i (i + 1) r) in *.
    destruct (IH (S i) r1 ltac:(lia)) as (I1 & I2 & I3).
    + intros a b Ha Hab. rewrite H1 in Hab.
      destruct (decide (a = i)) as [->|Hai].
      * apply H5; [intros k Hk; lia | lia].
      * assert (Hlt : (a < i)%nat) by lia.
        assert (Esame : length_at r1 a = length_at r a).
        { unfold length_at, item. rewrite !Nat2Z.id, !nth_lookup, H3 by exact Hlt.
          reflexivity. }
        rewrite Esame.
        destruct (Nat.lt_ge_cases b i) as [Hbi|Hbi].
        -- assert (Esame' : length_at r1 b = length_at r b).
           { unfold length_at, item. rewrite !Nat2Z.id, !nth_lookup, H3 by exact Hbi.
             reflexivity. }
           rewrite Esame'. apply Hinv; lia.
        -- apply (H4 (length_at r a)); [| lia].
           intros k Hk. apply Hinv; lia.
    + split; [etrans; eassumption|]. split; [congruence|].
      intros a b Hab. apply I3. rewrite H1. exact Hab.
Qed.

End Sort.

(** X10.  The package list.  The sort at the end of [discoverProjectPackages]
    returns the packages it was given, each as often as before, and no
    package stands before a longer one; sub-packages are therefore replaced
    before the packages that contain their path. *)
Theorem discoverProjectPackages_longest_first (result : list string) :
  discoverProjectPackages_sort result ≡ₚ result ∧
  longest_first (discoverProjectPackages_sort result).
Proof.
  unfold discoverProjectPackages_sort.
  destruct (sort_outer_spec (length result) 0 result ltac:(lia)) as (H1 & H2 & H3).
  { intros a b Ha. lia. }
  split; [exact H1|].
  intros i j a b Hij Ha Hb.
  pose proof (lookup_lt_Some _ _ _ Hb) as Hj. rewrite H2 in Hj.
  rewrite <- (length_at_lookup _ _ _ Ha), <- (length_at_lookup _ _ _ Hb).
  apply H3. lia.
Qed.
(** ** The format sniff *)

Lemma at_take (data : bytes) (n k : nat) :
  (k < n)%nat -> at_ (take n data) k = at_ data k.
Proof.
  intros H. unfold at_. rewrite !nth_lookup, lookup_take_lt by exact H. reflexivity.
Qed.

(** X11.  [detectBinaryFormat] reads the first four bytes only, and a file with
    fewer than four bytes has no format, also when it starts with [MZ]. *)
Theorem detectBinaryFormat_header (data : bytes) :
  detectBinaryFormat data = detectBinaryFormat (take 4 data) ∧
  ((length data < 4)%nat -> detectBinaryFormat data = "Unknown"%string).
Proof.
  split.
  - unfold detectBinaryFormat. rewrite !at_take by lia.
    unfold slice. rewrite !drop_0, Nat.sub_0_r, take_take, Nat.min_id, length_take.
    destruct (Nat.ltb_spec (length data) 4), (Nat.ltb_spec (4 `min` length data) 4);
      try lia; reflexivity.
  - intros H. unfold detectBinaryFormat.
    apply Nat.ltb_lt in H. rewrite H. reflexivity.
Qed.

Lemma detectBinaryFormat_header_witness :
  detectBinaryFormat (list_ascii_of_string "MZ") = "Unknown"%string.
Proof.
  apply (detectBinaryFormat_header (list_ascii_of_string "MZ")). cbn. lia.
Defined.
(** ** More on the name generator *)

Section NameGeneratorShape.

Lemma list_ascii_app (a b : string) :
  list_ascii_of_string (a +:+ b) = list_ascii_of_string a ++ list_ascii_of_string b.
Proof.
  induction a as [|c a IH]; [reflexivity|].
  change (String c a +:+ b)%string with (String c (a +:+ b)).
  cbn [list_ascii_of_string]. rewrite IH. reflexivity.
Qed.

Lemma lower_app (a b : string) :
  lower_string a -> lower_string b -> lower_string (a +:+ b).
Proof.
  unfold lower_string. rewrite list_ascii_app. intros Ha Hb.
  apply Forall_app. split; assumption.
Qed.

Lemma lower_nil : lower_string "".
Proof. constructor. Qed.

Lemma lower_substring (s : string) :
  lower_string s -> ∀ n, lower_string (substring 0 n s).
Proof.
  unfold lower_string. induction s as [|c s IH]; intros Hs n.
  - destruct n; constructor.
  - apply Forall_cons in Hs as [Hc Hs]. destruct n; cbn; [constructor|].
    constructor; [exact Hc | apply IH; exact Hs].
Qed.

Lemma lower_get (s : string) :
  lower_string s -> ∀ n c, get n s = Some c -> isLower c = true.
Proof.
  unfold lower_string. induction s as [|x s IH]; intros Hs n c H; [discriminate|].
  apply Forall_cons in Hs as [Hx Hs]. destruct n; cbn in H.
  - injection H as <-. exact Hx.
  - eapply IH; eassumption.
Qed.

Lemma lower_char_at (s : string) (i : Z) : lower_string s -> lower_string (char_at s i).
Proof.
  intros Hs. unfold char_at. destruct (get (Z.to_nat i) s) as [c|] eqn:E.
  - repeat constructor. eapply lower_get; eassumption.
  - constructor.
Qed.

Lemma lower_item (l : list string) (i : Z) :
  Forall lower_string l -> lower_string (item l i).
Proof.
  intros Hl. unfold item. rewrite nth_lookup.
  destruct (l !! Z.to_nat i) as [s|] eqn:E; cbn [default]; [| constructor].
  eapply Forall_lookup_1; eassumption.
Qed.

Lemma lower_letters : lower_string letters.
Proof. repeat constructor. Qed.

Lemma lower_vowels : lower_string vowels.
Proof. repeat constructor. Qed.

Lemma lower_consonants : lower_string consonants.
Proof. repeat constructor. Qed.

Lemma lower_shortNames : Forall lower_string shortNames.
Proof. repeat constructor. Qed.

Lemma padWithLetters_loop_lower (n : nat) :
  ∀ base target,
    lower_string base -> post (padWithLetters_loop n base target) lower_string.
Proof.
  induction n as [|n IH]; intros base target Hb; cbn [padWithLetters_loop].
  - apply post_ret. exact Hb.
  - destruct (_ <? _); [| apply post_ret; exact Hb].
    eapply post_bind with (P := fun _ => True); [intros r; exact I|].
    intros i _. apply IH. apply lower_app; [exact Hb|].
    apply lower_char_at, lower_letters.
Qed.

Lemma randomLetters_loop_lower (n : nat) :
  ∀ result, lower_string result -> post (randomLetters_loop n result) lower_string.
Proof.
  induction n as [|n IH]; intros result Hr; cbn [randomLetters_loop].
  - apply post_ret. exact Hr.
  - eapply post_bind with (P := fun _ => True); [intros r; exact I|].
    intros i _. apply IH. apply lower_app; [exact Hr|].
    apply lower_char_at, lower_letters.
Qed.

Lemma generateShortName_lower (length : Z) :
  post (generateShortName length) lower_string.
Proof.
  unfold generateShortName. destruct (_ <? _).
  - eapply post_bind with (P := fun _ => True); [intros r; exact I|].
    intros idx _. apply post_ret. apply lower_item.
    apply Forall_forall. intros s Hs. apply list_elem_of_filter in Hs as [_ Hs].
    eapply Forall_forall in Hs; [exact Hs | exact lower_shortNames].
  - apply randomLetters_loop_lower, lower_nil.
Qed.

Lemma standard_lower_words (g : NaturalNameGenerator) :
  standard_words g -> lower_words g.
Proof.
  intros (H1 & H2 & H3). unfold lower_words. rewrite H1, H2, H3.
  repeat split; repeat constructor.
Qed.

Lemma first_of_length_lower (l : list string) (length : Z) (w : string) :
  Forall lower_string l -> first_of_length l length = Some w -> lower_string w.
Proof.
  intros Hl H. unfold first_of_length in H. apply head_Some_elem_of in H.
  apply list_elem_of_filter in H as [_ H].
  eapply Forall_forall in Hl; eassumption.
Qed.

Lemma generateMediumName_lower (g : NaturalNameGenerator) (length : Z) :
  lower_words g -> post (generateMediumName g length) lower_string.
Proof.
  intros (Hp & Hs & Hm). unfold generateMediumName.
  destruct (first_of_length (pkgPrefixes g) length) as [w|] eqn:E1.
  { apply post_ret. exact (first_of_length_lower _ _ _ Hp E1). }
  destruct (first_of_length (pkgSuffixes g) length) as [w|] eqn:E2.
  { apply post_ret. exact (first_of_length_lower _ _ _ Hs E2). }
  destruct (4 <=? length); [| apply randomLetters_loop_lower, lower_nil].
  eapply post_bind with (P := fun _ => True); [intros r; exact I|]. intros i _.
  pose proof (lower_item _ i Hp) as Hw.
  destruct (_ <? _); [apply post_ret, lower_substring, Hw|].
  destruct (_ <? _); [| apply post_ret, Hw].
  eapply post_bind with (P := fun _ => True); [intros r; exact I|]. intros j _.
  pose proof (lower_app _ _ Hw (lower_item _ j Hm)) as Hc.
  destruct (_ <=? _); [apply post_ret, lower_substring, Hc|].
  apply padWithLetters_loop_lower, Hc.
Qed.

Lemma generateLongName_lower (g : NaturalNameGenerator) (length : Z) :
  lower_words g -> post (generateLongName g length) lower_string.
Proof.
  intros (Hp & Hs & Hm). unfold generateLongName.
  eapply post_bind with (P := fun _ => True); [intros r; exact I|]. intros i _.
  eapply post_bind with (P := fun _ => True); [intros r; exact I|]. intros j _.
  pose proof (lower_item _ i Hp) as Hi. pose proof (lower_item _ j Hs) as Hj.
  destruct (_ <? _); [apply post_ret, lower_substring, lower_app; assumption|].
  destruct (_ <? _); [| apply post_ret, lower_app; assumption].
  eapply post_bind with (P := fun _ => True); [intros r; exact I|]. intros k _.
  pose proof (lower_app _ _ Hi (lower_app _ _ (lower_item _ k Hm) Hj)) as Hc.
  destruct (_ <=? _); [apply post_ret, lower_substring, Hc|].
  apply padWithLetters_loop_lower, Hc.
Qed.

Lemma generateName_lower (g : NaturalNameGenerator) (length : Z) :
  lower_words g -> post (generateName g length) lower_string.
Proof.
  intros Hg. unfold generateName.
  destruct (_ <=? 3); [apply generateShortName_lower|].
  destruct (_ <=? 8); [apply generateMediumName_lower | apply generateLongName_lower];
    exact Hg.
Qed.

Lemma generateRandomReadable_loop_lower (n : nat) :
  ∀ result useVowel length,
    lower_string result ->
    post (generateRandomReadable_loop n result useVowel length) lower_string.
Proof.
  induction n as [|n IH]; intros result useVowel length Hr;
    cbn [generateRandomReadable_loop].
  - apply post_ret. exact Hr.
  - destruct (_ <? _); [| apply post_ret; exact Hr].
    eapply post_bind with (P := lower_string).
    + destruct useVowel;
        (eapply post_bind with (P := fun _ => True); [intros r; exact I|];
         intros i _; apply post_ret, lower_char_at);
        [apply lower_vowels | apply lower_consonants].
    + intros c Hc. apply IH. apply lower_app; assumption.
Qed.

Lemma random_letter_lower :
  post (i ← secureRandInt 26; mret (String (byte_of (u8 "a" + i)) EmptyString))
       lower_string.
Proof.
  eapply post_bind; [apply secureRandInt_range|]. intros i [H0 H1].
  apply post_ret. repeat constructor. change (u8 "a") with 97.
  apply isLower_letter. lia.
Qed.

Lemma generateRandomReadable_lower (original : string) (length : Z) :
  post (generateRandomReadable original length false) lower_string ∧
  post (generateRandomReadable original length true)
       (fun s => ∃ stem, lower_string stem ∧ s = stem +:+ ".").
Proof.
  assert (Hfirst : post
            match original with
            | String c _ =>
                if (u8 "a" <=? u8 c) && (u8 c <=? u8 "z")
                then mret (String c EmptyString)
                else i ← secureRandInt 26;
                     mret (String (byte_of (u8 "a" + i)) EmptyString)
            | EmptyString =>
                i ← secureRandInt 26;
                mret (String (byte_of (u8 "a" + i)) EmptyString)
            end lower_string).
  { destruct original as [|c rest]; [apply random_letter_lower|].
    destruct (_ && _) eqn:E; [| apply random_letter_lower].
    apply post_ret. repeat constructor. exact E. }
  split; unfold generateRandomReadable.
  - eapply post_bind; [exact Hfirst|]. intros s Hs.
    eapply post_bind; [apply generateRandomReadable_loop_lower; exact Hs|].
    intros s' Hs'. apply post_ret. exact Hs'.
  - eapply post_bind; [exact Hfirst|]. intros s Hs.
    eapply post_bind; [apply generateRandomReadable_loop_lower; exact Hs|].
    intros s' Hs'. apply post_ret. exists s'. split; [exact Hs' | reflexivity].
Qed.

Lemma standard_words_set_used (g : NaturalNameGenerator) (name : string) :
  standard_words g -> standard_words (set_used g name).
Proof. intros H. exact H. Qed.

Lemma GeneratePackageName_loop_lower (n : nat) :
  ∀ g originalName length hasDot,
    standard_words g ->
    post (GeneratePackageName_loop n g originalName length hasDot)
         (fun res => (∃ stem, lower_string stem ∧ res.1 = stem +:+ dot_of hasDot) ∧
                     standard_words res.2).
Proof.
  induction n as [|n IH]; intros g originalName length hasDot Hg;
    cbn [GeneratePackageName_loop].
  - destruct (generateRandomReadable_lower originalName length) as [Hf Ht].
    destruct hasDot.
    + eapply post_bind; [exact Ht|]. intros name (stem & Hs & ->).
      apply post_ret. split; [exists stem; split; [exact Hs | reflexivity] | exact Hg].
    + eapply post_bind; [exact Hf|]. intros name Hs.
      apply post_ret. split; [| exact Hg]. exists name. split; [exact Hs|].
      cbn [dot_of fst]. clear. induction name as [|c s IH]; [reflexivity|].
      change (String c s +:+ "")%string with (String c (s +:+ "")).
      rewrite <- IH. reflexivity.
  - eapply post_bind; [apply generateName_lower, standard_lower_words, Hg|].
    intros name Hname.
    destruct (negb _); [| apply IH; exact Hg].
    apply post_ret. split; [| apply standard_words_set_used; exact Hg].
    destruct hasDot; cbn [fst dot_of].
    + exists name. split; [exact Hname | reflexivity].
    + exists name. split; [exact Hname|].
      clear. induction name as [|c s IH]; [reflexivity|].
      change (String c s +:+ "")%string with (String c (s +:+ "")).
      rewrite <- IH. reflexivity.
Qed.

Lemma generateRandomString_loop_alnum (n : nat) :
  ∀ result,
    alnum_string result -> post (generateRandomString_loop n result) alnum_string.
Proof.
  induction n as [|n IH]; intros result Hr; cbn [generateRandomString_loop].
  - apply post_ret. exact Hr.
  - eapply post_bind with (P := fun _ => True); [intros r; exact I|].
    intros num _. apply IH. unfold alnum_string in *. rewrite list_ascii_app.
    apply Forall_app. split; [exact Hr|].
    unfold char_at. destruct (get (Z.to_nat num) charset) as [c|] eqn:E;
      [| constructor].
    repeat constructor.
    assert (Hall : Forall (fun c => alnum c = true) (list_ascii_of_string charset))
      by (repeat constructor).
    clear -E Hall. revert E Hall. generalize (Z.to_nat num). generalize charset.
    intros s. induction s as [|x s IH]; intros k E Hall; [discriminate|].
    apply Forall_cons in Hall as [Hx Hs]. destruct k; cbn in E.
    + injection E as <-. exact Hx.
    + eapply IH; eassumption.
Qed.

End NameGeneratorShape.

(** X12.  The length of a generated package name.  For a generator with the word
    lists of [NewNaturalNameGenerator], [GeneratePackageName] returns
    exactly [targetLength] bytes when [targetLength] is at least 2, and for
    [targetLength = 1] when the original name does not end in a dot. *)
Theorem GeneratePackageName_exact_length
    (g : NaturalNameGenerator) (originalName : string) (targetLength : Z) :
  standard_words g ->
  1 <= targetLength ->
  2 <= targetLength ∨ HasSuffix_dot originalName = false ->
  post (GeneratePackageName g originalName targetLength)
       (fun res => len res.1 = targetLength).
Proof.
  intros _ H1 H2. eapply post_weaken; [apply GeneratePackageName_len; exact H1|].
  intros res [H | (Hd & Ht & _)]; [exact H|].
  destruct H2 as [H2|H2]; [lia | congruence].
Qed.

Lemma GeneratePackageName_exact_length_witness :
  len (GeneratePackageName NewNaturalNameGenerator "runtime." 8 zeros).1.1 = 8.
Proof.
  apply (GeneratePackageName_exact_length NewNaturalNameGenerator "runtime." 8);
    [repeat split | lia | left; lia].
Defined.

(** X13.  The alphabet of a generated package name.  For a generator with the
    word lists of [NewNaturalNameGenerator], the name consists of lower-case
    letters, followed by one dot exactly when the original name ends in a
    dot; the word lists stay as they are. *)
Theorem GeneratePackageName_lowercase
    (g : NaturalNameGenerator) (originalName : string) (targetLength : Z) :
  standard_words g ->
  post (GeneratePackageName g originalName targetLength)
       (fun res => (∃ stem, lower_string stem ∧
                            res.1 = stem +:+ dot_of (HasSuffix_dot originalName)) ∧
                   standard_words res.2).
Proof.
  intros Hg. unfold GeneratePackageName. apply GeneratePackageName_loop_lower, Hg.
Qed.

Lemma GeneratePackageName_lowercase_witness :
  ∃ stem, lower_string stem ∧
          (GeneratePackageName NewNaturalNameGenerator "runtime." 8 zeros).1.1
          = stem +:+ ".".
Proof.
  destruct (GeneratePackageName_lowercase NewNaturalNameGenerator "runtime." 8
              ltac:(repeat split) zeros) as [H _].
  exact H.
Defined.

Lemma GeneratePackageName_loop_attempts (n : nat) :
  ∀ g originalName length hasDot r,
    (∀ i name, first_unused g (attempts n g length hasDot r).1 i name ->
       (GeneratePackageName_loop n g originalName length hasDot r).1
       = (name, set_used g name)) ∧
    (Forall (fun name => lookup_bool (usedNames g) name = true)
            (attempts n g length hasDot r).1 ->
       (GeneratePackageName_loop n g originalName length hasDot r).1
       = ((generateRandomReadable originalName length hasDot
             (attempts n g length hasDot r).2).1, g)).
Proof.
  induction n as [|n IH]; intros g originalName length hasDot r;
    cbn [GeneratePackageName_loop attempts].
  - split.
    + intros i name (Hi & _). cbn in Hi. rewrite lookup_nil in Hi. discriminate.
    + intros _. cbn [snd]. unfold mbind, R_bind, mret, R_ret.
      destruct (generateRandomReadable originalName length hasDot r). reflexivity.
  - unfold mbind, R_bind.
    destruct (generateName g length r) as [name0 r1].
    set (name1 := if hasDot then name0 +:+ "." else name0).
    destruct (IH g originalName length hasDot r1) as [IH1 IH2].
    destruct (attempts n g length hasDot r1) as [names r2]. cbn [fst snd] in *.
    split.
    + intros i name (Hi & Hfree & Hbefore). destruct i as [|i].
      * cbn in Hi. injection Hi as <-. rewrite Hfree. reflexivity.
      * assert (Hused : lookup_bool (usedNames g) name1 = true).
        { apply (Hbefore 0%nat); [lia | reflexivity]. }
        rewrite Hused. cbn [negb]. apply (IH1 i). split; [exact Hi|].
        split; [exact Hfree|]. intros j other Hj Ho.
        apply (Hbefore (S j)); [lia | exact Ho].
    + intros Hall. apply Forall_cons in Hall as [Hused Hrest].
      rewrite Hused. cbn [negb]. apply IH2. exact Hrest.
Qed.

(** X14.  The bookkeeping of used names.  A call of [GeneratePackageName] on a
    generator with the word lists of [NewNaturalNameGenerator] makes up to
    1000 attempts.  It returns the first name drawn that is not marked as
    used, and marks exactly this name; when all 1000 names drawn are marked
    as used, and only then, it returns the name that
    [generateRandomReadable] gives, without any check and without marking
    it, and the generator stays as it was. *)
Theorem GeneratePackageName_fresh_or_unrecorded
    (g : NaturalNameGenerator) (originalName : string) (targetLength : Z) (r : Rand) :
  standard_words g ->
  let hasDot := HasSuffix_dot originalName in
  let length := if hasDot then targetLength - 1 else targetLength in
  let drawn := attempts 1000 g length hasDot r in
  let res := (GeneratePackageName g originalName targetLength r).1 in
  (∀ i name, first_unused g drawn.1 i name ->
     res.1 = name ∧
     (∀ k, lookup_bool (usedNames res.2) k
           = lookup_bool (usedNames g) k || bool_decide (k = name)) ∧
     standard_words res.2 ∧ words res.2 = words g) ∧
  (Forall (fun name => lookup_bool (usedNames g) name = true) drawn.1 ->
     res = ((generateRandomReadable originalName length hasDot drawn.2).1, g)) ∧
  (res.2 = g ->
     Forall (fun name => lookup_bool (usedNames g) name = true) drawn.1).
Proof.
  intros Hg hasDot length drawn res.
  destruct (GeneratePackageName_loop_attempts 1000 g originalName length hasDot r)
    as [H1 H2].
  assert (Hmark : ∀ name k, lookup_bool (usedNames (set_used g name)) k
                            = lookup_bool (usedNames g) k || bool_decide (k = name)).
  { intros name k. unfold set_used, lookup_bool. cbn [usedNames].
    destruct (decide (k = name)) as [-> | Hne].
    - rewrite lookup_insert_eq, bool_decide_eq_true_2, orb_true_r by reflexivity.
      reflexivity.
    - rewrite lookup_insert_ne, bool_decide_eq_false_2, orb_false_r by congruence.
      reflexivity. }
  split; [| split].
  - intros i name Hi. specialize (H1 i name Hi).
    subst res. unfold GeneratePackageName. fold hasDot. fold length. rewrite H1.
    cbn [fst snd]. split; [reflexivity|]. split; [apply Hmark|].
    split; [apply standard_words_set_used; exact Hg | reflexivity].
  - intros Hall. subst res. unfold GeneratePackageName. fold hasDot. fold length.
    apply H2. exact Hall.
  - intros Hsame.
    destruct (decide (Forall (fun name => lookup_bool (usedNames g) name = true)
                             drawn.1)) as [Hall | Hnot]; [exact Hall|].
    exfalso. apply not_Forall_Exists in Hnot; [| intros name; apply _].
    apply Exists_exists in Hnot.
    assert (Hex : ∃ i name, first_unused g drawn.1 i name).
    { clear - Hnot. induction (drawn.1) as [|a l IH].
      - destruct Hnot as (x & Hx & _). apply elem_of_nil in Hx. destruct Hx.
      - destruct (lookup_bool (usedNames g) a) eqn:Ea.
        + destruct IH as (i & name & Hi & Hf & Hb).
          { destruct Hnot as (x & Hx & Hfx). apply elem_of_cons in Hx as [-> | Hx].
            - congruence.
            - exists x. split; assumption. }
          exists (S i), name. split; [exact Hi|]. split; [exact Hf|].
          intros j other Hj Ho. destruct j as [|j].
          * cbn in Ho. injection Ho as <-. exact Ea.
          * apply (Hb j); [lia | exact Ho].
        + exists 0%nat, a. split; [reflexivity|]. split; [exact Ea|].
          intros j other Hj. lia. }
    destruct Hex as (i & name & Hi). pose proof (H1 i name Hi) as E.
    destruct Hi as (_ & Hfree & _).
    subst res. unfold GeneratePackageName in Hsame. fold hasDot in Hsame.
    fold length in Hsame. rewrite E in Hsame. cbn [fst snd] in Hsame.
    pose proof (Hmark name name) as Hm. rewrite Hsame, Hfree in Hm.
    rewrite bool_decide_eq_true_2 in Hm by reflexivity. discriminate.
Qed.

Lemma GeneratePackageName_fresh_or_unrecorded_witness :
  let res := (GeneratePackageName NewNaturalNameGenerator "runtime." 8 zeros).1 in
  res.1 = "handler."%string ∧
  lookup_bool (usedNames NewNaturalNameGenerator) res.1 = false ∧
  lookup_bool (usedNames res.2) res.1 = true.
Proof.
  destruct (GeneratePackageName_fresh_or_unrecorded NewNaturalNameGenerator
              "runtime." 8 zeros) as [H _]; [repeat split|].
  destruct (H 0%nat "handler."%string) as (Hn & Hm & _).
  - split; [vm_compute; reflexivity|]. split; [reflexivity|].
    intros j other Hj. lia.
  - cbn zeta. rewrite Hn. split; [reflexivity|]. split; [reflexivity|].
    rewrite Hm. reflexivity.
Defined.

(** X15.  [generateRandomString] returns exactly [length] characters, each a
    letter or a digit. *)
Theorem generateRandomString_alnum (length : Z) :
  0 <= length ->
  post (generateRandomString length)
       (fun s => len s = length ∧ alnum_string s).
Proof.
  intros Hl r. split.
  - pose proof (generateRandomString_loop_len (Z.to_nat length) EmptyString r) as H.
    cbn beta in H. unfold generateRandomString. rewrite H.
    change (len "") with 0. lia.
  - apply generateRandomString_loop_alnum. constructor.
Qed.

Lemma generateRandomString_alnum_witness :
  len (generateRandomString 12 zeros).1 = 12 ∧
  alnum_string (generateRandomString 12 zeros).1.
Proof. apply (generateRandomString_alnum 12). lia. Defined.
(** ** More on the obfuscator: encryption, protection, renaming *)

Section ObfuscatorMore.

Lemma Encode_exact_length (k : nat) :
  ∀ src : bytes, (length src <= k)%nat ->
    Z.of_nat (length (base64.Encode src)) = 4 * ((Z.of_nat (length src) + 2) / 3).
Proof.
  induction k as [|k IH]; intros src Hk.
  - destruct src; [reflexivity | cbn in Hk; lia].
  - destruct src as [|b0 [|b1 [|b2 rest]]]; cbn [base64.Encode length];
      try reflexivity.
    cbn in Hk. specialize (IH rest ltac:(lia)).
    replace (Z.of_nat (S (S (S (length rest)))) + 2)
      with ((Z.of_nat (length rest) + 2) + 1 * 3) by lia.
    rewrite Z.div_add by lia. lia.
Qed.

Lemma length_string_of_list_ascii (l : bytes) :
  String.length (string_of_list_ascii l) = length l.
Proof. induction l as [|c l IH]; cbn; [|rewrite IH]; reflexivity. Qed.

Lemma roundtrip_with_key (o : Obfuscator) (text : string) :
  encryptionKey o ≠ EmptyString ->
  ∃ encrypted, encryptString o text = Some encrypted ∧
               decryptFunction o encrypted = Some text ∧
               len encrypted = 4 * ((len text + 2) / 3).
Proof.
  intros Hkey. unfold encryptString, decryptFunction.
  destruct (list_ascii_of_string (encryptionKey o)) as [|k0 key] eqn:Ek.
  { exfalso. apply Hkey.
    rewrite <- (string_of_list_ascii_of_string (encryptionKey o)), Ek.
    reflexivity. }
  eexists. split; [reflexivity|]. split.
  - rewrite DecodeString_EncodeToString.
    rewrite xor_loop_involutive, string_of_list_ascii_of_string.
    reflexivity.
  - unfold len, base64.EncodeToString. rewrite length_string_of_list_ascii.
    rewrite (Encode_exact_length _ _ (le_n _)), xor_loop_length.
    rewrite length_list_ascii_of_string. reflexivity.
Qed.

Lemma protectedIdentifiers_builtin (name : string) :
  lookup_bool protectedIdentifiers name = true -> In name builtin_identifiers.
Proof.
  unfold lookup_bool. destruct (protectedIdentifiers !! name) as [b|] eqn:E;
    [| discriminate].
  intros _. unfold protectedIdentifiers in E.
  apply elem_of_list_to_map_2 in E. apply list_elem_of_In in E.
  cbn in E. unfold builtin_identifiers. cbn.
  repeat (destruct E as [E|E]; [injection E as <- _; tauto|]).
  destruct E.
Qed.

Lemma obfuscateName_loop_recorded (n : nat) :
  ∀ o name isFunc prefix isExp,
    post (obfuscateName_loop n o name isFunc prefix isExp)
         (fun res => mapping_of res.2 isFunc !! name = Some res.1).
Proof.
  induction n as [|n IH]; intros o name isFunc prefix isExp;
    cbn [obfuscateName_loop].
  - eapply post_bind with (P := fun _ => True); [intros r; exact I|].
    intros suffix _. apply post_ret. cbn [fst snd].
    destruct isFunc; cbn; apply lookup_insert_eq.
  - eapply post_bind with (P := fun _ => True); [intros r; exact I|].
    intros randomPart _. destruct (negb _); [| apply IH].
    apply post_ret. cbn [fst snd]. destruct isFunc; cbn; apply lookup_insert_eq.
Qed.

Lemma isExported_app (a b : string) :
  a ≠ EmptyString -> isExported (a +:+ b) = isExported a.
Proof. destruct a; [contradiction | reflexivity]. Qed.

Lemma obfuscateName_loop_marker (n : nat) :
  ∀ o name isFunc prefix isExp,
    post (obfuscateName_loop n o name isFunc prefix isExp)
         (fun res => ∃ rest, res.1 = marker isExp isFunc prefix +:+ rest).
Proof.
  induction n as [|n IH]; intros o name isFunc prefix isExp;
    cbn [obfuscateName_loop].
  - eapply post_bind with (P := fun _ => True); [intros r; exact I|].
    intros suffix _. apply post_ret. eexists. reflexivity.
  - eapply post_bind with (P := fun _ => True); [intros r; exact I|].
    intros randomPart _. destruct (negb _); [| apply IH].
    apply post_ret. eexists. reflexivity.
Qed.

End ObfuscatorMore.

(** X16.  Encryption in a run.  For every obfuscator that [New] returns and every
    string, [encryptString] succeeds, the generated decrypt function gives
    the string back, and the ciphertext has four characters for every
    three bytes of the string, rounded up. *)
Theorem New_encrypts_and_decrypts (config : option Config) (text : string) :
  post (New config)
       (fun o => ∃ encrypted,
                   encryptString o text = Some encrypted ∧
                   decryptFunction o encrypted = Some text ∧
                   len encrypted = 4 * ((len text + 2) / 3)).
Proof.
  eapply post_weaken; [apply New_encryptionKey|].
  intros o Hkey. cbn beta in Hkey. apply roundtrip_with_key.
  intros E. rewrite E in Hkey. discriminate.
Qed.

(** X17.  Nothing else is protected.  [shouldProtect] returns true only for
    ["_"], ["main"] and ["init"], for an exported name when export renaming
    is off, for a name in [protectedNames] or [packageNames], and for the
    listed builtin identifiers. *)
Theorem shouldProtect_only (o : Obfuscator) (name : string) :
  shouldProtect o name = true ->
  In name special_names ∨
  (ObfuscateExported (Config_ o) = false ∧ isExported name = true) ∨
  lookup_bool (protectedNames o) name = true ∨
  lookup_bool (packageNames o) name = true ∨
  In name builtin_identifiers.
Proof.
  unfold shouldProtect.
  destruct (bool_decide (name = "_"%string)) eqn:E1.
  { apply bool_decide_eq_true in E1. intros _. left. left. congruence. }
  destruct (bool_decide (name = "main"%string)) eqn:E2.
  { apply bool_decide_eq_true in E2. intros _. left. right. left. congruence. }
  destruct (bool_decide (name = "init"%string)) eqn:E3.
  { apply bool_decide_eq_true in E3. intros _. left. right. right. left. congruence. }
  cbn [orb].
  destruct (ObfuscateExported (Config_ o)) eqn:Ec, (isExported name) eqn:Ee;
    cbn [negb andb]; try (intros _; right; left; split; reflexivity).
  all: destruct (lookup_bool (protectedNames o) name) eqn:Ep;
    [intros _; right; right; left; reflexivity|];
    destruct (lookup_bool (packageNames o) name) eqn:Eq;
    [intros _; right; right; right; left; reflexivity|];
    destruct (lookup_bool protectedIdentifiers name) eqn:Ei; [| discriminate];
    intros _; right; right; right; right; apply protectedIdentifiers_builtin, Ei.
Qed.

Lemma shouldProtect_only_witness :
  In "len"%string special_names ∨
  (ObfuscateExported (Config_ (New None zeros).1) = false ∧ isExported "len" = true) ∨
  lookup_bool (protectedNames (New None zeros).1) "len" = true ∨
  lookup_bool (packageNames (New None zeros).1) "len" = true ∨
  In "len"%string builtin_identifiers.
Proof. apply (shouldProtect_only (New None zeros).1 "len"). reflexivity. Defined.

(** X18.  Renaming is remembered.  After [obfuscateName] has returned a name for
    an identifier, the next call for the same identifier and kind returns
    the same name, draws no random number and leaves the obfuscator as it
    is. *)
Theorem obfuscateName_remembers
    (o : Obfuscator) (name : string) (isFunc : bool) (r : Rand) :
  obfuscateName (obfuscateName o name isFunc r).1.2 name isFunc
                (obfuscateName o name isFunc r).2
  = obfuscateName o name isFunc r.
Proof.
  unfold obfuscateName at 2 3 4.
  destruct ((if isFunc then funcMapping o else varMapping o) !! name) as [obf|] eqn:E.
  - cbn [mret R_ret fst snd]. unfold obfuscateName. rewrite E. reflexivity.
  - pose proof (obfuscateName_loop_recorded 100 o name isFunc
                  (if isFunc then "fn" else "l")
                  match name with
                  | String c _ => (u8 "A" <=? u8 c) && (u8 c <=? u8 "Z")
                  | EmptyString => false
                  end r) as H.
    cbn beta in H.
    destruct (obfuscateName_loop _ _ _ _ _ _ r) as [[obf o'] r'].
    cbn [fst snd] in *. unfold obfuscateName. unfold mapping_of in H.
    rewrite H. reflexivity.
Qed.

(** X19.  Renaming and visibility.  A name that has no entry yet is renamed to a
    name whose marker the first byte of the old name selects: ["Fn"] or
    ["V"] when that byte is one of the ASCII letters [A] to [Z], ["fn"] or
    ["l"] otherwise.  For a name that begins with an ASCII character, where
    this test is Go's rule for exported names, the new name is exported
    exactly when the old one is.  A name that begins with a byte from 0x80
    up always gets an unexported name, also when its first letter is upper
    case, so that Go exports the old name. *)
Theorem obfuscateName_visibility_by_first_byte
    (o : Obfuscator) (name : string) (isFunc : bool) :
  mapping_of o isFunc !! name = None ->
  post (obfuscateName o name isFunc)
       (fun res => (∃ rest, res.1 = marker (isExported name) isFunc
                                      (if isFunc then "fn" else "l") +:+ rest) ∧
                   (ascii_initial name -> isExported res.1 = isExported name) ∧
                   (¬ ascii_initial name -> isExported res.1 = false)).
Proof.
  intros Hnone. unfold obfuscateName. unfold mapping_of in Hnone. rewrite Hnone.
  fold (isExported name).
  eapply post_weaken; [apply obfuscateName_loop_marker|].
  intros res [rest Hres].
  assert (Hsame : isExported res.1 = isExported name).
  { rewrite Hres. rewrite isExported_app.
    - destruct (isExported name), isFunc; reflexivity.
    - destruct (isExported name), isFunc; discriminate. }
  split; [exists rest; exact Hres|]. split; [intros _; exact Hsame|].
  intros Hna. rewrite Hsame. destruct name as [|c s]; [reflexivity|].
  cbn [ascii_initial isExported] in *. apply andb_false_iff. right.
  apply Z.leb_gt. change (u8 "Z") with 90. lia.
Qed.

Lemma obfuscateName_visibility_by_first_byte_witness :
  isExported (obfuscateName (New None zeros).1 "Handler" true zeros).1.1 = true ∧
  upper_latin1 0xDC = true ∧
  isExported (obfuscateName (New None zeros).1 Unit_with_diaeresis true zeros).1.1
  = false.
Proof.
  split; [| split; [reflexivity|]].
  - apply (obfuscateName_visibility_by_first_byte (New None zeros).1 "Handler" true);
      reflexivity.
  - apply (obfuscateName_visibility_by_first_byte (New None zeros).1
             Unit_with_diaeresis true); [reflexivity|].
    intros H. vm_compute in H. discriminate.
Defined.
(** ** File names *)

Section FileNames.

Lemma string_app_assoc (a b c : string) : ((a +:+ b) +:+ c = a +:+ (b +:+ c))%string.
Proof.
  induction a as [|x a IH]; [reflexivity|].
  rewrite !app_cons_s, IH. reflexivity.
Qed.


Lemma length_app_s (a b : string) :
  String.length (a +:+ b) = (String.length a + String.length b)%nat.
Proof. induction a as [|x a IH]; [reflexivity|]. rewrite app_cons_s. cbn. rewrite IH. reflexivity. Qed.

Lemma bytes_of_string_inj (a b : string) : bytes_of_string a = bytes_of_string b -> a = b.
Proof.
  unfold bytes_of_string. intros H.
  rewrite <- (string_of_list_ascii_of_string a), <- (string_of_list_ascii_of_string b), H.
  reflexivity.
Qed.

Lemma length_bytes_of_string (s : string) : length (bytes_of_string s) = String.length s.
Proof. apply length_list_ascii_of_string. Qed.

Lemma HasSuffix_spec (s suffix : string) : HasSuffix s suffix = true ↔ ends_with s suffix.
Proof.
  unfold HasSuffix, ends_with. rewrite andb_true_iff, bool_decide_eq_true. split.
  - intros [Hlen Hdrop]. apply Nat.leb_le in Hlen.
    exists (string_of_list_ascii
              (take (String.length s - String.length suffix) (bytes_of_string s))).
    apply bytes_of_string_inj. unfold bytes_of_string in *.
    rewrite list_ascii_app, list_ascii_of_string_of_list_ascii, <- Hdrop.
    symmetry. apply take_drop.
  - intros [stem ->]. rewrite length_app_s. split; [apply Nat.leb_le; lia|].
    unfold bytes_of_string. rewrite list_ascii_app.
    replace (String.length stem + String.length suffix - String.length suffix)%nat
      with (length (list_ascii_of_string stem))
      by (rewrite length_list_ascii_of_string; lia).
    apply drop_app_length.
Qed.

Lemma TrimSuffix_app (stem suffix : string) : TrimSuffix (stem +:+ suffix) suffix = stem.
Proof.
  unfold TrimSuffix.
  rewrite (proj2 (HasSuffix_spec (stem +:+ suffix) suffix)) by (exists stem; reflexivity).
  rewrite length_app_s. unfold bytes_of_string. rewrite list_ascii_app.
  replace (String.length stem + String.length suffix - String.length suffix)%nat
    with (length (list_ascii_of_string stem))
    by (rewrite length_list_ascii_of_string; lia).
  rewrite take_app_length. apply string_of_list_ascii_of_string.
Qed.

(** Two ends of one string: the shorter one is an end of the longer one. *)
Lemma ends_with_both (s a b : string) :
  ends_with s a -> ends_with s b -> (String.length a <= String.length b)%nat ->
  ends_with b a.
Proof.
  intros [x Hx] [y Hy] Hlen.
  assert (Hl : list_ascii_of_string x ++ list_ascii_of_string a
               = list_ascii_of_string y ++ list_ascii_of_string b)
    by (rewrite <- !list_ascii_app; congruence).
  assert (Hxy : (length (list_ascii_of_string y) <= length (list_ascii_of_string x))%nat).
  { apply (f_equal length) in Hl. rewrite !length_app, !length_list_ascii_of_string in *.
    lia. }
  exists (string_of_list_ascii
            (drop (length (list_ascii_of_string y)) (list_ascii_of_string x))).
  apply bytes_of_string_inj. unfold bytes_of_string.
  rewrite list_ascii_app, list_ascii_of_string_of_list_ascii.
  apply (f_equal (drop (length (list_ascii_of_string y)))) in Hl.
  rewrite drop_app_length, drop_app_le in Hl by exact Hxy. symmetry. exact Hl.
Qed.

Lemma platformSuffixes_apart (a b : string) :
  a ∈ platformSuffixes -> b ∈ platformSuffixes -> HasSuffix a b = true -> a = b.
Proof.
  intros Ha Hb H.
  assert (Hall : suffixes_apart platformSuffixes = true) by (vm_compute; reflexivity).
  unfold suffixes_apart in Hall. rewrite forallb_forall in Hall.
  apply list_elem_of_In in Ha, Hb.
  specialize (Hall a Ha). rewrite forallb_forall in Hall. specialize (Hall b Hb).
  rewrite H in Hall. cbn [implb] in Hall. apply bool_decide_eq_true in Hall. exact Hall.
Qed.

Lemma platformSuffix_found (stem ps : string) :
  ps ∈ platformSuffixes -> platformSuffix (stem +:+ ps +:+ ".go") = ps.
Proof.
  intros Hps. unfold platformSuffix.
  rewrite <- string_app_assoc.
  rewrite (proj2 (HasSuffix_spec _ ".go")) by (eexists; reflexivity).
  rewrite TrimSuffix_app.
  destruct (List.find (HasSuffix (stem +:+ ps)) platformSuffixes) as [ps'|] eqn:E.
  - apply find_some in E as [Hin Hsuf]. cbn [default].
    apply list_elem_of_In in Hin.
    apply HasSuffix_spec in Hsuf.
    assert (Hme : ends_with (stem +:+ ps) ps) by (exists stem; reflexivity).
    destruct (Nat.le_ge_cases (String.length ps) (String.length ps')) as [Hle|Hle].
    + apply (platformSuffixes_apart ps' ps Hin Hps).
      apply HasSuffix_spec. exact (ends_with_both _ _ _ Hme Hsuf Hle).
    + symmetry. apply (platformSuffixes_apart ps ps' Hps Hin).
      apply HasSuffix_spec. exact (ends_with_both _ _ _ Hsuf Hme Hle).
  - exfalso. apply list_elem_of_In in Hps.
    pose proof (find_none _ _ E ps Hps) as Hn.
    rewrite (proj2 (HasSuffix_spec _ ps)) in Hn by (exists stem; reflexivity).
    discriminate.
Qed.

Lemma obfuscateFileName_loop_shape (n : nat) :
  ∀ m fileName suffix,
    post (obfuscateFileName_loop n m fileName suffix)
         (fun res => (∃ body, res.1 = "f" +:+ body +:+ suffix +:+ ".go") ∧
                     res.2 = <[fileName := res.1]> m).
Proof.
  induction n as [|n IH]; intros m fileName suffix; cbn [obfuscateFileName_loop].
  - eapply post_bind with (P := fun _ => True); [intros r; exact I|].
    intros randomPart _. apply post_ret. cbn [fst snd]. split; [| reflexivity].
    exists (pretty (Z.of_nat (size m)) +:+ "_" +:+ randomPart).
    destruct (bool_decide (suffix ≠ EmptyString)) eqn:E.
    + rewrite !string_app_assoc. reflexivity.
    + apply bool_decide_eq_false in E. apply dec_stable in E. subst suffix.
      rewrite !string_app_assoc. reflexivity.
  - eapply post_bind with (P := fun _ => True); [intros r; exact I|].
    intros randomPart _. destruct (negb _); [| apply IH].
    apply post_ret. cbn [fst snd]. split; [| reflexivity].
    exists randomPart.
    destruct (bool_decide (suffix ≠ EmptyString)) eqn:E; [reflexivity|].
    apply bool_decide_eq_false in E. apply dec_stable in E. subst suffix.
    reflexivity.
Qed.

Lemma keepsFileName_generated (x : string) : keepsFileName ("f" +:+ x) = false.
Proof.
  unfold keepsFileName, HasPrefix. rewrite app_cons_s, app_nil_l_s.
  rewrite !bool_decide_eq_false_2 by discriminate. cbn [orb].
  destruct (_ <=? _)%nat; reflexivity.
Qed.

(** *** No two files share a name *)

Lemma pretty_N_go_length (k : nat) :
  ∀ x s, (x < 10 ^ N.of_nat k)%N ->
    (String.length (pretty_N_go x s) <= k + String.length s)%nat.
Proof.
  induction k as [|k IH]; intros x s Hx.
  - assert (x = 0%N) by (cbn in Hx; lia). subst x. rewrite pretty_N_go_0. lia.
  - destruct (decide (x = 0%N)) as [->|Hne]; [rewrite pretty_N_go_0; lia|].
    rewrite pretty_N_go_step by lia.
    etrans; [apply IH|cbn [String.length]; lia].
    apply N.Div0.div_lt_upper_bound.
    rewrite Nat2N.inj_succ, N.pow_succ_r' in Hx. exact Hx.
Qed.

Lemma pretty_short (n : Z) : 0 <= n < 10 ^ 9 -> (String.length (pretty n) <= 9)%nat.
Proof.
  intros Hn. destruct n as [|p|p]; [cbn; lia | | lia].
  change (String.length (pretty (N.pos p)) <= 9)%nat.
  unfold pretty, pretty_N. destruct (decide (N.pos p = 0%N)); [cbn; lia|].
  assert (Hp : (N.pos p < 10 ^ N.of_nat 9)%N).
  { change (10 ^ N.of_nat 9)%N with 1000000000%N.
    change (10 ^ 9) with 1000000000 in Hn. lia. }
  pose proof (pretty_N_go_length 9 (N.pos p) "" Hp) as H.
  cbn [String.length] in H. lia.
Qed.

Lemma underscore_position (a : string) :
  ∀ b x y,
    has_char "_" a = false -> (a +:+ x = b +:+ "_" +:+ y)%string ->
    (String.length a <= String.length b)%nat.
Proof.
  induction a as [|c a IH]; intros [|d b] x y Ha H;
    rewrite ?app_nil_l_s, ?app_cons_s in H; cbn [String.length]; try lia.
  - injection H as Hc _. subst c. cbn in Ha.
    rewrite bool_decide_eq_true_2 in Ha by reflexivity. discriminate.
  - injection H as _ H. cbn [has_char] in Ha.
    apply orb_false_iff in Ha as [_ Ha]. specialize (IH b x y Ha H). lia.
Qed.

Lemma random_name_no_counter (randomPart tail : string) (n : Z) :
  len randomPart = 10 -> has_char "_" randomPart = false ->
  0 <= n < 10 ^ 9 ->
  ¬ file_counter_name n ("f" +:+ randomPart +:+ tail).
Proof.
  intros Hlen Hno Hn [rest H]. rewrite !app_cons_s, !app_nil_l_s in H.
  injection H as H.
  apply underscore_position in H; [| exact Hno].
  pose proof (pretty_short n Hn). unfold len in Hlen. lia.
Qed.

Lemma file_counter_name_unique (n n' : Z) (v : string) :
  file_counter_name n v -> file_counter_name n' v -> n = n'.
Proof.
  intros [rest ->] [rest' H]. rewrite !app_cons_s, !app_nil_l_s in H.
  injection H as H.
  apply app_underscore_unique in H; try apply pretty_Z_no_underscore.
  apply (inj pretty). exact H.
Qed.

(** What one new name does to the mapping. *)
Lemma obfuscateFileName_loop_ok (n : nat) :
  ∀ m fileName suffix,
    file_names_ok m -> m !! fileName = None -> Z.of_nat (size m) < 10 ^ 9 ->
    post (obfuscateFileName_loop n m fileName suffix)
         (fun res => (∀ k, m !! k ≠ Some res.1) ∧
                     keepsFileName res.1 = false ∧
                     res.2 = <[fileName := res.1]> m ∧
                     file_names_ok res.2).
Proof.
  assert (Hins : ∀ m fileName v,
            file_names_ok m -> m !! fileName = None ->
            (∀ k, m !! k ≠ Some v) -> keepsFileName v = false ->
            (∀ n, file_counter_name n v -> 0 <= n < 10 ^ 9 ->
                  n < Z.of_nat (size m) + 1) ->
            file_names_ok (<[fileName := v]> m)).
  { intros m fileName v (Hinj & Hkeep & Hcnt) Hnone Hfresh Hk Hn.
    split; [| split].
    - intros k1 k2 w H1 H2.
      destruct (decide (k1 = fileName)) as [->|N1], (decide (k2 = fileName)) as [->|N2].
      + reflexivity.
      + rewrite lookup_insert_eq in H1. rewrite lookup_insert_ne in H2 by congruence.
        injection H1 as <-. destruct (Hfresh _ H2).
      + rewrite lookup_insert_eq in H2. rewrite lookup_insert_ne in H1 by congruence.
        injection H2 as <-. destruct (Hfresh _ H1).
      + rewrite lookup_insert_ne in H1, H2 by congruence. eapply Hinj; eassumption.
    - intros k w H. destruct (decide (k = fileName)) as [->|N1].
      + rewrite lookup_insert_eq in H. injection H as <-. exact Hk.
      + rewrite lookup_insert_ne in H by congruence. eapply Hkeep; eassumption.
    - intros k w c H Hc Hr. rewrite map_size_insert_None by exact Hnone.
      destruct (decide (k = fileName)) as [->|N1].
      + rewrite lookup_insert_eq in H. injection H as <-.
        specialize (Hn c Hc Hr). lia.
      + rewrite lookup_insert_ne in H by congruence.
        specialize (Hcnt k w c H Hc Hr). lia. }
  induction n as [|n IH]; intros m fileName suffix Hok Hnone Hsize;
    cbn [obfuscateFileName_loop].
  - eapply post_bind with (P := fun _ => True); [intros r; exact I|].
    intros randomPart _. apply post_ret. cbn [fst snd].
    set (tail := if bool_decide (suffix ≠ EmptyString)
                 then randomPart +:+ suffix +:+ ".go" else randomPart +:+ ".go").
    assert (Ev : (if bool_decide (suffix ≠ EmptyString)
                  then "f" +:+ pretty (Z.of_nat (size m)) +:+ "_" +:+ randomPart
                         +:+ suffix +:+ ".go"
                  else "f" +:+ pretty (Z.of_nat (size m)) +:+ "_" +:+ randomPart
                         +:+ ".go")
                 = "f" +:+ pretty (Z.of_nat (size m)) +:+ "_" +:+ tail)
      by (subst tail; destruct (bool_decide _); reflexivity).
    rewrite Ev. clear Ev.
    assert (Hc : file_counter_name (Z.of_nat (size m))
                   ("f" +:+ pretty (Z.of_nat (size m)) +:+ "_" +:+ tail))
      by (exists tail; reflexivity).
    assert (Hfresh : ∀ k, m !! k ≠ Some ("f" +:+ pretty (Z.of_nat (size m)) +:+ "_" +:+ tail)).
    { intros k Hk. destruct Hok as (_ & _ & Hcnt).
      specialize (Hcnt k _ _ Hk Hc ltac:(lia)). lia. }
    split; [exact Hfresh|]. split; [apply keepsFileName_generated|].
    split; [reflexivity|].
    apply Hins; [exact Hok | exact Hnone | exact Hfresh | apply keepsFileName_generated |].
    intros c Hc' _. rewrite (file_counter_name_unique _ _ _ Hc' Hc). lia.
  - eapply post_bind with
      (P := fun s => len s = 10 ∧ has_char "_" s = false).
    { intros r. split.
      - pose proof (generateRandomString_loop_len (Z.to_nat 10) EmptyString r) as H.
        cbn beta in H. unfold generateRandomString. rewrite H. reflexivity.
      - apply generateRandomString_no_underscore. }
    intros randomPart [Hlen Hno].
    set (tail := if bool_decide (suffix ≠ EmptyString)
                 then suffix +:+ ".go" else ".go"%string).
    assert (Ev : (if bool_decide (suffix ≠ EmptyString)
                  then "f" +:+ randomPart +:+ suffix +:+ ".go"
                  else "f" +:+ randomPart +:+ ".go")
                 = "f" +:+ randomPart +:+ tail)
      by (subst tail; destruct (bool_decide _); reflexivity).
    rewrite Ev. clear Ev.
    destruct (value_in m _) eqn:Eused; cbn [negb]; [apply IH; assumption|].
    apply post_ret. cbn [fst snd].
    assert (Hfresh : ∀ k, m !! k ≠ Some ("f" +:+ randomPart +:+ tail)).
    { intros k Hk. apply not_true_iff_false in Eused. apply Eused.
      apply value_in_spec. exists k. exact Hk. }
    split; [exact Hfresh|]. split; [apply keepsFileName_generated|].
    split; [reflexivity|].
    apply Hins; [exact Hok | exact Hnone | exact Hfresh | apply keepsFileName_generated |].
    intros c Hc Hr. destruct (random_name_no_counter randomPart tail c Hlen Hno Hr Hc).
Qed.

Lemma obfuscateFileName_unfold (m : gmap string string) (fileName : string) :
  obfuscateFileName m fileName =
  if keepsFileName fileName then mret (fileName, m)
  else match m !! fileName with
       | Some obfuscated => mret (obfuscated, m)
       | None => obfuscateFileName_loop 100 m fileName (platformSuffix fileName)
       end.
Proof.
  unfold obfuscateFileName, keepsFileName.
  destruct (_ || _); [reflexivity|]. cbn [orb].
  destruct (_ && _); reflexivity.
Qed.

Lemma obfuscateFileNames_ok (fileNames : list string) :
  ∀ m,
    file_names_ok m -> NoDup fileNames ->
    (∀ k, k ∈ fileNames -> m !! k = None) ->
    Z.of_nat (size m) + Z.of_nat (length fileNames) < 10 ^ 9 ->
    post (obfuscateFileNames m fileNames)
         (fun res => NoDup res.1 ∧
                     ∀ v, v ∈ res.1 ->
                       (∀ k, m !! k ≠ Some v) ∧
                       (keepsFileName v = true -> v ∈ fileNames)).
Proof.
  induction fileNames as [|fileName rest IH]; intros m Hok Hnd Hnew Hsize;
    cbn [obfuscateFileNames].
  - apply post_ret. split; [constructor|]. intros v Hv. apply elem_of_nil in Hv.
    destruct Hv.
  - apply NoDup_cons in Hnd as [Hnotin Hnd].
    assert (Hnone : m !! fileName = None) by (apply Hnew; left).
    rewrite obfuscateFileName_unfold, Hnone.
    destruct (keepsFileName fileName) eqn:Ekeep.
    + cbn [mbind R_bind mret R_ret]. unfold mbind at 1, R_bind, mret, R_ret.
      eapply post_bind.
      * apply (IH m Hok Hnd); [intros k Hk; apply Hnew; right; exact Hk|].
        cbn [length] in Hsize. lia.
      * intros [names m'] [Hnd' Hall]. apply post_ret. cbn [fst] in *. split.
        -- apply NoDup_cons. split; [| exact Hnd'].
           intros Hin. apply Hall in Hin as [_ Hin]. apply Hnotin, Hin, Ekeep.
        -- intros v Hv. apply elem_of_cons in Hv as [-> | Hv].
           ++ split; [| intros _; left].
              intros k Hk. destruct Hok as (_ & Hkeep & _).
              rewrite (Hkeep _ _ Hk) in Ekeep. discriminate.
           ++ destruct (Hall v Hv) as [H1 H2]. split; [exact H1|].
              intros Hk. right. apply H2, Hk.
    + eapply post_bind.
      * apply (obfuscateFileName_loop_ok 100 m fileName (platformSuffix fileName));
          [exact Hok | exact Hnone | cbn [length] in Hsize; lia].
      * intros [obf m1] (Hfresh & Hkeep1 & Em1 & Hok1). cbn [fst snd] in *.
        subst m1. eapply post_bind.
        -- apply (IH _ Hok1 Hnd).
           ++ intros k Hk. rewrite lookup_insert_ne; [apply Hnew; right; exact Hk|].
              intros ->. contradiction.
           ++ rewrite map_size_insert_None by exact Hnone.
              cbn [length] in Hsize. lia.
        -- intros [names m'] [Hnd' Hall]. apply post_ret. cbn [fst] in *. split.
           ++ apply NoDup_cons. split; [| exact Hnd'].
              intros Hin. apply Hall in Hin as [Hin _].
              apply (Hin fileName). apply lookup_insert_eq.
           ++ intros v Hv. apply elem_of_cons in Hv as [-> | Hv].
              ** split; [exact Hfresh|]. intros Hk. congruence.
              ** destruct (Hall v Hv) as [H1 H2]. split.
                 --- intros k Hk. apply (H1 k).
                     rewrite lookup_insert_ne; [exact Hk|].
                     intros ->. congruence.
                 --- intros Hk. right. apply H2, Hk.
Qed.

End FileNames.

(** X20.  File names are remembered.  After [obfuscateFileName] has returned a
    name for a file name, the next call for the same file name returns the
    same name, draws no random number and leaves the mapping as it is;
    [main.go], [go.mod], [go.sum] and the [main_*.go] files are returned
    as they are and never enter the mapping. *)
Theorem obfuscateFileName_remembers
    (fileNameMapping : gmap string string) (fileName : string) (r : Rand) :
  obfuscateFileName (obfuscateFileName fileNameMapping fileName r).1.2 fileName
                    (obfuscateFileName fileNameMapping fileName r).2
  = obfuscateFileName fileNameMapping fileName r ∧
  (keepsFileName fileName = true ->
   obfuscateFileName fileNameMapping fileName r = (fileName, fileNameMapping, r)).
Proof.
  rewrite !obfuscateFileName_unfold.
  destruct (keepsFileName fileName) eqn:Ek; [split; reflexivity|].
  split; [| discriminate].
  destruct (fileNameMapping !! fileName) as [obf|] eqn:E.
  - cbn [mret R_ret fst snd]. rewrite E. reflexivity.
  - pose proof (obfuscateFileName_loop_shape 100 fileNameMapping fileName
                  (platformSuffix fileName) r) as [_ H].
    destruct (obfuscateFileName_loop _ _ _ _ r) as [[obf m'] r'].
    cbn [fst snd] in *. subst m'. rewrite lookup_insert_eq. reflexivity.
Qed.

Lemma obfuscateFileName_remembers_witness :
  obfuscateFileName ∅ "main_linux.go" zeros = ("main_linux.go"%string, ∅, zeros).
Proof. apply (obfuscateFileName_remembers ∅ "main_linux.go" zeros). reflexivity. Defined.

(** X21.  The platform suffix survives.  A file name that is renamed gets a name
    that starts with [f] and ends in [.go]; when the file name ends in one
    of the listed platform suffixes followed by [.go], the new name ends in
    the same suffix and [.go], so the build constraint of the file name is
    kept; the new name is entered in the mapping. *)
Theorem obfuscateFileName_keeps_platform
    (fileNameMapping : gmap string string) (fileName : string) :
  keepsFileName fileName = false ->
  fileNameMapping !! fileName = None ->
  post (obfuscateFileName fileNameMapping fileName)
       (fun res => (∃ body, res.1 = "f" +:+ body +:+ ".go") ∧
                   (∀ ps, ps ∈ platformSuffixes -> ends_with fileName (ps +:+ ".go") ->
                          ends_with res.1 (ps +:+ ".go")) ∧
                   res.2 = <[fileName := res.1]> fileNameMapping).
Proof.
  intros Hk Hnone. rewrite obfuscateFileName_unfold, Hk, Hnone.
  eapply post_weaken; [apply obfuscateFileName_loop_shape|].
  intros res [[body Hres] Hm]. split; [| split; [| exact Hm]].
  - exists (body +:+ platformSuffix fileName). rewrite Hres.
    rewrite !string_app_assoc. reflexivity.
  - intros ps Hps [stem ->]. rewrite (platformSuffix_found stem ps Hps) in Hres.
    exists ("f" +:+ body). rewrite Hres, !string_app_assoc. reflexivity.
Qed.

Lemma obfuscateFileName_keeps_platform_witness :
  ends_with (obfuscateFileName ∅ "net_linux.go" zeros).1.1 "_linux.go".
Proof.
  assert (Hk : keepsFileName "net_linux.go" = false) by reflexivity.
  assert (Hnone : (∅ : gmap string string) !! "net_linux.go"%string = None)
    by reflexivity.
  destruct (obfuscateFileName_keeps_platform ∅ "net_linux.go" Hk Hnone zeros)
    as (_ & H & _).
  apply (H "_linux"%string).
  - apply list_elem_of_In. left. reflexivity.
  - exists "net"%string. reflexivity.
Defined.

(** X22.  No two files share a name.  Starting from the empty mapping, fewer than
    10^9 calls of [obfuscateFileName] for pairwise different file names
    return pairwise different names, whatever the random source yields;
    that includes the names that are kept. *)
Theorem obfuscateFileNames_distinct (fileNames : list string) :
  NoDup fileNames -> Z.of_nat (length fileNames) < 10 ^ 9 ->
  post (obfuscateFileNames ∅ fileNames) (fun res => NoDup res.1).
Proof.
  intros Hnd Hlen.
  eapply post_weaken; [apply (obfuscateFileNames_ok fileNames ∅)|].
  - split; [| split]; intros *; rewrite lookup_empty; discriminate.
  - exact Hnd.
  - intros k _. apply lookup_empty.
  - rewrite map_size_empty. lia.
  - intros res [H _]. exact H.
Qed.

Lemma obfuscateFileNames_distinct_witness :
  NoDup (obfuscateFileNames ∅ [ "main.go"; "util.go"; "net_linux.go" ]%string zeros).1.1.
Proof.
  apply (obfuscateFileNames_distinct [ "main.go"; "util.go"; "net_linux.go" ]%string).
  - repeat (apply NoDup_cons; split;
            [rewrite ?elem_of_cons, elem_of_nil; intros H;
             repeat (destruct H as [H|H]; [discriminate|]); exact H |]).
    apply NoDup_nil. exact I.
  - cbn. lia.
Defined.
(** ** Import paths *)

Section ImportPaths.










End ImportPaths.


(** ** The minimal mode of the prefix pass *)

Section OnlyProject.

Lemma TrimSuffix_dot_app (s : string) :
  HasSuffix_dot s = false -> TrimSuffix_dot (s +:+ ".") = s.
Proof.
  induction s as [|c s IH]; intros H; [reflexivity|].
  rewrite app_cons_s. cbn [TrimSuffix_dot].
  destruct s as [|d s].
  - rewrite app_nil_l_s. cbn [HasSuffix_dot] in H. reflexivity.
  - rewrite app_cons_s. rewrite <- app_cons_s. rewrite IH; [reflexivity|].
    exact H.
Qed.

Lemma TrimSuffix_dot_with_dot (s : string) :
  TrimSuffix_dot (with_dot s) = TrimSuffix_dot s.
Proof.
  unfold with_dot. destruct (HasSuffix_dot s) eqn:E; [reflexivity|].
  rewrite TrimSuffix_dot_app by exact E.
  clear -E. induction s as [|c s IH]; [reflexivity|].
  cbn [TrimSuffix_dot]. destruct s as [|d s].
  - cbn [HasSuffix_dot] in E. rewrite E. reflexivity.
  - f_equal. apply IH. exact E.
Qed.

Lemma customPatterns_project (entries : list (string * string)) :
  ∀ g patterns replacements,
    Forall project_pattern patterns ->
    post (customPatterns true entries g patterns replacements)
         (fun res => Forall project_pattern res.1.1).
Proof.
  induction entries as [|[original replacement] rest IH];
    intros g patterns replacements Hinv; cbn [customPatterns].
  - apply post_ret. exact Hinv.
  - destruct (lookup_bool standardLibs (TrimSuffix_dot original)) eqn:Estd;
      cbn [andb]; [apply IH; exact Hinv|].
    eapply post_bind with (P := fun _ => True); [intros r; exact I|].
    intros [q g'] _. apply IH. apply Forall_app. split; [exact Hinv|].
    repeat constructor.
    + apply HasSuffix_dot_with_dot.
    + rewrite TrimSuffix_dot_with_dot. exact Estd.
Qed.

Lemma defaultPatterns_project (defaults : list string) :
  Forall project_pattern defaults ->
  ∀ g patterns replacements,
    Forall project_pattern patterns ->
    post (defaultPatterns defaults g patterns replacements)
         (fun res => Forall project_pattern res.1.1).
Proof.
  induction 1 as [|p rest Hp Hrest IH]; intros g patterns replacements Hinv;
    cbn [defaultPatterns].
  - apply post_ret. exact Hinv.
  - eapply post_bind with (P := fun _ => True); [intros r; exact I|].
    intros [q g'] _. apply IH. apply Forall_app. split; [exact Hinv|].
    repeat constructor; apply Hp.
Qed.

Lemma replacePrefix_loop_patterns (n : nat) :
  ∀ j data p q log (Q : Write -> Prop),
    (∀ pos, Q {| w_pos := pos; w_pattern := p; w_bytes := q |}) ->
    Forall Q log -> Forall Q (replacePrefix_loop n j data p q log).2.
Proof.
  induction n as [|n IH]; intros j data p q log Q HQ Hlog;
    cbn [replacePrefix_loop]; [exact Hlog|].
  destruct (bytes_Equal _ p); [| apply IH; assumption].
  destruct (negb _); [apply IH; assumption|].
  destruct (_ =? _)%nat.
  { apply IH; [exact HQ|]. apply Forall_app. split; [exact Hlog|].
    repeat constructor. apply HQ. }
  destruct (_ <? _)%nat; [| apply IH; assumption].
  apply IH; [exact HQ|]. apply Forall_app. split; [exact Hlog|].
  repeat constructor. apply HQ.
Qed.

Lemma replacePrefixes_patterns (patterns : list string) (P : string -> Prop) :
  Forall P patterns ->
  ∀ replacements data offset log,
    Forall (fun w => ∃ p, w_pattern w = list_ascii_of_string p ∧ P p) log ->
    Forall (fun w => ∃ p, w_pattern w = list_ascii_of_string p ∧ P p)
           (replacePrefixes data offset patterns replacements log).2.
Proof.
  induction 1 as [|p ps Hp Hps IH]; intros [|q qs] data offset log Hlog;
    cbn [replacePrefixes]; try exact Hlog.
  destruct (replacePrefix data offset p q log) as [data1 log1] eqn:E.
  apply IH.
  replace log1 with (replacePrefix data offset p q log).2 by (rewrite E; reflexivity).
  unfold replacePrefix. apply replacePrefix_loop_patterns; [| exact Hlog].
  intros pos. exists p. split; [reflexivity | exact Hp].
Qed.

End OnlyProject.

(** X24.  The minimal mode.  With [OnlyObfuscateProject] set, every occurrence
    that the prefix pass of [obfuscateFunctionNames] overwrites is the
    occurrence of a pattern that ends in a dot and whose package name is
    not one of the listed standard-library names: [runtime.], [fmt.],
    [sync.] and the others are not touched by this pass. *)
Theorem only_project_keeps_standard_library
    (cfg : LinkConfig) (data : bytes) (offset : Z) :
  OnlyObfuscateProject cfg = true ->
  post (obfuscateFunctionNames cfg data offset)
       (fun res => Forall (fun w => ∃ p, w_pattern w = list_ascii_of_string p ∧
                                        project_pattern p)
                          (prefix_log res)).
Proof.
  intros Honly. unfold obfuscateFunctionNames, functionNamePatterns.
  rewrite Honly.
  eapply post_bind with
    (P := fun res : list string * list string => Forall project_pattern res.1).
  - eapply post_bind with
      (P := fun res : list string * list string * NaturalNameGenerator =>
              Forall project_pattern res.1.1).
    + destruct (0 <? length (PackageReplacements cfg))%nat.
      * apply customPatterns_project. constructor.
      * apply defaultPatterns_project; [| constructor].
        repeat constructor.
    + intros [[ps qs] g] H. apply post_ret. exact H.
  - intros [patterns replacements] Hp. cbn [fst] in Hp.
    pose proof (replacePrefixes_patterns patterns project_pattern Hp replacements
                  data offset [] ltac:(constructor)) as Hlog.
    destruct (replacePrefixes data offset patterns replacements []) as [data1 log1].
    destruct (replaceProjectPackagePathsGlobal cfg data1) as [data2 paths].
    apply post_ret. exact Hlog.
Qed.

Lemma only_project_keeps_standard_library_witness :
  Forall (fun w => ∃ p, w_pattern w = list_ascii_of_string p ∧ project_pattern p)
         (prefix_log (obfuscateFunctionNames only_project_LinkConfig
                        (list_ascii_of_string "a" ++ bytes_of [0]
                           ++ list_ascii_of_string "fmt.Println" ++ bytes_of [0]
                           ++ list_ascii_of_string "main.main" ++ bytes_of [0; 0])
                        0 zeros).1).
Proof.
  apply (only_project_keeps_standard_library only_project_LinkConfig).
  reflexivity.
Defined.
(** ** Names of objects *)

Section ObjectNaming.





End ObjectNaming.


(** ** Scopes *)

Section Scopes.

Lemma NewScopeAnalyzer_ok : scopes_ok NewScopeAnalyzer.
Proof.
  split.
  - intros [|l] s H; cbn in H; [| destruct l; discriminate].
    injection H as <-. cbn. split; [discriminate|].
    intros c Hc. apply elem_of_nil in Hc. destruct Hc.
  - exists 0%nat. split; [reflexivity | cbn; lia].
Qed.

Lemma length_add_child (h : list Scope) (l child : nat) :
  length (add_child h l child) = length h.
Proof. unfold add_child. destruct (h !! l); [apply length_insert | reflexivity]. Qed.

Lemma add_child_lookup (h : list Scope) (l child k : nat) (s : Scope) :
  add_child h l child !! k = Some s ->
  ∃ s0, h !! k = Some s0 ∧ Parent s = Parent s0 ∧ Objects s = Objects s0 ∧
        Start s = Start s0 ∧ End_ s = End_ s0 ∧
        (Children s = Children s0 ∨ (k = l ∧ Children s = Children s0 ++ [child])).
Proof.
  unfold add_child. destruct (h !! l) as [sl|] eqn:El.
  - destruct (decide (k = l)) as [->|Hne].
    + rewrite list_lookup_insert_eq by (eapply lookup_lt_Some; exact El).
      intros H. injection H as <-. exists sl. cbn. repeat split; auto.
    + rewrite list_lookup_insert_ne by congruence. intros H. exists s.
      repeat split; auto.
  - intros H. exists s. repeat split; auto.
Qed.

Lemma newScope_heap (sa : ScopeAnalyzer) (node : option Node) (k : nat) (s : Scope) :
  (∀ c, currentScope sa = Some c -> (c < length (heap sa))%nat) ->
  heap (newScope sa node).2 !! k = Some s ->
  (k = length (heap sa) ∧ Parent s = currentScope sa ∧ Objects s = ∅ ∧ Children s = []
   ∧ Start s = match node with Some n => node_Pos n | None => 0 end
   ∧ End_ s = match node with Some n => node_End n | None => 0 end) ∨
  (∃ s0, heap sa !! k = Some s0 ∧ Parent s = Parent s0 ∧ Objects s = Objects s0 ∧
         Start s = Start s0 ∧ End_ s = End_ s0 ∧
         (Children s = Children s0 ∨
          (currentScope sa = Some k ∧ Children s = Children s0 ++ [length (heap sa)]))).
Proof.
  unfold newScope. cbn [snd heap]. intros Hcur H.
  assert (Hbase : ∀ s1, (heap sa ++
            [{| Parent := currentScope sa; Children := []; Objects := ∅;
                scope_Node := node_id <$> node;
                Start := match node with Some n => node_Pos n | None => 0 end;
                End_ := match node with Some n => node_End n | None => 0 end |}])
            !! k = Some s1 ->
            (k = length (heap sa) ∧ Parent s1 = currentScope sa ∧ Objects s1 = ∅
             ∧ Children s1 = []
             ∧ Start s1 = match node with Some n => node_Pos n | None => 0 end
             ∧ End_ s1 = match node with Some n => node_End n | None => 0 end)
            ∨ heap sa !! k = Some s1).
  { intros s1 H1. destruct (Nat.lt_ge_cases k (length (heap sa))) as [Hlt|Hge].
    - right. rewrite lookup_app_l in H1 by exact Hlt. exact H1.
    - left. rewrite lookup_app_r in H1 by exact Hge.
      destruct (k - length (heap sa))%nat as [|d] eqn:Ed; [|destruct d; discriminate].
      injection H1 as <-. cbn. repeat split; try reflexivity. lia. }
  destruct (currentScope sa) as [c|] eqn:Ec.
  - apply add_child_lookup in H as (s0 & H0 & HP & HO & HS & HE & HC).
    apply Hbase in H0 as [(-> & H1 & H2 & H3 & H4 & H5) | H0].
    + left. destruct HC as [HC | [Hk HC]].
      * repeat split; congruence.
      * specialize (Hcur c eq_refl). lia.
    + right. exists s0. repeat split; try assumption.
      destruct HC as [HC | [-> HC]]; [left; exact HC | right; split; [reflexivity | exact HC]].
  - apply Hbase in H as [H | H]; [left; exact H | right].
    exists s. repeat split; auto.
Qed.

Lemma length_newScope (sa : ScopeAnalyzer) (node : option Node) :
  length (heap (newScope sa node).2) = S (length (heap sa)).
Proof.
  unfold newScope. cbn [snd heap].
  destruct (currentScope sa); rewrite ?length_add_child, length_app; cbn; lia.
Qed.

Lemma scopes_ok_current (sa : ScopeAnalyzer) :
  scopes_ok sa -> ∀ c, currentScope sa = Some c -> (c < length (heap sa))%nat.
Proof. intros [_ (c' & Hc & Hlt)] c H. congruence. Qed.

Lemma enterScope_ok (sa : ScopeAnalyzer) (node : option Node) :
  scopes_ok sa -> scopes_ok (enterScope sa node).2.
Proof.
  intros Hok. pose proof (scopes_ok_current sa Hok) as Hcur.
  destruct Hok as [Hshape (c & Hc & Hlt)].
  unfold enterScope.
  pose proof (newScope_heap sa node) as Hheap.
  pose proof (length_newScope sa node) as Hlen.
  destruct (newScope sa node) as [l sa1] eqn:E.
  assert (El : l = length (heap sa)) by (unfold newScope in E; congruence).
  cbn [snd] in *. split.
  - intros k s Hk. cbn [set_currentScope heap] in *. rewrite Hlen.
    apply Hheap in Hk as [(-> & HP & _ & HC & _) | (s0 & H0 & HP & _ & _ & _ & HC)];
      [| | exact Hcur].
    + split.
      * intros p Hp. apply Hcur. congruence.
      * intros x Hx. rewrite HC in Hx. apply elem_of_nil in Hx. destruct Hx.
    + destruct (Hshape k s0 H0) as [H1 H2]. split.
      * intros p Hp. apply H1. congruence.
      * intros x Hx. pose proof (lookup_lt_Some _ _ _ H0).
        destruct HC as [HC | [_ HC]]; rewrite HC in Hx.
        -- specialize (H2 x Hx). lia.
        -- apply elem_of_app in Hx as [Hx | Hx]; [specialize (H2 x Hx); lia|].
           apply list_elem_of_singleton in Hx. lia.
  - exists l. split; [reflexivity|]. cbn [set_currentScope heap]. lia.
Qed.

Lemma enterFile_ok (sa : ScopeAnalyzer) (file : Node) :
  scopes_ok sa -> scopes_ok (enterFile sa file).
Proof.
  intros Hok. pose proof (enterScope_ok sa (Some file) Hok) as H.
  unfold enterFile, enterScope in *.
  destruct (newScope sa (Some file)) as [l sa1]. exact H.
Qed.

Lemma leaveScope_ok (sa : ScopeAnalyzer) :
  scopes_ok sa -> ∃ sa', leaveScope sa = Some sa' ∧ scopes_ok sa' ∧ heap sa' = heap sa.
Proof.
  intros [Hshape (c & Hc & Hlt)]. unfold leaveScope. rewrite Hc. cbn [mbind option_bind].
  destruct (lookup_lt_is_Some_2 _ _ Hlt) as [s Hs]. rewrite Hs. cbn [mbind option_bind].
  destruct (Parent s) as [p|] eqn:Ep.
  - eexists. split; [reflexivity|]. split; [| reflexivity]. split; [exact Hshape|].
    exists p. split; [reflexivity|]. cbn.
    destruct (Hshape c s Hs) as [H1 _]. specialize (H1 p Ep). lia.
  - exists sa. split; [reflexivity|]. split; [| reflexivity].
    split; [exact Hshape|]. exists c. split; assumption.
Qed.

Lemma declareObject_ok (sa : ScopeAnalyzer) name kind decl pos :
  scopes_ok sa ->
  ∃ obj sa', declareObject sa name kind decl pos = Some (obj, sa') ∧ scopes_ok sa'.
Proof.
  intros [Hshape (c & Hc & Hlt)]. unfold declareObject. rewrite Hc.
  cbn [mbind option_bind].
  destruct (lookup_lt_is_Some_2 _ _ Hlt) as [s Hs]. rewrite Hs. cbn [mbind option_bind].
  eexists _, _. split; [reflexivity|]. split.
  - intros k s' Hk. cbn [heap] in *. rewrite length_insert.
    destruct (decide (k = c)) as [->|Hne].
    + rewrite list_lookup_insert_eq in Hk by exact Hlt. injection Hk as <-.
      cbn [Parent Children]. exact (Hshape c s Hs).
    + rewrite list_lookup_insert_ne in Hk by congruence. exact (Hshape k s' Hk).
  - exists c. split; [reflexivity|]. cbn [heap]. rewrite length_insert. exact Hlt.
Qed.

Lemma scope_run_ok (ops : list ScopeOp) :
  ∀ sa, scopes_ok sa -> ∃ sa', scope_run sa ops = Some sa' ∧ scopes_ok sa'.
Proof.
  induction ops as [|op rest IH]; intros sa Hok; cbn [scope_run].
  - exists sa. split; [reflexivity | exact Hok].
  - assert (Hstep : ∃ sa1, scope_step sa op = Some sa1 ∧ scopes_ok sa1).
    { destruct op as [file|node| |name kind decl pos]; cbn [scope_step].
      - eexists. split; [reflexivity | apply enterFile_ok, Hok].
      - eexists. split; [reflexivity | apply enterScope_ok, Hok].
      - destruct (leaveScope_ok sa Hok) as (sa1 & H1 & H2 & _). eauto.
      - destruct (declareObject_ok sa name kind decl pos Hok) as (obj & sa1 & H1 & H2).
        rewrite H1. eexists. split; [reflexivity | exact H2]. }
    destruct Hstep as (sa1 & H1 & H2). rewrite H1. cbn [mbind option_bind].
    apply IH, H2.
Qed.

(** *** Lookups *)

(** Enough steps: more fuel than the address of the scope changes
    nothing. *)
Lemma LookupObject_from_fuel (h : list Scope) (name : string) :
  (∀ l s, h !! l = Some s -> ∀ p, Parent s = Some p -> (p < l)%nat) ->
  ∀ f1 f2 x, (x < f1)%nat -> (x < f2)%nat ->
    LookupObject_from f1 h (Some x) name = LookupObject_from f2 h (Some x) name.
Proof.
  intros Hpar f1. induction f1 as [|f1 IH]; intros [|f2] x H1 H2; try lia.
  cbn [LookupObject_from mbind option_bind].
  destruct (h !! x) as [s|] eqn:Es; [| reflexivity].
  cbn [mbind option_bind]. destruct (Objects s !! name); [reflexivity|].
  destruct (Parent s) as [p|] eqn:Ep.
  - pose proof (Hpar x s Es p Ep). apply IH; lia.
  - destruct f1, f2; reflexivity.
Qed.

Lemma LookupObject_from_agree (h1 h2 : list Scope) (name : string) (n : nat) :
  (∀ l s, h1 !! l = Some s -> ∀ p, Parent s = Some p -> (p < l)%nat) ->
  (∀ l, (l < n)%nat ->
     ∃ s1 s2, h1 !! l = Some s1 ∧ h2 !! l = Some s2 ∧
              Parent s1 = Parent s2 ∧ Objects s1 !! name = Objects s2 !! name) ->
  ∀ fuel x, (x < n)%nat ->
    LookupObject_from fuel h1 (Some x) name = LookupObject_from fuel h2 (Some x) name.
Proof.
  intros Hpar Hagree fuel. induction fuel as [|fuel IH]; intros x Hx; [reflexivity|].
  cbn [LookupObject_from mbind option_bind].
  destruct (Hagree x Hx) as (s1 & s2 & E1 & E2 & HP & HO).
  rewrite E1, E2. cbn [mbind option_bind]. rewrite <- HO.
  destruct (Objects s1 !! name); [reflexivity|]. rewrite <- HP.
  destruct (Parent s1) as [p|] eqn:Ep.
  - apply IH. pose proof (Hpar x s1 E1 p Ep). lia.
  - destruct fuel; reflexivity.
Qed.

End Scopes.

(** X26.  The analyzer never loses its current scope.  From [NewScopeAnalyzer],
    every sequence of entering a file as [Analyze] does, [enterScope],
    [leaveScope] and [declareObject] runs
    without the nil dereference of [sa.currentScope], also when scopes are
    left more often than entered, and keeps the scopes in shape: parents
    before children, the current scope allocated. *)
Theorem scope_analysis_never_panics (ops : list ScopeOp) :
  ∃ sa, scope_run NewScopeAnalyzer ops = Some sa ∧ scopes_ok sa.
Proof. apply scope_run_ok, NewScopeAnalyzer_ok. Qed.

(** X27.  A declaration shadows.  After [declareObject] the lookup of the name
    from the current scope yields the new object, whatever the enclosing
    scopes declare, and the lookup of any other name from any scope is as
    before. *)
Theorem declareObject_shadows
    (sa : ScopeAnalyzer) (name : string) (kind : ObjectKind) (decl : option Node)
    (pos : Z) (c : nat) :
  scopes_ok sa -> currentScope sa = Some c ->
  ∃ obj sa',
    declareObject sa name kind decl pos = Some (obj, sa') ∧
    obj_Name obj = name ∧ obj_Scope obj = Some c ∧
    LookupObject sa' c name = Some obj ∧
    ∀ l name', name' ≠ name -> (l < length (heap sa))%nat ->
      LookupObject sa' l name' = LookupObject sa l name'.
Proof.
  intros Hok Hc. pose proof (scopes_ok_current sa Hok c Hc) as Hlt.
  destruct Hok as [Hshape _].
  destruct (lookup_lt_is_Some_2 _ _ Hlt) as [s Hs].
  unfold declareObject. rewrite Hc. cbn [mbind option_bind]. rewrite Hs.
  cbn [mbind option_bind]. eexists _, _. split; [reflexivity|].
  split; [reflexivity|]. split; [reflexivity|]. split.
  - unfold LookupObject. cbn [LookupObject_from heap mbind option_bind].
    rewrite list_lookup_insert_eq by exact Hlt. cbn [mbind option_bind Objects].
    rewrite lookup_insert_eq. reflexivity.
  - intros l name' Hne Hl. unfold LookupObject. cbn [heap]. symmetry.
    apply (LookupObject_from_agree _ _ name' (length (heap sa))); [| | exact Hl].
    + intros k sk Hk p Hp. exact (proj1 (Hshape k sk Hk) p Hp).
    + intros k Hk. destruct (lookup_lt_is_Some_2 _ _ Hk) as [sk Hsk].
      destruct (decide (k = c)) as [->|Hkc].
      * eexists _, _. split; [exact Hsk|].
        split; [apply list_lookup_insert_eq; exact Hlt|].
        assert (sk = s) by congruence. subst sk. cbn [Parent Objects].
        split; [reflexivity|]. rewrite lookup_insert_ne by congruence. reflexivity.
      * exists sk, sk. split; [exact Hsk|].
        split; [rewrite list_lookup_insert_ne by congruence; exact Hsk|].
        split; reflexivity.
Qed.

Lemma declareObject_shadows_witness :
  ∃ obj sa',
    declareObject NewScopeAnalyzer "x" ObjVar None 7 = Some (obj, sa') ∧
    LookupObject sa' 0 "x" = Some obj.
Proof.
  destruct (declareObject_shadows NewScopeAnalyzer "x" ObjVar None 7 0
              NewScopeAnalyzer_ok eq_refl) as (obj & sa' & H1 & _ & _ & H2 & _).
  exists obj, sa'. split; assumption.
Defined.

(** X28.  Entering and leaving.  [enterScope] makes a new, empty scope current
    whose lookups are those of the scope that was current; the [leaveScope]
    that follows makes that scope current again, and no lookup from an
    older scope has changed. *)
Theorem enterScope_leaveScope
    (sa : ScopeAnalyzer) (node : option Node) (c : nat) :
  scopes_ok sa -> currentScope sa = Some c ->
  ∃ sa2,
    leaveScope (enterScope sa node).2 = Some sa2 ∧
    currentScope (enterScope sa node).2 = Some (enterScope sa node).1 ∧
    currentScope sa2 = Some c ∧
    (∀ name, LookupObject (enterScope sa node).2 (enterScope sa node).1 name
             = LookupObject sa c name) ∧
    (∀ l name, (l < length (heap sa))%nat ->
               LookupObject sa2 l name = LookupObject sa l name).
Proof.
  intros Hok Hc. pose proof (scopes_ok_current sa Hok) as Hcur.
  pose proof (Hcur c Hc) as Hlt. destruct Hok as [Hshape _].
  pose proof (newScope_heap sa node) as Hheap.
  pose proof (length_newScope sa node) as Hlen.
  unfold enterScope.
  destruct (newScope sa node) as [l sa1] eqn:E.
  assert (El : l = length (heap sa)) by (unfold newScope in E; congruence).
  assert (Ecur : currentScope sa1 = Some c)
    by (unfold newScope in E; injection E as _ <-; exact Hc).
  cbn [fst snd] in *.
  assert (Hl1 : (l < length (heap sa1))%nat) by lia.
  destruct (lookup_lt_is_Some_2 _ _ Hl1) as [s Hs].
  assert (Hnew : Parent s = Some c ∧ Objects s = ∅).
  { destruct (Hheap l s Hcur Hs) as [(_ & HP & HO & _) | (s0 & H0 & _)].
    - split; [congruence | exact HO].
    - apply lookup_lt_Some in H0. lia. }
  destruct Hnew as [HP HO].
  assert (Hagree : ∀ name k, (k < length (heap sa))%nat ->
            ∃ s1 s2, heap sa !! k = Some s1 ∧ heap sa1 !! k = Some s2 ∧
                     Parent s1 = Parent s2 ∧ Objects s1 !! name = Objects s2 !! name).
  { intros name k Hk. destruct (lookup_lt_is_Some_2 _ _ Hk) as [s1 Hs1].
    assert (Hk1 : (k < length (heap sa1))%nat) by lia.
    destruct (lookup_lt_is_Some_2 _ _ Hk1) as [s2 Hs2].
    exists s1, s2. split; [exact Hs1|]. split; [exact Hs2|].
    destruct (Hheap k s2 Hcur Hs2) as [(Hk' & _) | (s0 & H0 & HP0 & HO0 & _)]; [lia|].
    assert (s0 = s1) by congruence. subst s0. split; congruence. }
  assert (Hpar : ∀ k sk, heap sa !! k = Some sk -> ∀ p, Parent sk = Some p -> (p < k)%nat).
  { intros k sk Hk p Hp. exact (proj1 (Hshape k sk Hk) p Hp). }
  exists (set_currentScope (set_currentScope sa1 (Some l)) (Some c)).
  split; [| split; [reflexivity | split; [reflexivity | split]]].
  - unfold leaveScope. cbn [currentScope set_currentScope heap mbind option_bind].
    rewrite Hs. cbn [mbind option_bind]. rewrite HP. reflexivity.
  - intros name. unfold LookupObject.
    set (rhs := LookupObject_from (S c) (heap sa) (Some c) name).
    cbn [set_currentScope heap LookupObject_from mbind option_bind].
    rewrite Hs. cbn [mbind option_bind]. rewrite HO, lookup_empty, HP. subst rhs.
    rewrite <- (LookupObject_from_agree (heap sa) (heap sa1) name (length (heap sa)))
      by (try exact Hpar; try exact (Hagree name); exact Hlt).
    apply LookupObject_from_fuel; [exact Hpar | lia | lia].
  - intros k name Hk. unfold LookupObject. cbn [set_currentScope heap]. symmetry.
    apply (LookupObject_from_agree _ _ name (length (heap sa)));
      [exact Hpar | exact (Hagree name) | exact Hk].
Qed.

Lemma enterScope_leaveScope_witness :
  ∃ sa2,
    leaveScope (enterScope NewScopeAnalyzer None).2 = Some sa2 ∧
    currentScope sa2 = Some 0%nat.
Proof.
  destruct (enterScope_leaveScope NewScopeAnalyzer None 0 NewScopeAnalyzer_ok eq_refl)
    as (sa2 & H1 & _ & H2 & _).
  exists sa2. split; assumption.
Defined.

(** *** The scope at a position *)

Section ScopeAt.

Lemma contains_outside (s : Scope) (pos : Z) :
  (pos <? Start s) || (End_ s <? pos) = negb (contains s pos).
Proof.
  unfold contains.
  destruct (Z.ltb_spec pos (Start s)), (Z.leb_spec (Start s) pos),
    (Z.ltb_spec (End_ s) pos), (Z.leb_spec pos (End_ s)); try lia; reflexivity.
Qed.

Lemma getScopeAtInTree_fuel_spec (sa : ScopeAnalyzer) (pos : Z) :
  scopes_ok sa ->
  ∀ fuel scope s,
    heap sa !! scope = Some s -> (length (heap sa) - scope <= fuel)%nat ->
    (contains s pos = false ->
     getScopeAtInTree_fuel fuel (heap sa) scope pos = None) ∧
    (contains s pos = true ->
     ∃ r, getScopeAtInTree_fuel fuel (heap sa) scope pos = Some r ∧
          innermost_at sa r pos).
Proof.
  intros [Hshape _] fuel. induction fuel as [|fuel IH]; intros scope s Hs Hfuel.
  { apply lookup_lt_Some in Hs. lia. }
  cbn [getScopeAtInTree_fuel]. rewrite Hs. cbn [mbind option_bind].
  rewrite contains_outside. split; [intros ->; reflexivity|].
  intros Hin. rewrite Hin. cbn [negb].
  destruct (Hshape scope s Hs) as [_ Hch].
  assert (Hloop : ∀ l,
            (∀ c, c ∈ l -> (scope < c < length (heap sa))%nat) ->
            ∃ r, getScopeAtInTree_children
                   (fun child => getScopeAtInTree_fuel fuel (heap sa) child pos)
                   (heap sa) pos scope l = Some r ∧
                 (innermost_at sa r pos ∨
                  (r = scope ∧ ∀ c sc, c ∈ l -> heap sa !! c = Some sc ->
                                       contains sc pos = false))).
  { induction l as [|child rest IHl]; intros Hl; cbn [getScopeAtInTree_children].
    - exists scope. split; [reflexivity|]. right. split; [reflexivity|].
      intros c sc Hc. apply elem_of_nil in Hc. destruct Hc.
    - assert (Hrest : ∀ c, c ∈ rest -> (scope < c < length (heap sa))%nat)
        by (intros c Hc; apply Hl; right; exact Hc).
      destruct (IHl Hrest) as (r & Hr & Hgood).
      pose proof (Hl child ltac:(left)) as Hchild.
      destruct (lookup_lt_is_Some_2 (heap sa) child ltac:(lia)) as [sc Hsc].
      rewrite Hsc.
      destruct (contains sc pos) eqn:Ec.
      + destruct (IH child sc Hsc ltac:(lia)) as [_ Hfound].
        destruct (Hfound Ec) as (r' & Hr' & Hinner). rewrite Hr'.
        exists r'. split; [reflexivity | left; exact Hinner].
      + exists r. split; [exact Hr|].
        destruct Hgood as [Hinner | [-> Hnone]]; [left; exact Hinner | right].
        split; [reflexivity|]. intros c sc' Hc Hsc'.
        apply elem_of_cons in Hc as [-> | Hc].
        * congruence.
        * eapply Hnone; eassumption. }
  destruct (Hloop (Children s) Hch) as (r & Hr & Hgood).
  exists r. split; [exact Hr|].
  destruct Hgood as [Hinner | [-> Hnone]]; [exact Hinner|].
  exists s. split; [exact Hs|]. split; [exact Hin | exact Hnone].
Qed.

End ScopeAt.

(** X29.  The scope at a position.  In scopes in shape, [getScopeAtInTree]
    returns nil exactly when the position lies outside the scope it is
    given; otherwise it returns a scope that contains the position while
    none of its children does. *)
Theorem getScopeAtInTree_innermost
    (sa : ScopeAnalyzer) (scope : nat) (s : Scope) (pos : Z) :
  scopes_ok sa -> heap sa !! scope = Some s ->
  (contains s pos = false -> getScopeAtInTree sa scope pos = None) ∧
  (contains s pos = true ->
   ∃ r, getScopeAtInTree sa scope pos = Some r ∧ innermost_at sa r pos).
Proof.
  intros Hok Hs. unfold getScopeAtInTree.
  apply getScopeAtInTree_fuel_spec; [exact Hok | exact Hs | lia].
Qed.

Lemma getScopeAtInTree_innermost_witness :
  ∃ r, getScopeAtInTree nested_scopes 1 25 = Some r ∧ innermost_at nested_scopes r 25.
Proof.
  assert (Hok : scopes_ok nested_scopes).
  { destruct (scope_run_ok nested_blocks NewScopeAnalyzer NewScopeAnalyzer_ok)
      as (sa & Hrun & Hok).
    unfold nested_scopes. rewrite Hrun. exact Hok. }
  eapply (getScopeAtInTree_innermost nested_scopes 1 _ 25 Hok).
  - vm_compute. reflexivity.
  - vm_compute. reflexivity.
Defined.
(** ** The base64 import *)

Section Base64Import.





End Base64Import.


